(** * Stream decoding engine of basaran (basaran/model.py)

    A shallow embedding of [StreamModel]: the logits processor set-up, the
    retrying inference wrapper, the batched auto-regressive generator, the
    log-probability sampler and the stream orchestrator [__call__].

    Python generators are embedded as finite trees of effects ([prog]): a
    [Yield] node is a suspension point of the generator, a [Forward] or
    [Encode] node is one call of a model function, [Multinomial] is a random
    draw and [Sleep] a delay.  A tree is run against a [World] that answers
    model calls and random draws. *)

From Stdlib Require Import ZArith QArith Qround Lia Sorted.
From stdpp Require Import base option list strings gmap.

Local Open Scope Z_scope.

(** ** Numbers *)

(** Sampling parameters ([temperature], [top_p]) are Python numbers: an int
    or a float.  A finite float is a rational; comparisons with the literals
    [0], [1] and [1.0] are exact, and an int compares as the float of the
    same value. *)
Inductive pynumber :=
| PyInt (z : Z)
| Finite (q : Q)
| PosInf
| NegInf
| NaN.

(** [isinstance(x, float)] *)
Definition is_float (x : pynumber) : bool :=
  match x with
  | PyInt _ => false
  | Finite _ | PosInf | NegInf | NaN => true
  end.

(** [float(x)] *)
Definition to_float (x : pynumber) : pynumber :=
  match x with
  | PyInt z => Finite (inject_Z z)
  | _ => x
  end.

(** [x <= 0] *)
Definition le_zero (x : pynumber) : bool :=
  match x with
  | PyInt z => z <=? 0
  | Finite q => Qle_bool q 0
  | NegInf => true
  | PosInf | NaN => false
  end.

(** [x > 0] *)
Definition gt_zero (x : pynumber) : bool :=
  match x with
  | PyInt z => 0 <? z
  | Finite q => negb (Qle_bool q 0)
  | PosInf => true
  | NegInf | NaN => false
  end.

(** [x != 1.0] *)
Definition ne_one (x : pynumber) : bool :=
  match x with
  | PyInt z => negb (z =? 1)
  | Finite q => negb (Qeq_bool q 1)
  | PosInf | NegInf | NaN => true
  end.

(** [x < 1] *)
Definition lt_one (x : pynumber) : bool :=
  match x with
  | PyInt z => z <? 1
  | Finite q => negb (Qle_bool 1 q)
  | NegInf => true
  | PosInf | NaN => false
  end.

(** [x < 0] *)
Definition lt_zero (x : pynumber) : bool :=
  match x with
  | PyInt z => z <? 0
  | Finite q => negb (Qle_bool 0 q)
  | NegInf => true
  | PosInf | NaN => false
  end.

(** [x > 1.0] *)
Definition gt_one (x : pynumber) : bool :=
  match x with
  | PyInt z => 1 <? z
  | Finite q => negb (Qle_bool q 1)
  | PosInf => true
  | NegInf | NaN => false
  end.

(** Elements of a [torch.long] tensor are 64-bit two's complement integers. *)
Module Int64.
Definition wrap (z : Z) : Z := (z + 2 ^ 63) mod 2 ^ 64 - 2 ^ 63.
Definition add (a b : Z) : Z := wrap (a + b).
Definition sub (a b : Z) : Z := wrap (a - b).
Definition mul (a b : Z) : Z := wrap (a * b).
Definition in_range (z : Z) : Prop := - 2 ^ 63 <= z < 2 ^ 63.
End Int64.

(** ** Exceptions *)

Inductive exn :=
| TypeError
| ValueError
| IndexError
| RuntimeError
| AttributeError
| ModelError (code : Z)          (* whatever a model function raises *)
| RetryError (last_attempt : exn). (* tenacity.RetryError *)

(** ** Generation config *)

(** [eos_token_id] is an int or a list of ints. *)
Inductive eos_ids :=
| EosInt (e : Z)
| EosList (ids : list Z).

Record GenerationConfig := {
  min_new_tokens : option Z;
  max_new_tokens : option Z;
  temperature : option pynumber;
  top_p : option pynumber;
  pad_token_id : option Z;
  bos_token_id : option Z;
  eos_token_id : option eos_ids;
  decoder_start_token_id : option Z;
  use_cache : bool;
}.

(** The keyword arguments [__call__] hands to [generate]; all four are
    attributes of the config, so [config.update] consumes them all and
    returns no unused argument. *)
Record GenerateKwargs := {
  kw_min_new_tokens : Z;
  kw_max_new_tokens : Z;
  kw_temperature : option pynumber;
  kw_top_p : option pynumber;
}.

Definition config_update (config : GenerationConfig) (kw : GenerateKwargs)
  : GenerationConfig :=
  {| min_new_tokens := Some (kw_min_new_tokens kw);
     max_new_tokens := Some (kw_max_new_tokens kw);
     temperature := kw_temperature kw;
     top_p := kw_top_p kw;
     pad_token_id := pad_token_id config;
     bos_token_id := bos_token_id config;
     eos_token_id := eos_token_id config;
     decoder_start_token_id := decoder_start_token_id config;
     use_cache := use_cache config |}.

(** ** Tensors of token ids *)

(** A 2-d [torch.long] tensor of shape [(length rows, width)]. *)
Record Tensor2 := {
  width : nat;
  rows : list (list Z);
}.

(** [t.new_ones((batch_size, 1))] *)
Definition new_ones (batch_size : nat) : Tensor2 :=
  {| width := 1; rows := replicate batch_size [1] |}.

(** [t * c] for a Python int [c] *)
Definition scale (t : Tensor2) (c : Z) : Tensor2 :=
  {| width := width t;
     rows := fmap (fun row : list Z => fmap (fun x => Int64.mul x c) row)
                  (rows t) |}.

(** [torch.cat([t, tokens[:, None]], dim=-1)] *)
Definition cat_column (t : Tensor2) (tokens : list Z) : Tensor2 :=
  {| width := S (width t);
     rows := zip_with (fun r x => r ++ [x]) (rows t) tokens |}.

(** [ids[None, :].repeat(n, 1)] *)
Definition repeat_rows (ids : list Z) (n : nat) : Tensor2 :=
  {| width := length ids; rows := replicate n ids |}.

(** ** Logits processors *)

Inductive LogitsProcessor :=
| MinNewTokensLengthLogitsProcessor
    (prompt_length_to_skip : Z) (min_new_tokens : Z) (eos_token_id : eos_ids)
| TemperatureLogitsWarper (temperature : pynumber)
| TopPLogitsWarper (top_p : pynumber).

(** ** External collaborators *)

(** Model keyword arguments threaded through the decoding loop. *)
Record ModelKwargs (Cache EncoderOutputs : Type) := {
  kw_output_attentions : bool;
  kw_output_hidden_states : bool;
  kw_use_cache : bool;
  kw_encoder_outputs : option EncoderOutputs;
  kw_past_key_values : option Cache;
}.
Arguments kw_output_attentions {_ _} _.
Arguments kw_output_hidden_states {_ _} _.
Arguments kw_use_cache {_ _} _.
Arguments kw_encoder_outputs {_ _} _.
Arguments kw_past_key_values {_ _} _.

(** Keyword arguments of the encoder call (lines 219-222). *)
Record EncoderKwargs := {
  enc_output_attentions : bool;
  enc_output_hidden_states : bool;
  enc_input_ids : Tensor2;
  enc_return_dict : bool;
}.

(** What a forward pass returns: [logits i] is the (positions x vocabulary)
    score matrix of replica [i]; a cache field is present when it is [Some]. *)
Record ModelOutput (float Cache : Type) := {
  logits : nat -> list (list float);
  past_key_values : option Cache;
  mems : option Cache;
  past_buckets_states : option Cache;
}.
Arguments logits {_ _} _ _.
Arguments past_key_values {_ _} _.
Arguments mems {_ _} _.
Arguments past_buckets_states {_ _} _.

(** torch, the tokenizer, the incremental decoder and the pure part of the
    model, taken as given. *)
Record Backend := {
  float : Type;
  Cache : Type;
  EncoderOutputs : Type;
  Inputs : Type;
  Decoder : Type;
  (* torch, one row of a (batch x vocabulary) tensor at a time *)
  softmax : list float -> list float;
  argmax : list float -> Z;
  topk : nat -> list float -> list float * list Z;
  log : float -> float;
  add : float -> float -> float;
  float_literal : Q -> float;       (* a decimal literal, as 1e-7 *)
  float_of_int : Z -> float;        (* float(i) *)
  round : float -> Z -> float;      (* round(x, ndigits) *)
  (* transformers: one logits processor applied to one row of scores *)
  warp : LogitsProcessor -> Tensor2 -> list float -> list float;
  (* transformers: whether [MinNewTokensLengthLogitsProcessor] refuses a
     negative end-of-sequence id (its first releases raise a [ValueError],
     later ones only log a warning) *)
  rejects_negative_eos_ids : bool;
  (* tokenizer *)
  encode : string -> list Z;
  decode : Z -> string;
  (* basaran.decoder.StreamDecoder *)
  new_decoder : Decoder;
  decoder_decode : Decoder -> Z -> string * Decoder;
  decoder_start : Decoder -> Z;
  (* model *)
  generation_config : GenerationConfig;
  is_encoder_decoder : bool;
  prepare_inputs_for_generation :
    Tensor2 -> ModelKwargs Cache EncoderOutputs -> Inputs;
}.

(** The literal [1e-7] of lines 269 and 274. *)
Definition eps (B : Backend) : float B := float_literal B (1 # 10000000).

(** [round(x, 8)] (lines 131-132). *)
Definition round8 (B : Backend) (x : float B) : float B := round B x 8.

Inductive GradMode := GradEnabled | InferenceMode.

(** ** Generators as effect trees *)

Inductive prog (B : Backend) (Y A : Type) : Type :=
| Ret (a : A)
| Raise (e : exn)
| Yield (y : Y) (k : prog B Y A)
| Forward (mode : GradMode) (inputs : Inputs B)
    (k : exn + ModelOutput (float B) (Cache B) -> prog B Y A)
| Encode (mode : GradMode) (kwargs : EncoderKwargs)
    (k : exn + EncoderOutputs B -> prog B Y A)
| Multinomial (probs : list (list (float B))) (k : (nat -> Z) -> prog B Y A)
| Sleep (seconds : Z) (k : prog B Y A)
| OutOfFuel.
Arguments Ret {B Y A} a.
Arguments Raise {B Y A} e.
Arguments Yield {B Y A} y k.
Arguments Forward {B Y A} mode inputs k.
Arguments Encode {B Y A} mode kwargs k.
Arguments Multinomial {B Y A} probs k.
Arguments Sleep {B Y A} seconds k.
Arguments OutOfFuel {B Y A}.

Fixpoint bind {B Y A C} (m : prog B Y A) (f : A -> prog B Y C) : prog B Y C :=
  match m with
  | Ret a => f a
  | Raise e => Raise e
  | Yield y k => Yield y (bind k f)
  | Forward mode inputs k => Forward mode inputs (fun r => bind (k r) f)
  | Encode mode kwargs k => Encode mode kwargs (fun r => bind (k r) f)
  | Multinomial probs k => Multinomial probs (fun r => bind (k r) f)
  | Sleep s k => Sleep s (bind k f)
  | OutOfFuel => OutOfFuel
  end.

#[global] Instance prog_ret {B Y} : MRet (prog B Y) := fun A a => Ret a.
#[global] Instance prog_bind {B Y} : MBind (prog B Y) :=
  fun A C f m => bind m f.

(** [xs[i]] on a Python list or a 1-d tensor. *)
Definition getitem {B Y A} (xs : list A) (i : nat) : prog B Y A :=
  match xs !! i with
  | Some x => Ret x
  | None => Raise IndexError
  end.

(** ** Logits processors (lines 144-174) *)

Section LogitsProcessors.
Context {B : Backend} {Y : Type}.

(** The ids of an [eos_token_id], which is an int or a list of ints. *)
Definition ids_of (eos : eos_ids) : list Z :=
  match eos with
  | EosInt e => [e]
  | EosList ids => ids
  end.

(** The constructors of transformers check their arguments.
    [MinNewTokensLengthLogitsProcessor] wants two non-negative ints and,
    in its first releases, non-negative end-of-sequence ids. *)
Definition new_MinNewTokensLengthLogitsProcessor
    (prompt_length_to_skip min_new_tokens : Z) (eos_token_id : eos_ids)
  : prog B Y LogitsProcessor :=
  if (prompt_length_to_skip <? 0) || (min_new_tokens <? 0)
  then Raise ValueError
  else if rejects_negative_eos_ids B
          && existsb (fun i => i <? 0) (ids_of eos_token_id)
  then Raise ValueError
  else Ret (MinNewTokensLengthLogitsProcessor
              prompt_length_to_skip min_new_tokens eos_token_id).

(** [TemperatureLogitsWarper] wants a strictly positive float: an int is
    refused. *)
Definition new_TemperatureLogitsWarper (temperature : pynumber)
  : prog B Y LogitsProcessor :=
  if is_float temperature && gt_zero temperature
  then Ret (TemperatureLogitsWarper temperature)
  else Raise ValueError.

(** [TopPLogitsWarper] converts its argument to a float and wants it in
    [0, 1]. *)
Definition new_TopPLogitsWarper (top_p : pynumber)
  : prog B Y LogitsProcessor :=
  let top_p := to_float top_p in
  if lt_zero top_p || gt_one top_p
  then Raise ValueError
  else Ret (TopPLogitsWarper top_p).

Definition logits_processor (config : GenerationConfig) (input_length : Z)
  : prog B Y (list LogitsProcessor) :=
  let processor := [] in
  processor ←
    match min_new_tokens config, eos_token_id config with
    | Some m, Some eos =>
        if 0 <? m
        then p ← new_MinNewTokensLengthLogitsProcessor input_length m eos;
             mret (processor ++ [p])
        else mret processor
    | _, _ => mret processor
    end;
  processor ←
    match temperature config with
    | Some t =>
        if gt_zero t && ne_one t
        then p ← new_TemperatureLogitsWarper t; mret (processor ++ [p])
        else mret processor
    | None => mret processor
    end;
  processor ←
    match top_p config with
    | Some p =>
        if gt_zero p && lt_one p
        then p ← new_TopPLogitsWarper p; mret (processor ++ [p])
        else mret processor
    | None => mret processor
    end;
  mret processor.
End LogitsProcessors.

(** The world a generator runs in answers model calls and random draws. *)
Record World (B : Backend) (W : Type) := {
  model_forward :
    GradMode -> Inputs B -> W -> (exn + ModelOutput (float B) (Cache B)) * W;
  encoder_forward :
    GradMode -> EncoderKwargs -> W -> (exn + EncoderOutputs B) * W;
  multinomial : list (list (float B)) -> W -> (nat -> Z) * W;
}.
Arguments model_forward {B W} _ _ _ _.
Arguments encoder_forward {B W} _ _ _ _.
Arguments multinomial {B W} _ _ _.

Inductive event (B : Backend) (Y : Type) :=
| EvYield (y : Y)
| EvForward (mode : GradMode) (inputs : Inputs B)
| EvEncode (mode : GradMode) (kwargs : EncoderKwargs)
| EvMultinomial (probs : list (list (float B)))
| EvSleep (seconds : Z).
Arguments EvYield {B Y} y.
Arguments EvForward {B Y} mode inputs.
Arguments EvEncode {B Y} mode kwargs.
Arguments EvMultinomial {B Y} probs.
Arguments EvSleep {B Y} seconds.

Inductive outcome (A : Type) :=
| Returned (a : A)
| Raised (e : exn)
| Exhausted.
Arguments Returned {A} a.
Arguments Raised {A} e.
Arguments Exhausted {A}.

Record Run (B : Backend) (Y A W : Type) := {
  events : list (event B Y);
  result : outcome A;
  final : W;
}.
Arguments events {B Y A W} _.
Arguments result {B Y A W} _.
Arguments final {B Y A W} _.

Definition emit {B Y A W} (e : event B Y) (r : Run B Y A W) : Run B Y A W :=
  {| events := e :: events r; result := result r; final := final r |}.

Fixpoint run {B Y A W} (h : World B W) (g : prog B Y A) (w : W)
  : Run B Y A W :=
  match g with
  | Ret a => {| events := []; result := Returned a; final := w |}
  | Raise e => {| events := []; result := Raised e; final := w |}
  | Yield y k => emit (EvYield y) (run h k w)
  | Forward mode inputs k =>
      let '(r, w') := model_forward h mode inputs w in
      emit (EvForward mode inputs) (run h (k r) w')
  | Encode mode kwargs k =>
      let '(r, w') := encoder_forward h mode kwargs w in
      emit (EvEncode mode kwargs) (run h (k r) w')
  | Multinomial probs k =>
      let '(r, w') := multinomial h probs w in
      emit (EvMultinomial probs) (run h (k r) w')
  | Sleep s k => emit (EvSleep s) (run h k w)
  | OutOfFuel => {| events := []; result := Exhausted; final := w |}
  end.

(** The items a run yielded to its consumer, in order. *)
Definition yielded {B Y} (evs : list (event B Y)) : list Y :=
  omap (fun e => match e with EvYield y => Some y | _ => None end) evs.

(** The forward passes (of the model or of its encoder) a run made. *)
Definition is_invocation {B Y} (e : event B Y) : bool :=
  match e with
  | EvForward _ _ | EvEncode _ _ => true
  | _ => false
  end.

(** ** Resilient inference (lines 176-182) *)

Section Infer.
Context {B : Backend} {Y T : Type}.

(** [tenacity.retry(stop=stop_after_attempt(n), wait=wait_fixed(s))]:
    call again after a failure, sleeping [s] in between, until attempt
    number [n] has failed; then raise [RetryError] from the last failure. *)
Fixpoint retry_call {A} (attempts_left : nat) (wait : Z)
    (call : forall A, (exn + T -> prog B Y A) -> prog B Y A)
    (k : T -> prog B Y A) : prog B Y A :=
  call A (fun r =>
    match r with
    | inr v => k v
    | inl e =>
        match attempts_left with
        | O => Raise (RetryError e)
        | S n => Sleep wait (retry_call n wait call k)
        end
    end).

Definition retry (stop_after_attempt : nat) (wait_fixed : Z)
    (call : forall A, (exn + T -> prog B Y A) -> prog B Y A) : prog B Y T :=
  retry_call (pred stop_after_attempt) wait_fixed call Ret.

(** [infer]: the body runs [model_fn] under [torch.inference_mode()]. *)
Definition infer
    (model_fn : GradMode -> forall A, (exn + T -> prog B Y A) -> prog B Y A)
  : prog B Y T :=
  retry 5 1 (model_fn InferenceMode).
End Infer.

(** [for x in xs: body], threading the loop-carried state. *)
Fixpoint for_each {B Y X S} (xs : list X) (body : X -> S -> prog B Y S) (s : S)
  : prog B Y S :=
  match xs with
  | [] => Ret s
  | x :: xs => s' ← body x s; for_each xs body s'
  end.

(** [for y in g: body], where [g] is a generator: the generator runs up to
    its next [yield], then the body runs, then the generator is resumed. *)
Fixpoint for_in {B X Y S} (g : prog B X unit) (body : X -> S -> prog B Y S)
    (s : S) : prog B Y S :=
  match g with
  | Ret _ => Ret s
  | Raise e => Raise e
  | Yield x k => s' ← body x s; for_in k body s'
  | Forward mode inputs k => Forward mode inputs (fun r => for_in (k r) body s)
  | Encode mode kwargs k => Encode mode kwargs (fun r => for_in (k r) body s)
  | Multinomial probs k => Multinomial probs (fun r => for_in (k r) body s)
  | Sleep secs k => Sleep secs (for_in k body s)
  | OutOfFuel => OutOfFuel
  end.

(** ** The batched auto-regressive generator (lines 184-306) *)

(** What [generate] yields at every decoding step. *)
Record StepResult (B : Backend) := {
  tokens : list Z;
  token_logprobs : list (float B);
  top_tokens : list (list Z);
  top_logprobs : list (list (float B));
  status : list Z;
}.
Arguments tokens {B} _.
Arguments token_logprobs {B} _.
Arguments top_tokens {B} _.
Arguments top_logprobs {B} _.
Arguments status {B} _.

(** The variables the [while True] loop carries from one step to the next. *)
Record LoopState (B : Backend) := {
  ls_input_ids : Tensor2;
  ls_kwargs : ModelKwargs (Cache B) (EncoderOutputs B);
  ls_unfinished : list Z;
}.
Arguments ls_input_ids {B} _.
Arguments ls_kwargs {B} _.
Arguments ls_unfinished {B} _.

Section Generate.
Context {B : Backend}.
#[local] Abbreviation gen A := (prog B (StepResult B) A).
#[local] Abbreviation Kwargs := (ModelKwargs (Cache B) (EncoderOutputs B)).

(** Lines 202-204: an int [eos_token_id] becomes a one-element list. *)
Definition eos_list (eos : option eos_ids) : option (list Z) :=
  match eos with
  | Some (EosInt e) => Some [e]
  | Some (EosList ids) => Some ids
  | None => None
  end.

(** Lines 205-206. *)
Definition default_pad (pad_token_id : option Z) (eos_token_id : option (list Z))
  : gen (option Z) :=
  match pad_token_id, eos_token_id with
  | None, Some ids => e ← getitem ids 0; mret (Some e)
  | _, _ => mret pad_token_id
  end.

(** Lines 208-213: generate from eos if no input is specified. *)
Definition seed_empty_input (batch_size : nat) (eos_token_id : option (list Z))
    (input_ids : Tensor2) (input_length : Z) : gen (Tensor2 * Z) :=
  if (width input_ids =? 0)%nat then
    let input_ids := new_ones batch_size in
    input_ids ← match eos_token_id with
                | Some ids => e ← getitem ids 0; mret (scale input_ids e)
                | None => mret input_ids
                end;
    mret (input_ids, 1)
  else mret (input_ids, input_length).

(** Lines 215-232: inputs of an encoder-decoder model. *)
Definition prepare_encoder_decoder (config : GenerationConfig)
    (batch_size : nat) (bos_token_id : option Z)
    (input_ids : Tensor2) (input_length : Z) (kwargs : Kwargs)
  : gen (Tensor2 * Z * Kwargs) :=
  if is_encoder_decoder B then
    let encoder_kwargs :=
      {| enc_output_attentions := kw_output_attentions kwargs;
         enc_output_hidden_states := kw_output_hidden_states kwargs;
         enc_input_ids := input_ids;
         enc_return_dict := true |} in
    encoder_outputs ← infer (fun mode A k => Encode mode encoder_kwargs k);
    let kwargs :=
      {| kw_output_attentions := kw_output_attentions kwargs;
         kw_output_hidden_states := kw_output_hidden_states kwargs;
         kw_use_cache := kw_use_cache kwargs;
         kw_encoder_outputs := Some encoder_outputs;
         kw_past_key_values := kw_past_key_values kwargs |} in
    let decoder_start_token_id :=
      match decoder_start_token_id config with
      | None => bos_token_id
      | Some d => Some d
      end in
    match decoder_start_token_id with
    | None => Raise TypeError          (* tensor * None *)
    | Some d => mret (scale (new_ones batch_size) d, 1, kwargs)
    end
  else mret (input_ids, input_length, kwargs).

(** Line 254, [outputs.logits[:, -1, :]], then line 256, the processors in
    list order, then line 257, the softmax. *)
Definition next_token_probs (processor : list LogitsProcessor)
    (batch_size : nat) (input_ids : Tensor2)
    (outputs : ModelOutput (float B) (Cache B)) : list (list (float B)) :=
  let logits :=
    fmap (fun i => default [] (last (logits outputs i))) (seq 0 batch_size) in
  let logits :=
    fmap (fun scores =>
           foldl (fun scores p => warp B p input_ids scores) scores processor)
        logits in
  fmap (softmax B) logits.

(** Lines 260-262: the condition of the deterministic strategy. *)
Definition greedy (config : GenerationConfig) : bool :=
  match top_p config with Some p => le_zero p | None => false end
  || match temperature config with Some t => le_zero t | None => false end.

(** Lines 259-265. *)
Definition select_tokens (config : GenerationConfig) (batch_size : nat)
    (probs : list (list (float B))) : gen (list Z) :=
  if greedy config then mret (fmap (argmax B) probs)
  else Multinomial probs (fun drawn => Ret (fmap drawn (seq 0 batch_size))).

(** [torch.log(x + 1e-7)] *)
Definition log_eps (p : float B) : float B := log B (add B p (eps B)).

(** Lines 268-269: [torch.gather(probs, 1, tokens)], then the logarithm. *)
Definition gather_row (row : list (float B)) (t : Z) : option (float B) :=
  if 0 <=? t then row !! Z.to_nat t else None.

Definition collect_token_logprobs (probs : list (list (float B)))
    (tokens : list Z) : gen (list (float B)) :=
  match mapM (M:=option) (fun rt => gather_row rt.1 rt.2) (zip probs tokens) with
  | Some ps => mret (fmap log_eps ps)
  | None => Raise RuntimeError
  end.

(** Lines 273-274.  [probs.topk(k)] raises when [k] is negative or exceeds
    the size of the vocabulary; an empty batch has no row to tell that size
    from. *)
Definition collect_top_logprobs (logprobs : Z) (probs : list (list (float B)))
  : gen (list (list (float B)) * list (list Z)) :=
  if (logprobs <? 0)
     || existsb (fun row => Z.of_nat (length row) <? logprobs) probs
  then Raise RuntimeError
  else
    let top := fmap (topk B (Z.to_nat logprobs)) probs in
    mret (fmap (fun vt => fmap log_eps vt.1) top, fmap snd top).

(** Lines 276-278: finished sequences get the padding as next token. *)
Definition pad_finished (pad_token_id : option Z) (tokens unfinished : list Z)
  : list Z :=
  match pad_token_id with
  | Some pad =>
      zip_with (fun t u =>
                  Int64.add (Int64.mul t u) (Int64.mul pad (Int64.sub 1 u)))
               tokens unfinished
  | None => tokens
  end.

(** Lines 283-289: adopt the cache the model returned. *)
Definition adopt_cache (kwargs : Kwargs)
    (outputs : ModelOutput (float B) (Cache B)) : Kwargs :=
  let with_cache c :=
    {| kw_output_attentions := kw_output_attentions kwargs;
       kw_output_hidden_states := kw_output_hidden_states kwargs;
       kw_use_cache := kw_use_cache kwargs;
       kw_encoder_outputs := kw_encoder_outputs kwargs;
       kw_past_key_values := Some c |} in
  match past_key_values outputs, mems outputs, past_buckets_states outputs with
  | Some c, _, _ => with_cache c
  | None, Some c, _ => with_cache c
  | None, None, Some c => with_cache c
  | None, None, None => kwargs
  end.

(** Line 293: [sum(tokens != i for i in eos_token_id)], for one token. *)
Definition not_eos (eos_token_id : list Z) (t : Z) : Z :=
  foldl (fun acc i => Int64.add acc (if t =? i then 0 else 1))
        0 eos_token_id.

(** Lines 291-294.  The sum over no id at all is the int [0], which has no
    method [long]. *)
Definition mark_finished (eos_token_id : option (list Z))
    (tokens unfinished : list Z) : gen (list Z) :=
  match eos_token_id with
  | None => mret unfinished
  | Some [] => Raise AttributeError
  | Some ids =>
      mret (zip_with (fun u t => Int64.mul u (not_eos ids t)) unfinished tokens)
  end.

(** Lines 296-299. *)
Definition step_status (config : GenerationConfig) (input_ids : Tensor2)
    (input_length : Z) (unfinished : list Z) : gen (list Z) :=
  match max_new_tokens config with
  | None => Raise TypeError            (* int >= None *)
  | Some m =>
      mret (if Z.of_nat (width input_ids) - input_length >=? m
            then fmap (fun s => Int64.sub 0 s) unfinished
            else unfinished)
  end.

(** [t.max()] of a 1-d tensor; an empty one has no maximum. *)
Definition tensor_max (t : list Z) : option Z :=
  match t with
  | [] => None
  | x :: t => Some (foldl Z.max x t)
  end.

(** Lines 241-306, one iteration per unit of fuel. *)
Fixpoint decode_loop (fuel : nat) (config : GenerationConfig)
    (batch_size : nat) (logprobs : Z) (pad_token_id : option Z)
    (eos_token_id : option (list Z)) (input_length : Z)
    (processor : list LogitsProcessor) (st : LoopState B) : gen unit :=
  match fuel with
  | O => OutOfFuel
  | S fuel =>
      let input_ids := ls_input_ids st in
      let kwargs := ls_kwargs st in
      let unfinished := ls_unfinished st in
      let inputs := prepare_inputs_for_generation B input_ids kwargs in
      outputs ← infer (fun mode A k => Forward mode inputs k);
      let probs := next_token_probs processor batch_size input_ids outputs in
      tokens ← select_tokens config batch_size probs;
      token_logprobs ← collect_token_logprobs probs tokens;
      '(top_logprobs, top_tokens) ← collect_top_logprobs logprobs probs;
      let tokens := pad_finished pad_token_id tokens unfinished in
      let input_ids := cat_column input_ids tokens in
      let kwargs := adopt_cache kwargs outputs in
      unfinished ← mark_finished eos_token_id tokens unfinished;
      status ← step_status config input_ids input_length unfinished;
      Yield {| tokens := tokens;
               token_logprobs := token_logprobs;
               top_tokens := top_tokens;
               top_logprobs := top_logprobs;
               status := status |}
        match tensor_max status with
        | None => Raise RuntimeError
        | Some m =>
            if m <=? 0 then Ret tt
            else decode_loop fuel config batch_size logprobs pad_token_id
                   eos_token_id input_length processor
                   {| ls_input_ids := input_ids;
                      ls_kwargs := kwargs;
                      ls_unfinished := unfinished |}
        end
  end.

(** [generate]; [fuel] bounds the number of iterations of [while True]. *)
Definition generate (fuel : nat) (input_ids : Tensor2) (logprobs : Z)
    (kw : GenerateKwargs) : gen unit :=
  let batch_size := length (rows input_ids) in
  let input_length := Z.of_nat (width input_ids) in
  let config := config_update (generation_config B) kw in
  let kwargs : Kwargs :=
    {| kw_output_attentions := false;
       kw_output_hidden_states := false;
       kw_use_cache := use_cache config;
       kw_encoder_outputs := None;
       kw_past_key_values := None |} in
  let bos_token_id := bos_token_id config in
  let eos_token_id := eos_list (eos_token_id config) in
  pad_token_id ← default_pad (pad_token_id config) eos_token_id;
  '(input_ids, input_length) ←
    seed_empty_input batch_size eos_token_id input_ids input_length;
  '(input_ids, input_length, kwargs) ←
    prepare_encoder_decoder config batch_size bos_token_id
      input_ids input_length kwargs;
  processor ← logits_processor config input_length;
  let unfinished := replicate batch_size 1 in
  decode_loop fuel config batch_size logprobs pad_token_id eos_token_id
    input_length processor
    {| ls_input_ids := input_ids;
       ls_kwargs := kwargs;
       ls_unfinished := unfinished |}.
End Generate.

(** ** The stream orchestrator (lines 31-142) *)

Inductive FinishReason := stop | length_reached.

(** The string a finish reason stands for. *)
Definition finish_reason_name (r : FinishReason) : string :=
  match r with
  | stop => "stop"
  | length_reached => "length"
  end.

(** What [sample] returns (lines 138-142). *)
Record Samples (B : Backend) := {
  s_token : string;
  s_token_logprob : float B;
  s_top_logprobs : gmap string (float B);
}.
Arguments s_token {B} _.
Arguments s_token_logprob {B} _.
Arguments s_top_logprobs {B} _.

(** Modelled from the spec: [basaran.choice.map_choice] is not among the
    sources; the response unit it builds is taken to be the record of the
    arguments it is called with (text, replica index, text offset, finish
    reason and the optional diagnostics). *)
Record Choice (B : Backend) := {
  c_text : string;
  c_index : Z;
  c_text_offset : Z;
  c_finish_reason : option FinishReason;
  c_samples : option (Samples B);
}.
Arguments c_text {B} _.
Arguments c_index {B} _.
Arguments c_text_offset {B} _.
Arguments c_finish_reason {B} _.
Arguments c_samples {B} _.

Definition map_choice {B} (text : string) (index : Z) (text_offset : Z)
    (finish_reason : option FinishReason) (samples : option (Samples B))
  : Choice B :=
  {| c_text := text; c_index := index; c_text_offset := text_offset;
     c_finish_reason := finish_reason; c_samples := samples |}.

(** The prompt argument: a [str], a tensor of some shape, or anything else. *)
Inductive Prompt :=
| PromptStr (s : string)
| PromptTensor (shape : list nat) (data : list Z)
| PromptOther.

Record CallArgs := {
  prompt : Prompt;
  min_tokens : Z;
  max_tokens : Z;
  arg_temperature : option pynumber;
  arg_top_p : option pynumber;
  n : Z;
  logprobs : Z;
  echo : bool;
}.

(** The locals of [__call__] that its loops update. *)
Record CallState (B : Backend) := {
  finish_reasons : list (option FinishReason);
  decoders : list (Decoder B);
}.
Arguments finish_reasons {B} _.
Arguments decoders {B} _.

(** [dict(pairs)]: a later pair overwrites an earlier one with the same key. *)
Definition dict {V} (pairs : list (string * V)) : gmap string V :=
  foldl (fun d kv => <[kv.1 := kv.2]> d) ∅ pairs.

Section Orchestrator.
Context {B : Backend}.
#[local] Abbreviation stream A := (prog B (Choice B) A).

(** [tokenize] (lines 120-123). *)
Definition tokenize (text : string) : list Z := encode B text.

(** [sample] (lines 125-142). *)
Definition sample (token : Z) (token_logprob : float B)
    (top_tokens : list Z) (top_logprobs : list (float B)) : Samples B :=
  let token := decode B token in
  let top_tokens := fmap (decode B) top_tokens in
  let token_logprob := round8 B token_logprob in
  let top_logprobs := fmap (round8 B) top_logprobs in
  let top_logprobs := dict (zip top_tokens top_logprobs) in
  let top_logprobs := <[token := token_logprob]> top_logprobs in
  {| s_token := token;
     s_token_logprob := token_logprob;
     s_top_logprobs := top_logprobs |}.

(** [decoders[i].decode(token)] and [decoders[i].start]. *)
Definition decode_with (i : nat) (token : Z) (decoders : list (Decoder B))
  : stream (string * Z * list (Decoder B)) :=
  d ← getitem decoders i;
  let '(text, d) := decoder_decode B d token in
  mret (text, decoder_start B d, <[i := d]> decoders).

(** Lines 64-71: echo prompt tokens if required. *)
Definition echo_token (n : nat) (logprobs : Z) (echo : bool) (token : Z)
    (decoders : list (Decoder B)) : stream (list (Decoder B)) :=
  let samples :=
    if 0 <? logprobs then Some (sample token (float_of_int B 0) [] [])
    else None in
  for_each (seq 0 n)
    (fun i decoders =>
       '(text, offset, decoders) ← decode_with i token decoders;
       if echo
       then Yield (map_choice text (Z.of_nat i) offset None samples)
                  (Ret decoders)
       else mret decoders)
    decoders.

(** Lines 89-95: check and update the finish status of sequence [i];
    [None] stands for the [continue]. *)
Definition update_finish_reason (status : list Z) (i : nat)
    (finish_reasons : list (option FinishReason))
  : stream (option (list (option FinishReason))) :=
  r ← getitem finish_reasons i;
  match r with
  | Some _ => mret None
  | None =>
      s ← getitem status i;
      mret (Some (if s =? 0 then <[i := Some stop]> finish_reasons
                  else if s =? -1 then <[i := Some length_reached]> finish_reasons
                  else finish_reasons))
  end.

(** Lines 88-118: the body of the loop over replicas. *)
Definition emit_choice (logprobs : Z) (res : StepResult B) (i : nat)
    (st : CallState B) : stream (CallState B) :=
  updated ← update_finish_reason (status res) i (finish_reasons st);
  match updated with
  | None => mret st
  | Some finish_reasons =>
      samples ←
        (if 0 <? logprobs then
           token ← getitem (tokens res) i;
           token_logprob ← getitem (token_logprobs res) i;
           top_tokens ← getitem (top_tokens res) i;
           top_logprobs ← getitem (top_logprobs res) i;
           mret (Some (sample token token_logprob top_tokens top_logprobs))
         else mret None);
      token ← getitem (tokens res) i;
      '(text, offset, decoders) ← decode_with i token (decoders st);
      finish_reason ← getitem finish_reasons i;
      Yield (map_choice text (Z.of_nat i) offset finish_reason samples)
            (Ret {| finish_reasons := finish_reasons; decoders := decoders |})
  end.

(** Lines 88-118: what one step of [generate] makes [__call__] do. *)
Definition emit_step (n : nat) (logprobs : Z) (res : StepResult B)
    (st : CallState B) : stream (CallState B) :=
  for_each (seq 0 n) (emit_choice logprobs res) st.

(** Lines 73-118: generate completion tokens. *)
Definition complete (fuel : nat) (n : nat) (input_ids : list Z)
    (logprobs : Z) (kw : GenerateKwargs) (st : CallState B)
  : stream (CallState B) :=
  for_in (generate fuel (repeat_rows input_ids n) logprobs kw)
         (emit_step n logprobs) st.

(** Lines 56-62: no finish reason yet, and a fresh decoder per sequence. *)
Definition new_call_state (n : nat) : CallState B :=
  {| finish_reasons := replicate n None;
     decoders := replicate n (new_decoder B) |}.

(** Lines 50-118, once the prompt is a sequence of token ids. *)
Definition stream_tokens (fuel : nat) (args : CallArgs) (input_ids : list Z)
  : stream unit :=
  let min_tokens := Z.max (min_tokens args) 0 in
  let max_tokens := Z.max (max_tokens args) 1 in
  let n := Z.to_nat (Z.max (n args) 1) in
  let logprobs := Z.max (logprobs args) 0 in
  let st := new_call_state n in
  decoders ← for_each input_ids (echo_token n logprobs (echo args))
               (decoders st);
  _ ← complete fuel n input_ids logprobs
        {| kw_min_new_tokens := min_tokens;
           kw_max_new_tokens := max_tokens;
           kw_temperature := arg_temperature args;
           kw_top_p := arg_top_p args |}
        {| finish_reasons := finish_reasons st; decoders := decoders |};
  mret tt.

(** The body of [__call__] (lines 43-118). *)
Definition call_body (fuel : nat) (args : CallArgs) : stream unit :=
  match prompt args with
  | PromptStr s => stream_tokens fuel args (tokenize s)
  | PromptTensor [_] data => stream_tokens fuel args data
  | PromptTensor _ _ | PromptOther =>
      Raise TypeError    (* "prompt must be a string or a 1-d tensor" *)
  end.

(** [__call__] has [yield] in its body, so it is a generator function:
    calling it runs none of the body and returns the generator. *)
Definition StreamModel_call (fuel : nat) (args : CallArgs)
  : exn + stream unit :=
  inr (call_body fuel args).
End Orchestrator.

(** ** Pulling from a generator *)

(** What [next(g)] gives: an item and the suspended generator, the end of the
    stream, or an exception raised out of [next]. *)
Inductive pulled (B : Backend) (Y : Type) :=
| Item (y : Y) (rest : prog B Y unit)
| StopIteration
| Error (e : exn)
| Stuck.
Arguments Item {B Y} y rest.
Arguments StopIteration {B Y}.
Arguments Error {B Y} e.
Arguments Stuck {B Y}.

(** [next(g)]: run the generator up to its next suspension point; the events
    are the model calls, draws and sleeps made on the way. *)
Fixpoint next {B Y W} (h : World B W) (g : prog B Y unit) (w : W)
  : list (event B Y) * pulled B Y * W :=
  match g with
  | Ret _ => ([], StopIteration, w)
  | Raise e => ([], Error e, w)
  | Yield y k => ([], Item y k, w)
  | Forward mode inputs k =>
      let '(r, w) := model_forward h mode inputs w in
      let '(evs, p, w) := next h (k r) w in
      (EvForward mode inputs :: evs, p, w)
  | Encode mode kwargs k =>
      let '(r, w) := encoder_forward h mode kwargs w in
      let '(evs, p, w) := next h (k r) w in
      (EvEncode mode kwargs :: evs, p, w)
  | Multinomial probs k =>
      let '(r, w) := multinomial h probs w in
      let '(evs, p, w) := next h (k r) w in
      (EvMultinomial probs :: evs, p, w)
  | Sleep secs k =>
      let '(evs, p, w) := next h k w in
      (EvSleep secs :: evs, p, w)
  | OutOfFuel => ([], Stuck, w)
  end.

(** A world that answers the successive forward passes of the model from a
    script; once the script is over, every call fails. *)
Definition scripted (B : Backend)
  : World B (list (exn + ModelOutput (float B) (Cache B))) :=
  {| model_forward := fun _ _ script =>
       match script with
       | r :: script => (r, script)
       | [] => (inl RuntimeError, [])
       end;
     encoder_forward := fun _ _ script => (inl RuntimeError, script);
     multinomial := fun _ script => (fun _ => 0, script) |}.

(** The same world with another source of randomness. *)
Definition with_multinomial {B W} (h : World B W)
    (draw : list (list (float B)) -> W -> (nat -> Z) * W) : World B W :=
  {| model_forward := model_forward h;
     encoder_forward := encoder_forward h;
     multinomial := draw |}.

(** ** A small concrete backend, to run the definitions on *)

Module Toy.
(** Scores are integers; the softmax, the logarithm and the rounding are
    the identity, and no processor changes a score. *)
Fixpoint argmax_from (best_i best i : Z) (row : list Z) : Z :=
  match row with
  | [] => best_i
  | x :: row =>
      if best <? x then argmax_from i x (i + 1) row
      else argmax_from best_i best (i + 1) row
  end.

Definition first_max (row : list Z) : Z :=
  match row with
  | [] => 0
  | x :: row => argmax_from 0 x 1 row
  end.

Fixpoint rank_insert (x : Z * Z) (ranked : list (Z * Z)) : list (Z * Z) :=
  match ranked with
  | [] => [x]
  | y :: ranked' =>
      if y.1 <? x.1 then x :: ranked else y :: rank_insert x ranked'
  end.

Definition ranked_topk (k : nat) (row : list Z) : list Z * list Z :=
  let ranked :=
    foldr rank_insert [] (zip row (fmap Z.of_nat (seq 0 (length row)))) in
  (fmap fst (take k ranked), fmap snd (take k ranked)).

(** The text of a token is one character, its id modulo 128. *)
Definition char_decode (t : Z) : string :=
  String (Ascii.ascii_of_nat (Z.to_nat (t mod 128))) EmptyString.

Fixpoint char_encode (s : string) : list Z :=
  match s with
  | EmptyString => []
  | String a s => Z.of_nat (Ascii.nat_of_ascii a) :: char_encode s
  end.

Definition backend (config : GenerationConfig) (encoder_decoder : bool)
  : Backend :=
  {| float := Z;
     Cache := unit;
     EncoderOutputs := unit;
     Inputs := Tensor2;
     Decoder := list Z;
     softmax := fun row => row;
     argmax := first_max;
     topk := ranked_topk;
     log := fun x => x;
     add := Z.add;
     float_literal := Qfloor;
     float_of_int := fun i => i;
     round := fun x _ => x;
     warp := fun _ _ row => row;
     rejects_negative_eos_ids := true;
     encode := char_encode;
     decode := char_decode;
     new_decoder := [];
     decoder_decode := fun d t => (char_decode t, d ++ [t]);
     decoder_start := fun d => Z.of_nat (length d);
     generation_config := config;
     is_encoder_decoder := encoder_decoder;
     prepare_inputs_for_generation := fun input_ids _ => input_ids |}.

(** A world whose state counts the model calls made so far: call number
    [c] fails when [fails c]; otherwise replica [i] gets the one-position
    scores [predict input_ids i]; a draw gives [drawn i]. *)
Definition world (config : GenerationConfig) (encoder_decoder : bool)
    (predict : Tensor2 -> nat -> list Z) (fails : nat -> bool)
    (drawn : nat -> Z) : World (backend config encoder_decoder) nat :=
  Build_World (backend config encoder_decoder) nat
    (fun _ (input_ids : Tensor2) c =>
       (if fails c then inl (ModelError (Z.of_nat c))
        else inr {| logits := fun i => [predict input_ids i];
                    past_key_values := None;
                    mems := None;
                    past_buckets_states := None |},
        S c))
    (fun _ _ c =>
       (if fails c then inl (ModelError (Z.of_nat c)) else inr tt, S c))
    (fun _ c => (drawn, c)).

(** Scores that make [t] the most likely token. *)
Definition one_hot (t : nat) : list Z := replicate t 0 ++ [1].

Definition config (eos : option eos_ids) (pad : option Z) : GenerationConfig :=
  {| min_new_tokens := None;
     max_new_tokens := None;
     temperature := None;
     top_p := None;
     pad_token_id := pad;
     bos_token_id := None;
     eos_token_id := eos;
     decoder_start_token_id := None;
     use_cache := true |}.

Definition greedy_kwargs (max_new : Z) : GenerateKwargs :=
  {| kw_min_new_tokens := 0;
     kw_max_new_tokens := max_new;
     kw_temperature := Some (Finite 0);
     kw_top_p := Some (Finite 1) |}.
End Toy.

(** ** Notions the properties are stated with *)

(** A run of [m ≫= f] is the run of [m] followed, when [m] returns, by the
    run of the continuation. *)
Definition then_run {B Y W A C} (h : World B W) (r : Run B Y A W)
    (f : A -> prog B Y C) : Run B Y C W :=
  match result r with
  | Returned a =>
      let r2 := run h (f a) (final r) in
      {| events := events r ++ events r2;
         result := result r2;
         final := final r2 |}
  | Raised e => {| events := events r; result := Raised e; final := final r |}
  | Exhausted => {| events := events r; result := Exhausted; final := final r |}
  end.

(** The position of a processor in the pipeline. *)
Definition stage (p : LogitsProcessor) : nat :=
  match p with
  | MinNewTokensLengthLogitsProcessor _ _ _ => 0
  | TemperatureLogitsWarper _ => 1
  | TopPLogitsWarper _ => 2
  end.

(** The events of [k] attempts of a forward pass in inference mode, with a
    sleep of one second between two attempts. *)
Fixpoint attempt_events {B Y} (inputs : Inputs B) (k : nat) : list (event B Y) :=
  match k with
  | O => []
  | S O => [EvForward InferenceMode inputs]
  | S k => EvForward InferenceMode inputs :: EvSleep 1 :: attempt_events inputs k
  end.

(** *** Contracts on effect trees

    A contract constrains what a generator may do from an abstract state:
    how the state moves at each [yield], what holds when the generator
    returns, raises or runs out of fuel, and whether it may draw at random. *)
Record Contract (S Y A : Type) := {
  may_draw : Prop;
  on_yield : S -> Y -> S -> Prop;
  on_return : S -> A -> Prop;
  on_raise : S -> exn -> Prop;
  on_exhaust : S -> Prop;
}.
Arguments may_draw {S Y A} _.
Arguments on_yield {S Y A} _ _ _ _.
Arguments on_return {S Y A} _ _ _.
Arguments on_raise {S Y A} _ _ _.
Arguments on_exhaust {S Y A} _ _.

(** The same contract with another condition at the return. *)
Definition returning {S Y A C} (c : Contract S Y C) (Q : S -> A -> Prop)
  : Contract S Y A :=
  {| may_draw := may_draw c;
     on_yield := on_yield c;
     on_return := Q;
     on_raise := on_raise c;
     on_exhaust := on_exhaust c |}.

(** [traced c s g]: whatever the world answers, [g] started in the abstract
    state [s] keeps to the contract [c]. *)
Inductive traced {B : Backend} {S Y A : Type} (c : Contract S Y A)
  : S -> prog B Y A -> Prop :=
| traced_ret s a : on_return c s a -> traced c s (Ret a)
| traced_raise s e : on_raise c s e -> traced c s (Raise e)
| traced_yield s y k s' :
    on_yield c s y s' -> traced c s' k -> traced c s (Yield y k)
| traced_forward s mode inputs k :
    (forall r, traced c s (k r)) -> traced c s (Forward mode inputs k)
| traced_encode s mode kwargs k :
    (forall r, traced c s (k r)) -> traced c s (Encode mode kwargs k)
| traced_multinomial s probs k :
    may_draw c -> (forall r, traced c s (k r)) ->
    traced c s (Multinomial probs k)
| traced_sleep s secs k : traced c s k -> traced c s (Sleep secs k)
| traced_out_of_fuel s : on_exhaust c s -> traced c s OutOfFuel.

(** [chain P s ys s']: the items [ys], yielded in this order, move the
    abstract state from [s] to [s'] by steps of [P]. *)
Fixpoint chain {S Y} (P : S -> Y -> S -> Prop) (s : S) (ys : list Y) (s' : S)
  : Prop :=
  match ys with
  | [] => s' = s
  | y :: ys => exists s1, P s y s1 /\ chain P s1 ys s'
  end.

(** What a contract says of the end of a run. *)
Definition at_end {S Y A} (c : Contract S Y A) (s : S) (o : outcome A) : Prop :=
  match o with
  | Returned a => on_return c s a
  | Raised e => on_raise c s e
  | Exhausted => on_exhaust c s
  end.

(** *** The contract of [generate] *)

(** What the status logic of the decoding loop depends on: the [unfinished]
    tensor, the number of tokens generated so far, the status yielded last
    (if any) and the iterations left. *)
Record Progress := {
  p_unfinished : list Z;
  p_new_tokens : Z;
  p_last_status : option (list Z);
  p_fuel : nat;
}.

(** The loop was entered, or re-entered because the last status had a
    positive maximum. *)
Definition may_continue (s : Progress) : Prop :=
  match p_last_status s with
  | None => True
  | Some st => exists m, tensor_max st = Some m /\ 0 < m
  end.

(** The padding id the loop uses (lines 200-206). *)
Definition padding_id (config : GenerationConfig) : option Z :=
  match pad_token_id config, eos_list (eos_token_id config) with
  | None, Some (e :: _) => Some e
  | pad, _ => pad
  end.

(** One step of the loop, seen from its caller: [res] is what the step
    yields and [s'] the progress after it. *)
Definition decode_step {B : Backend} (config : GenerationConfig)
    (batch_size : nat) (pad : option Z) (eos : option (list Z))
    (s : Progress) (res : StepResult B) (s' : Progress) : Prop :=
  length (p_unfinished s) = batch_size
  /\ (exists sampled,
        length sampled = batch_size
        /\ tokens res = pad_finished pad sampled (p_unfinished s))
  /\ mark_finished (B:=B) eos (tokens res) (p_unfinished s)
     = Ret (p_unfinished s')
  /\ p_new_tokens s' = p_new_tokens s + 1
  /\ (exists m,
        max_new_tokens config = Some m
        /\ status res = if p_new_tokens s' >=? m
                        then (fun u => Int64.sub 0 u) <$> p_unfinished s'
                        else p_unfinished s')
  /\ length (tokens res) = batch_size
  /\ length (token_logprobs res) = batch_size
  /\ length (top_tokens res) = batch_size
  /\ length (top_logprobs res) = batch_size
  /\ length (status res) = batch_size
  /\ p_last_status s' = Some (status res)
  /\ p_fuel s = S (p_fuel s')
  /\ may_continue s.

Definition generate_contract {B : Backend} (config : GenerationConfig)
    (batch_size : nat) (pad : option Z) (eos : option (list Z))
  : Contract Progress (StepResult B) unit :=
  {| may_draw := greedy config = false;
     on_yield := decode_step config batch_size pad eos;
     on_return := fun s _ =>
       exists st m, p_last_status s = Some st /\ tensor_max st = Some m /\ m <= 0;
     on_raise := fun s _ =>
       may_continue s
       \/ exists st, p_last_status s = Some st /\ tensor_max st = None;
     on_exhaust := fun s => p_fuel s = O /\ may_continue s |}.

(** The progress [generate] starts from. *)
Definition initial_progress (fuel batch_size : nat) : Progress :=
  {| p_unfinished := replicate batch_size 1;
     p_new_tokens := 0;
     p_last_status := None;
     p_fuel := fuel |}.

(** *** Status codes *)

(** Replica [i] has been given the end-of-sequence id [e] in one of [steps]. *)
Definition emitted_eos {B : Backend} (e : Z) (steps : list (StepResult B))
    (i : nat) : bool :=
  existsb (fun res => bool_decide (tokens res !! i = Some e)) steps.

(** With one end-of-sequence id configured, a replica is stopped by it once
    it has been given that id; with none, it never is. *)
Definition stopped_by_eos {B : Backend} (eos : option (list Z))
    (steps : list (StepResult B)) (i : nat) : bool :=
  match eos with
  | Some [e] => emitted_eos e steps i
  | _ => false
  end.

(** The status code of replica [i] at step [k] (counted from 0) of [steps]:
    0 once the replica is stopped by the end-of-sequence id, this step
    included; otherwise -1 when the step is the one that reaches the cap,
    and 1 when it is not. *)
Definition status_code {B : Backend} (eos : option (list Z)) (max_new : Z)
    (steps : list (StepResult B)) (k i : nat) : Z :=
  if stopped_by_eos eos (take (S k) steps) i then 0
  else if max_new <=? Z.of_nat (S k) then -1
  else 1.

(** The status code as the specification words it: a replica that was still
    unfinished at the start of the step that reaches the cap is stopped by
    length, also when that step gives it the end-of-sequence id. *)
Definition specified_status_code {B : Backend} (eos : option (list Z))
    (max_new : Z) (steps : list (StepResult B)) (k i : nat) : Z :=
  if stopped_by_eos eos (take k steps) i then 0
  else if max_new <=? Z.of_nat (S k) then -1
  else if stopped_by_eos eos (take (S k) steps) i then 0
  else 1.

(** At most one end-of-sequence id is configured. *)
Definition at_most_one_eos (eos : option (list Z)) : Prop :=
  eos = None \/ exists e, eos = Some [e].

(** The [unfinished] tensor holds 1 for a replica not yet stopped by the
    end-of-sequence id and 0 for a stopped one, and the count of new tokens
    is the number of steps made. *)
Definition tracks {B : Backend} (eos : option (list Z)) (s : Progress)
    (steps : list (StepResult B)) : Prop :=
  p_new_tokens s = Z.of_nat (length steps)
  /\ forall i u, p_unfinished s !! i = Some u ->
                 u = if stopped_by_eos eos steps i then 0 else 1.

(** The contract that only forbids (or allows) random draws. *)
Definition quiet (D : Prop) (S Y A : Type) : Contract S Y A :=
  {| may_draw := D;
     on_yield := fun _ _ _ => True;
     on_return := fun _ _ => True;
     on_raise := fun _ _ => True;
     on_exhaust := fun _ => True |}.

(** The prompt is a string or a 1-dimensional tensor. *)
Definition str_or_1d_tensor (p : Prompt) : bool :=
  match p with
  | PromptStr _ => true
  | PromptTensor shape _ => (length shape =? 1)%nat
  | PromptOther => false
  end.

(** A call with a prompt that is neither, for the examples. *)
Definition bad_prompt_args : CallArgs :=
  {| prompt := PromptOther;
     min_tokens := 0;
     max_tokens := 16;
     arg_temperature := Some (Finite 1);
     arg_top_p := Some (Finite 1);
     n := 1;
     logprobs := 0;
     echo := false |}.

(** *** Finish reasons *)

(** The finish reason a status code signals: 0 is "stop", -1 is "length",
    anything else signals nothing. *)
Definition reason_of_status (c : Z) : option FinishReason :=
  if c =? 0 then Some stop
  else if c =? -1 then Some length_reached
  else None.

(** From [before] to [after] the array keeps its length and every reason
    that was set. *)
Definition keeps_reasons (before after : list (option FinishReason)) : Prop :=
  length after = length before
  /\ forall i r, before !! i = Some (Some r) -> after !! i = Some (Some r).

(** What the visit of replica [i] makes of the array, given the status of
    the step: a set entry stays, an unset one takes the reason the status
    signals. *)
Definition visited (status : list Z) (i : nat)
    (before after : list (option FinishReason)) : Prop :=
  match before !! i with
  | Some (Some r) => after !! i = Some (Some r)
  | Some None =>
      forall c, status !! i = Some c -> after !! i = Some (reason_of_status c)
  | None => True
  end.

(** The visit of replica [i] touches entry [i] only, and as [visited] says. *)
Definition visit_of {B : Backend} (res : StepResult B) (i : nat)
    (st st' : CallState B) : Prop :=
  length (finish_reasons st') = length (finish_reasons st)
  /\ (forall j, j <> i -> finish_reasons st' !! j = finish_reasons st !! j)
  /\ visited (status res) i (finish_reasons st) (finish_reasons st').

(** One step of [generate] as [__call__] handles it: the array keeps its
    length, and each of the [n] replicas is visited once. *)
Definition step_of {B : Backend} (n : nat) (res : StepResult B)
    (st st' : CallState B) : Prop :=
  length (finish_reasons st') = length (finish_reasons st)
  /\ (forall j, (n <= j)%nat ->
                finish_reasons st' !! j = finish_reasons st !! j)
  /\ (forall j, (j < n)%nat ->
                visited (status res) j (finish_reasons st) (finish_reasons st')).

(** *** The empty-prompt scenario *)

(** The model keyword arguments [generate] starts from (lines 195-197). *)
Definition initial_kwargs {B : Backend} (config : GenerationConfig)
  : ModelKwargs (Cache B) (EncoderOutputs B) :=
  {| kw_output_attentions := false;
     kw_output_hidden_states := false;
     kw_use_cache := use_cache config;
     kw_encoder_outputs := None;
     kw_past_key_values := None |}.

(** A stream keeps to this contract when it yields one choice, of replica 0
    and with its finish reason set, before it returns, and none before it
    raises; it does not run out of fuel.  The state counts the choices. *)
Definition single_choice {B : Backend} (A : Type)
  : Contract nat (Choice B) A :=
  {| may_draw := True;
     on_yield := fun s c s' =>
       s = 0%nat /\ s' = 1%nat /\ c_index c = 0
       /\ is_Some (c_finish_reason c);
     on_return := fun s _ => s = 1%nat;
     on_raise := fun s _ => s = 0%nat;
     on_exhaust := fun _ => False |}.

(** An empty prompt, one completion of at most one token. *)
Definition empty_prompt_args (logprobs : Z) (echo : bool)
    (temperature top_p : option pynumber) : CallArgs :=
  {| prompt := PromptTensor [0%nat] [];
     min_tokens := 0;
     max_tokens := 1;
     arg_temperature := temperature;
     arg_top_p := top_p;
     n := 1;
     logprobs := logprobs;
     echo := echo |}.

(** *** Concrete runs, for the examples *)

Module Example.
(** One end-of-sequence id, 3, and no pad token id. *)
Definition config : GenerationConfig := Toy.config (Some (EosList [3])) None.
Definition B : Backend := Toy.backend config false.

(** Replica 0 is predicted the end-of-sequence id at its first step and
    the token 7 afterwards; the other replicas are always predicted 5. *)
Definition predict (input_ids : Tensor2) (i : nat) : list Z :=
  match i with
  | O => if (width input_ids =? 2)%nat then Toy.one_hot 3 else Toy.one_hot 7
  | S _ => Toy.one_hot 5
  end.

Definition world (drawn : nat -> Z) : World B nat :=
  Toy.world config false predict (fun _ => false) drawn.

(** Two replicas of the prompt [7; 8], three new tokens at most, greedy. *)
Definition steps : list (StepResult B) :=
  yielded (events (run (world (fun _ => 0))
                       (generate 5 (repeat_rows [7; 8] 2) 0
                          (Toy.greedy_kwargs 3))
                       0%nat)).

(** A step whose status is 0 for replica 0 and 1 for replica 1. *)
Definition step : StepResult B :=
  Build_StepResult B [3; 5] [1; 1] [[]; []] [[]; []] [0; 1].

Definition greedy_args : CallArgs :=
  {| prompt := PromptTensor [2%nat] [7; 8];
     min_tokens := 0;
     max_tokens := 3;
     arg_temperature := Some (Finite 0);
     arg_top_p := Some (Finite 1);
     n := 2;
     logprobs := 1;
     echo := true |}.

(** A config whose [top_p] is exactly 1.0. *)
Definition top_p_one : GenerationConfig :=
  {| min_new_tokens := Some 2;
     max_new_tokens := Some 16;
     temperature := Some (Finite (1 # 2));
     top_p := Some (Finite 1);
     pad_token_id := None;
     bos_token_id := None;
     eos_token_id := Some (EosInt 3);
     decoder_start_token_id := None;
     use_cache := true |}.

(** The same config with the int 2 as temperature. *)
Definition int_temperature : GenerationConfig :=
  {| min_new_tokens := Some 2;
     max_new_tokens := Some 16;
     temperature := Some (PyInt 2);
     top_p := Some (Finite 1);
     pad_token_id := None;
     bos_token_id := None;
     eos_token_id := Some (EosInt 3);
     decoder_start_token_id := None;
     use_cache := true |}.
End Example.

(** A stream keeps to this contract when it neither raises nor runs out of
    fuel, and returns a value that satisfies [Q]. *)
Definition returns {S Y A : Type} (Q : A -> Prop) : Contract S Y A :=
  {| may_draw := True;
     on_yield := fun _ _ _ => True;
     on_return := fun _ a => Q a;
     on_raise := fun _ _ => False;
     on_exhaust := fun _ => False |}.

(** A step result has an entry for each of the [n] replicas in every tensor
    that [__call__] reads. *)
Definition well_shaped {B : Backend} (n : nat) (logprobs : Z)
    (res : StepResult B) : Prop :=
  (n <= length (status res))%nat
  /\ (n <= length (tokens res))%nat
  /\ (0 < logprobs ->
      (n <= length (token_logprobs res))%nat
      /\ (n <= length (top_tokens res))%nat
      /\ (n <= length (top_logprobs res))%nat).

(** The arrays of the call state keep their lengths. *)
Definition same_shape {B : Backend} (st st' : CallState B) : Prop :=
  length (finish_reasons st') = length (finish_reasons st)
  /\ length (decoders st') = length (decoders st).

(** Every entry of the [unfinished] tensor is 0 or 1. *)
Definition binary (unfinished : list Z) : Prop :=
  Forall (fun u => u = 0 \/ u = 1) unfinished.

(** *** What the visit of a replica emits *)

(** [emitted logprobs res i st c st']: replica [i] has no finish reason in
    [st]; its visit at the step [res] yields the choice [c] and leaves the
    state [st']. *)
Definition emitted {B : Backend} (logprobs : Z) (res : StepResult B) (i : nat)
    (st : CallState B) (c : Choice B) (st' : CallState B) : Prop :=
  exists code token d,
    finish_reasons st !! i = Some None
    /\ status res !! i = Some code
    /\ tokens res !! i = Some token
    /\ decoders st !! i = Some d
    /\ finish_reasons st' = <[i := reason_of_status code]> (finish_reasons st)
    /\ decoders st' = <[i := (decoder_decode B d token).2]> (decoders st)
    /\ c_index c = Z.of_nat i
    /\ c_finish_reason c = reason_of_status code
    /\ c_text c = (decoder_decode B d token).1
    /\ c_text_offset c = decoder_start B (decoder_decode B d token).2
    /\ (logprobs <= 0 -> c_samples c = None)
    /\ (0 < logprobs ->
        exists lp tops top_lps,
          token_logprobs res !! i = Some lp
          /\ top_tokens res !! i = Some tops
          /\ top_logprobs res !! i = Some top_lps
          /\ c_samples c = Some (sample token lp tops top_lps)).

(** Replica [i] has an entry in the array, and no finish reason yet. *)
Definition is_unset (frs : list (option FinishReason)) (i : nat) : bool :=
  match frs !! i with
  | Some None => true
  | _ => false
  end.

(** The replicas among the first [n] that have no finish reason yet. *)
Definition unset_replicas (n : nat) (frs : list (option FinishReason))
  : list nat :=
  filter (fun i => is_unset frs i) (seq 0 n).

(** The contract of the handling of one step: the state lists the replicas
    of the choices yielded so far, and the handling does not raise. *)
Definition in_order {B : Backend} (Q : list nat -> CallState B -> Prop)
  : Contract (list nat) (Choice B) (CallState B) :=
  {| may_draw := True;
     on_yield := fun s c s' => exists i, c_index c = Z.of_nat i /\ s' = s ++ [i];
     on_return := Q;
     on_raise := fun _ _ => False;
     on_exhaust := fun _ => False |}.

(** Everything the visit of replica [i] reads has an entry for [i]. *)
Definition readable {B : Backend} (logprobs : Z) (res : StepResult B) (i : nat)
    (st : CallState B) : Prop :=
  (i < length (finish_reasons st))%nat
  /\ (i < length (decoders st))%nat
  /\ (i < length (status res))%nat
  /\ (i < length (tokens res))%nat
  /\ (0 < logprobs ->
      (i < length (token_logprobs res))%nat
      /\ (i < length (top_tokens res))%nat
      /\ (i < length (top_logprobs res))%nat).

(** *** Echo *)

(** Every decoder of the list has decoded [token]. *)
Definition fed {B : Backend} (ds : list (Decoder B)) (token : Z)
  : list (Decoder B) :=
  (fun d => (decoder_decode B d token).2) <$> ds.

(** The token ids [__call__] streams from, when the prompt is valid. *)
Definition prompt_tokens {B : Backend} (p : Prompt) : option (list Z) :=
  match p with
  | PromptStr s => Some (tokenize (B:=B) s)
  | PromptTensor [_] data => Some data
  | PromptTensor _ _ | PromptOther => None
  end.

(** The same call with another [echo] flag. *)
Definition with_echo (args : CallArgs) (echo : bool) : CallArgs :=
  {| prompt := prompt args;
     min_tokens := min_tokens args;
     max_tokens := max_tokens args;
     arg_temperature := arg_temperature args;
     arg_top_p := arg_top_p args;
     n := n args;
     logprobs := logprobs args;
     echo := echo |}.

(** The number of replicas of a call, and the keyword arguments it hands to
    [generate] (lines 50-54 and 81-86). *)
Definition replicas (args : CallArgs) : nat := Z.to_nat (Z.max (n args) 1).

Definition generate_kwargs (args : CallArgs) : GenerateKwargs :=
  {| kw_min_new_tokens := Z.max (min_tokens args) 0;
     kw_max_new_tokens := Z.max (max_tokens args) 1;
     kw_temperature := arg_temperature args;
     kw_top_p := arg_top_p args |}.

(** What an echoed choice of position [j] looks like, for [n] replicas. *)
Definition echoed {B : Backend} (n : nat) (logprobs : Z) (input_ids : list Z)
    (j : nat) (c : Choice B) : Prop :=
  c_index c = Z.of_nat (j mod n)
  /\ c_finish_reason c = None
  /\ exists token,
       input_ids !! (j / n)%nat = Some token
       /\ c_samples c
          = if 0 <? logprobs
            then Some (sample token (float_of_int B 0) [] [])
            else None.

(** The state [__call__] enters its generation loop with: no finish reason,
    and decoders that have decoded the prompt. *)
Definition completion_state {B : Backend} (n : nat) (input_ids : list Z)
  : CallState B :=
  {| finish_reasons := replicate n None;
     decoders := foldl fed (replicate n (new_decoder B)) input_ids |}.

(** The outcome of a generator, whose return value is dropped. *)
Definition ended {A} (o : outcome A) : outcome unit :=
  match o with
  | Returned _ => Returned tt
  | Raised e => Raised e
  | Exhausted => Exhausted
  end.

(** *** One finish reason per replica *)

(** A stream keeps to this contract when every choice it yields is for a
    replica that has no finish reason so far; the state holds, for every
    replica, the finish reason of its last choice. *)
Definition finishing {B : Backend} (A : Type)
  : Contract (list (option FinishReason)) (Choice B) A :=
  {| may_draw := True;
     on_yield := fun s c s' =>
       exists i, c_index c = Z.of_nat i
                 /\ s !! i = Some None
                 /\ s' = <[i := c_finish_reason c]> s;
     on_return := fun _ _ => True;
     on_raise := fun _ _ => True;
     on_exhaust := fun _ => True |}.

(** *** The decoding loop under its cap *)

(** What holds of the progress of [generate] between two steps, for a batch
    of [batch_size] replicas capped at [m] new tokens: the [unfinished]
    tensor is binary, no more than [max 1 m] tokens were generated, and the
    status yielded last is the [unfinished] tensor, negated once the cap is
    reached. *)
Definition on_track (batch_size : nat) (m : Z) (s : Progress) : Prop :=
  binary (p_unfinished s)
  /\ 0 <= p_new_tokens s <= Z.max 1 m
  /\ match p_last_status s with
     | None => p_new_tokens s = 0
     | Some st =>
         length st = batch_size
         /\ st = if p_new_tokens s >=? m
                 then (fun u => Int64.sub 0 u) <$> p_unfinished s
                 else p_unfinished s
     end.

(** Every one of the first [n] replicas has its finish reason. *)
Definition all_finished {B : Backend} (n : nat) (st : CallState B) : Prop :=
  forall i, (i < n)%nat -> exists r, finish_reasons st !! i = Some (Some r).

(** A stream keeps to this contract when no replica is yielded more than
    [M] choices; the state counts the choices of every replica. *)
Definition counting {B : Backend} (M : nat) (A : Type)
  : Contract (nat -> nat) (Choice B) A :=
  {| may_draw := True;
     on_yield := fun s c s' =>
       exists i, c_index c = Z.of_nat i
                 /\ (forall j, s' j = if decide (j = i) then S (s j) else s j)
                 /\ (forall j, (s' j <= M)%nat);
     on_return := fun _ _ => True;
     on_raise := fun _ _ => True;
     on_exhaust := fun _ => True |}.

(** The choices of replica [i] among [cs]. *)
Definition choices_of {B : Backend} (i : nat) (cs : list (Choice B))
  : list (Choice B) :=
  filter (fun c => c_index c = Z.of_nat i) cs.

(** *** Encoder-decoder models *)

(** The token the decoder of an encoder-decoder model starts from (lines
    226-228): the decoder start token, or else the beginning-of-sequence
    token. *)
Definition start_token (config : GenerationConfig) : option Z :=
  match decoder_start_token_id config with
  | Some d => Some d
  | None => bos_token_id config
  end.

(** The keyword arguments [generate] calls the encoder with (lines 218-222):
    the prompt, and no [use_cache]. *)
Definition encoder_call (input_ids : Tensor2) : EncoderKwargs :=
  {| enc_output_attentions := false;
     enc_output_hidden_states := false;
     enc_input_ids := input_ids;
     enc_return_dict := true |}.

(** The keyword arguments of the first forward pass of the decoder. *)
Definition decoder_kwargs {B : Backend} (config : GenerationConfig)
    (enc : EncoderOutputs B) : ModelKwargs (Cache B) (EncoderOutputs B) :=
  {| kw_output_attentions := false;
     kw_output_hidden_states := false;
     kw_use_cache := use_cache config;
     kw_encoder_outputs := Some enc;
     kw_past_key_values := None |}.

Module Seq2Seq.
(** An encoder-decoder model whose decoder starts from token 0, with the
    end-of-sequence id 1. *)
Definition config : GenerationConfig :=
  {| min_new_tokens := None;
     max_new_tokens := None;
     temperature := None;
     top_p := None;
     pad_token_id := Some 0;
     bos_token_id := None;
     eos_token_id := Some (EosInt 1);
     decoder_start_token_id := Some 0;
     use_cache := true |}.
Definition B : Backend := Toy.backend config true.
Definition world : World B nat :=
  Toy.world config true (fun _ _ => Toy.one_hot 1) (fun _ => false)
    (fun _ => 0).
End Seq2Seq.

(** A stream keeps to this contract when it yields nothing and does not
    return: it raises, or runs out of fuel. *)
Definition fruitless (S Y A : Type) : Contract S Y A :=
  {| may_draw := True;
     on_yield := fun _ _ _ => False;
     on_return := fun _ _ => False;
     on_raise := fun _ _ => True;
     on_exhaust := fun _ => True |}.

(** ** Loading a model (lines 309-330) *)

(** The keyword arguments of a [from_pretrained] call; a key that is not in
    the dict is [None]. *)
Record LoadKwargs := {
  cache_dir : option string;
  local_files_only : bool;
  device_map : option string;
  load_in_8bit : option bool;
}.

(** What leaves [load_model]: an exception of a loader, or the [TypeError]
    of line 328, which carries the name of the model. *)
Inductive load_exn :=
| FromHub (e : exn)
| NotTextGeneration (name_or_path : string).

(** transformers and torch, as [load_model] uses them. *)
Record Hub := {
  Tokenizer : Type;
  Model : Type;
  tokenizer_from_pretrained : string -> LoadKwargs -> exn + Tokenizer;
  causal_lm_from_pretrained : string -> LoadKwargs -> exn + Model;
  seq2seq_lm_from_pretrained : string -> LoadKwargs -> exn + Model;
  can_generate : Model -> bool;
  cuda_is_available : bool;
}.

(** The loader calls [load_model] makes, in order. *)
Inductive hub_call :=
| AutoTokenizer (name_or_path : string) (kwargs : LoadKwargs)
| AutoModelForCausalLM (name_or_path : string) (kwargs : LoadKwargs)
| AutoModelForSeq2SeqLM (name_or_path : string) (kwargs : LoadKwargs).

(** A computation that calls loaders and may raise: the calls made, and
    the exception or the value. *)
Definition loading (A : Type) : Type := list hub_call * (load_exn + A).

#[global] Instance loading_ret : MRet loading := fun A a => ([], inr a).
#[global] Instance loading_bind : MBind loading := fun A C f m =>
  match m.2 with
  | inl e => (m.1, inl e)
  | inr a => ((m.1 ++ (f a).1), (f a).2)
  end.

(** One call of a loader, with its answer. *)
Definition called {A} (c : hub_call) (answer : exn + A) : loading A :=
  ([c], match answer with inl e => inl (FromHub e) | inr a => inr a end).

(** [try: body except ValueError: handler] *)
Definition except_ValueError {A} (body handler : loading A) : loading A :=
  match body.2 with
  | inl (FromHub ValueError) => (body.1 ++ handler.1, handler.2)
  | _ => body
  end.

(** [StreamModel.__init__] (lines 24-29). *)
Record StreamModel (H : Hub) := {
  model : Model H;
  tokenizer : Tokenizer H;
  device : string;
}.
Arguments model {H} _.
Arguments tokenizer {H} _.
Arguments device {H} _.

Section LoadModel.
Context (H : Hub).

Definition StreamModel_init (model : Model H) (tokenizer : Tokenizer H)
  : StreamModel H :=
  {| model := model;
     tokenizer := tokenizer;
     device := if cuda_is_available H then "cuda" else "cpu" |}.

(** Lines 315-319: device mapping and quantization options, if CUDA is
    available. *)
Definition with_device_options (kwargs : LoadKwargs) (load_in_8bit : bool)
  : LoadKwargs :=
  if cuda_is_available H then
    {| cache_dir := cache_dir kwargs;
       local_files_only := local_files_only kwargs;
       device_map := Some "auto";
       load_in_8bit := Some load_in_8bit |}
  else kwargs.

Definition load_model (name_or_path : string) (cache_dir : option string)
    (load_in_8bit local_files_only : bool) : loading (StreamModel H) :=
  let kwargs :=
    {| cache_dir := cache_dir;
       local_files_only := local_files_only;
       device_map := None;
       load_in_8bit := None |} in
  tokenizer ← called (AutoTokenizer name_or_path kwargs)
                (tokenizer_from_pretrained H name_or_path kwargs);
  let kwargs := with_device_options kwargs load_in_8bit in
  model ← except_ValueError
            (called (AutoModelForCausalLM name_or_path kwargs)
               (causal_lm_from_pretrained H name_or_path kwargs))
            (called (AutoModelForSeq2SeqLM name_or_path kwargs)
               (seq2seq_lm_from_pretrained H name_or_path kwargs));
  if negb (can_generate H model)
  then ([], inl (NotTextGeneration name_or_path))
  else mret (StreamModel_init model tokenizer).
End LoadModel.

(** The keyword arguments the tokenizer is loaded with. *)
Definition plain_kwargs (cache_dir : option string) (local_files_only : bool)
  : LoadKwargs :=
  {| cache_dir := cache_dir;
     local_files_only := local_files_only;
     device_map := None;
     load_in_8bit := None |}.

(** The keyword arguments of a loader call. *)
Definition call_kwargs (c : hub_call) : LoadKwargs :=
  match c with
  | AutoTokenizer _ kwargs
  | AutoModelForCausalLM _ kwargs
  | AutoModelForSeq2SeqLM _ kwargs => kwargs
  end.

Module ToyHub.
(** A hub with one encoder-decoder model, "t5", one decoder-only model,
    "gpt", and one model that cannot generate, "bert"; a model is the
    pair of its name and of the class it was loaded with. *)
Definition known (name : string) : bool :=
  (String.eqb name "t5" || String.eqb name "gpt" || String.eqb name "bert")%bool.

Definition hub (cuda : bool) : Hub :=
  {| Tokenizer := string;
     Model := string * string;
     tokenizer_from_pretrained := fun name _ =>
       if known name then inr name else inl (ModelError 404);
     causal_lm_from_pretrained := fun name _ =>
       if String.eqb name "t5" then inl ValueError
       else if known name then inr (name, "causal")
       else inl (ModelError 404);
     seq2seq_lm_from_pretrained := fun name _ =>
       if String.eqb name "t5" then inr (name, "seq2seq")
       else inl ValueError;
     can_generate := fun m => negb (String.eqb m.1 "bert");
     cuda_is_available := cuda |}.
End ToyHub.

(** *** The pipeline that is asked for *)

(** The processors [logits_processor] asks transformers for, in the order
    of its three tests. *)
Definition requested (config : GenerationConfig) (input_length : Z)
  : list LogitsProcessor :=
  match min_new_tokens config, eos_token_id config with
  | Some m, Some eos =>
      if 0 <? m then [MinNewTokensLengthLogitsProcessor input_length m eos]
      else []
  | _, _ => []
  end
  ++ match temperature config with
     | Some t => if gt_zero t && ne_one t then [TemperatureLogitsWarper t] else []
     | None => []
     end
  ++ match top_p config with
     | Some p => if gt_zero p && lt_one p then [TopPLogitsWarper p] else []
     | None => []
     end.

(** Whether transformers refuses to build a processor that is asked for. *)
Definition refused (B : Backend) (p : LogitsProcessor) : bool :=
  match p with
  | MinNewTokensLengthLogitsProcessor l _ eos =>
      (l <? 0)
      || (rejects_negative_eos_ids B && existsb (fun i => i <? 0) (ids_of eos))
  | TemperatureLogitsWarper t => negb (is_float t)
  | TopPLogitsWarper _ => false
  end.

(** *** Diagnostics *)






(** A backend whose floats are the terms of the operations applied to the
    scores of the model, so that a run shows which operations were applied,
    and in which order; terms are compared by the score they come from. *)
Module Symbolic.
Inductive term :=
| Score (z : Z)
| Literal (q : Q)
| OfInt (z : Z)
| Softmax (t : term)
| Log (t : term)
| Add (t1 t2 : term)
| Round (t : term) (ndigits : Z).

Fixpoint rank (t : term) : Z :=
  match t with
  | Score z => z
  | Softmax t | Log t | Add t _ | Round t _ => rank t
  | Literal _ | OfInt _ => 0
  end.

Definition ranked (k : nat) (row : list term) : list term * list Z :=
  let indices := (Toy.ranked_topk k (rank <$> row)).2 in
  ((fun i => default (Literal 0) (row !! Z.to_nat i)) <$> indices, indices).

Definition backend (config : GenerationConfig) : Backend :=
  {| float := term;
     Cache := unit;
     EncoderOutputs := unit;
     Inputs := Tensor2;
     Decoder := list Z;
     softmax := fmap Softmax;
     argmax := fun row => Toy.first_max (rank <$> row);
     topk := ranked;
     log := Log;
     add := Add;
     float_literal := Literal;
     float_of_int := OfInt;
     round := Round;
     warp := fun _ _ row => row;
     rejects_negative_eos_ids := true;
     encode := Toy.char_encode;
     decode := Toy.char_decode;
     new_decoder := [];
     decoder_decode := fun d t => (Toy.char_decode t, d ++ [t]);
     decoder_start := fun d => Z.of_nat (length d);
     generation_config := config;
     is_encoder_decoder := false;
     prepare_inputs_for_generation := fun input_ids _ => input_ids |}.

(** Every replica gets the scores [scores], at every step. *)
Definition world (config : GenerationConfig) (scores : list Z)
  : World (backend config) nat :=
  Build_World (backend config) nat
    (fun _ _ c =>
       (inr {| logits := fun _ => [Score <$> scores];
               past_key_values := None;
               mems := None;
               past_buckets_states := None |},
        S c))
    (fun _ _ c => (inr tt, S c))
    (fun _ c => (fun _ => 0, c)).

Definition B : Backend := backend Example.config.
End Symbolic.

(** * Properties *)

(** ** Running a tree *)

Section RunLemmas.
Context {B : Backend} {Y W : Type} (h : World B W).

Lemma then_run_emit {A C} e (r : Run B Y A W) (f : A -> prog B Y C) :
  then_run h (emit e r) f = emit e (then_run h r f).
Proof. unfold then_run, emit; simpl. by destruct (result r). Qed.

Lemma run_bind {A C} (m : prog B Y A) (f : A -> prog B Y C) w :
  run h (m ≫= f) w = then_run h (run h m w) f.
Proof.
  unfold mbind, prog_bind.
  revert w; induction m as [a|e|y k IH|mode i k IH|mode kw k IH|ps k IH|s k IH|];
    intros w; simpl.
  - unfold then_run; simpl. by destruct (run h (f a) w).
  - done.
  - by rewrite IH, then_run_emit.
  - destruct (model_forward h mode i w) as [r w']. by rewrite IH, then_run_emit.
  - destruct (encoder_forward h mode kw w) as [r w']. by rewrite IH, then_run_emit.
  - destruct (multinomial h ps w) as [r w']. by rewrite IH, then_run_emit.
  - by rewrite IH, then_run_emit.
  - done.
Qed.
End RunLemmas.

(** ** Logits processing pipeline *)

Lemma gt_zero_finite q : gt_zero (Finite q) = true <-> (0 < q)%Q.
Proof.
  simpl. rewrite negb_true_iff, <- not_true_iff_false, Qle_bool_iff.
  split; [apply Qnot_le_lt | apply Qlt_not_le].
Qed.

Lemma lt_one_finite q : lt_one (Finite q) = true <-> (q < 1)%Q.
Proof.
  simpl. rewrite negb_true_iff, <- not_true_iff_false, Qle_bool_iff.
  split; [apply Qnot_le_lt | apply Qlt_not_le].
Qed.

Lemma ne_one_finite q : ne_one (Finite q) = true <-> ~ (q == 1)%Q.
Proof.
  simpl. rewrite negb_true_iff, <- not_true_iff_false, Qeq_bool_iff. done.
Qed.

Lemma top_p_accepted p :
  gt_zero p = true -> lt_one p = true ->
  to_float p = p /\ lt_zero p = false /\ gt_one p = false.
Proof.
  destruct p as [z|q| | |]; simpl; try done.
  - intros H0%Z.ltb_lt H1%Z.ltb_lt. lia.
  - intros H0%gt_zero_finite H1%lt_one_finite. split_and!; [done| |].
    + apply negb_false_iff, Qle_bool_iff. by apply Qlt_le_weak.
    + apply negb_false_iff, Qle_bool_iff. by apply Qlt_le_weak.
Qed.

(** The conditions of the three stages, and their order. *)
Lemma requested_stages (config : GenerationConfig) (input_length : Z) :
  let processor := requested config input_length in
  (length processor <= 3)%nat
  /\ StronglySorted lt (fmap stage processor)
  /\ (forall l m e,
        MinNewTokensLengthLogitsProcessor l m e ∈ processor <->
        l = input_length /\ min_new_tokens config = Some m /\ 0 < m
        /\ eos_token_id config = Some e)
  /\ (forall t,
        TemperatureLogitsWarper t ∈ processor <->
        temperature config = Some t /\ gt_zero t = true /\ ne_one t = true)
  /\ (forall p,
        TopPLogitsWarper p ∈ processor <->
        top_p config = Some p /\ gt_zero p = true /\ lt_one p = true).
Proof.
  assert (Hmem : forall P : LogitsProcessor -> Prop,
            forall x, x ∈ requested config input_length ->
            (forall m e, min_new_tokens config = Some m -> 0 < m ->
                         eos_token_id config = Some e ->
                         P (MinNewTokensLengthLogitsProcessor input_length m e)) ->
            (forall t, temperature config = Some t -> gt_zero t = true ->
                       ne_one t = true -> P (TemperatureLogitsWarper t)) ->
            (forall p, top_p config = Some p -> gt_zero p = true ->
                       lt_one p = true -> P (TopPLogitsWarper p)) ->
            P x).
  { intros P x Hx Hmin Htemp Htop. unfold requested in Hx.
    destruct (min_new_tokens config) as [m|] eqn:Em;
      destruct (eos_token_id config) as [e|] eqn:Ee;
      destruct (temperature config) as [t|] eqn:Et;
      destruct (top_p config) as [p|] eqn:Ep; simpl in Hx;
      repeat match type of Hx with
             | context [0 <? ?m] => destruct (Z.ltb_spec 0 m)
             | context [gt_zero ?t] => destruct (gt_zero t) eqn:?
             | context [ne_one ?t] => destruct (ne_one t) eqn:?
             | context [lt_one ?t] => destruct (lt_one t) eqn:?
             end; simpl in Hx;
      repeat match type of Hx with
             | _ ∈ [] => by apply elem_of_nil in Hx
             | _ ∈ _ :: _ => apply elem_of_cons in Hx as [->|Hx]
             end; eauto. }
  assert (Hin : forall x,
            match x with
            | MinNewTokensLengthLogitsProcessor l m e =>
                l = input_length /\ min_new_tokens config = Some m /\ 0 < m
                /\ eos_token_id config = Some e
            | TemperatureLogitsWarper t =>
                temperature config = Some t /\ gt_zero t = true /\ ne_one t = true
            | TopPLogitsWarper p =>
                top_p config = Some p /\ gt_zero p = true /\ lt_one p = true
            end -> x ∈ requested config input_length).
  { intros x Hx. unfold requested.
    destruct x as [l m e|t|p]; simpl.
    - destruct Hx as (-> & -> & Hm & ->).
      destruct (Z.ltb_spec 0 m); [|lia].
      repeat (case_match; simpl); set_solver.
    - destruct Hx as (-> & -> & ->). simpl.
      repeat (case_match; simpl); set_solver.
    - destruct Hx as (-> & -> & ->). simpl.
      repeat (case_match; simpl); set_solver. }
  simpl. split_and!.
  - unfold requested.
    repeat (case_match; simpl); lia.
  - unfold requested.
    repeat (case_match; simpl); repeat constructor; lia.
  - intros l m e. split; [|apply (Hin (MinNewTokensLengthLogitsProcessor l m e))].
    intros Hx.
    apply (Hmem (fun x => match x with
                          | MinNewTokensLengthLogitsProcessor l m e =>
                              l = input_length /\ min_new_tokens config = Some m
                              /\ 0 < m /\ eos_token_id config = Some e
                          | _ => True
                          end) _ Hx); auto.
  - intros t. split; [|apply (Hin (TemperatureLogitsWarper t))].
    intros Hx.
    apply (Hmem (fun x => match x with
                          | TemperatureLogitsWarper t =>
                              temperature config = Some t /\ gt_zero t = true
                              /\ ne_one t = true
                          | _ => True
                          end) _ Hx); auto.
  - intros p. split; [|apply (Hin (TopPLogitsWarper p))].
    intros Hx.
    apply (Hmem (fun x => match x with
                          | TopPLogitsWarper p =>
                              top_p config = Some p /\ gt_zero p = true
                              /\ lt_one p = true
                          | _ => True
                          end) _ Hx); auto.
Qed.

(** [logits_processor] builds what it asks for, unless transformers
    refuses one of the processors; then it raises the [ValueError] of the
    constructor. *)
Lemma logits_processor_builds (B : Backend) (Y : Type)
    (config : GenerationConfig) (input_length : Z) :
  logits_processor (B:=B) (Y:=Y) config input_length
  = if existsb (refused B) (requested config input_length)
    then Raise ValueError
    else Ret (requested config input_length).
Proof.
  unfold logits_processor, requested, new_MinNewTokensLengthLogitsProcessor,
    new_TemperatureLogitsWarper, new_TopPLogitsWarper.
  destruct (min_new_tokens config) as [m|];
    destruct (eos_token_id config) as [eos|]; simpl.
  1: destruct (Z.ltb_spec 0 m) as [Hm|Hm]; simpl.
  1: destruct (Z.ltb_spec input_length 0); simpl; [done|].
  1: destruct (Z.ltb_spec m 0); [lia|]; simpl.
  1: destruct (rejects_negative_eos_ids B && _); simpl; [done|].
  all: destruct (temperature config) as [t|]; simpl.
  all: try (destruct (gt_zero t) eqn:Hgt; simpl;
            [destruct (ne_one t); simpl;
             [rewrite ?andb_true_r; destruct (is_float t); simpl; [|done]|]|]).
  all: destruct (top_p config) as [p|]; simpl; try done.
  all: destruct (gt_zero p) eqn:Hgp; simpl; try done.
  all: destruct (lt_one p) eqn:Hlp; simpl; try done.
  all: destruct (top_p_accepted p Hgp Hlp) as (-> & -> & ->); simpl.
  all: by rewrite ?orb_false_r.
Qed.

(** Without a minimum of new tokens, a temperature that is a float (or
    none) is all it takes. *)
Lemma logits_processor_accepts_floats (B : Backend) (Y : Type)
    (config : GenerationConfig) (input_length m : Z) :
  min_new_tokens config = Some m -> m <= 0 ->
  (forall t, temperature config = Some t -> is_float t = true) ->
  logits_processor (B:=B) (Y:=Y) config input_length
  = Ret (requested config input_length).
Proof.
  intros Hm Hle Hfloat. rewrite logits_processor_builds.
  assert (Hex : existsb (refused B) (requested config input_length) = false);
    [|by rewrite Hex].
  unfold requested. rewrite Hm.
  destruct (eos_token_id config) as [eos|];
    [destruct (Z.ltb_spec 0 m); [lia|]|]; simpl.
  all: destruct (temperature config) as [t|] eqn:Ht; simpl.
  all: try (destruct (gt_zero t && ne_one t); simpl;
            [rewrite (Hfloat t eq_refl); simpl|]).
  all: destruct (top_p config) as [p|]; simpl; try done.
  all: by destruct (gt_zero p && lt_one p).
Qed.

(** C4. [logits_processor] returns a pipeline or raises the [ValueError] of
    a transformers constructor; it raises exactly when the minimum-new-tokens
    processor is asked for with arguments transformers refuses, or when the
    temperature passes the tests [> 0] and [!= 1.0] but is an int, which
    [TemperatureLogitsWarper] refuses: a float is never refused.  Every
    pipeline that is built has at most three transforms, always in the order
    minimum-new-tokens, temperature, top-p (their stages are strictly
    increasing along the list, and [next_token_probs] applies the list from
    left to right).  In it the minimum-new-tokens processor is present
    exactly when [min_new_tokens > 0] and an end-of-sequence id is
    configured; the temperature warper exactly when the temperature is set,
    [> 0] and [!= 1.0]; the top-p warper exactly when [0 < top_p < 1]; so
    [top_p = 1.0] switches the nucleus filter off. *)
Theorem logits_processor_stages (B : Backend) (Y : Type)
    (config : GenerationConfig) (input_length : Z) :
  let built := logits_processor (B:=B) (Y:=Y) config input_length in
  ((exists processor, built = Ret processor) \/ built = Raise ValueError)
  /\ (built = Raise ValueError <->
      (exists m eos,
         min_new_tokens config = Some m /\ 0 < m
         /\ eos_token_id config = Some eos
         /\ (input_length < 0
             \/ (rejects_negative_eos_ids B = true
                 /\ exists i, i ∈ ids_of eos /\ i < 0)))
      \/ (exists z, temperature config = Some (PyInt z) /\ 0 < z /\ z <> 1))
  /\ (forall processor,
        built = Ret processor ->
        (length processor <= 3)%nat
        /\ StronglySorted lt (fmap stage processor)
        /\ (forall l m e,
              MinNewTokensLengthLogitsProcessor l m e ∈ processor <->
              l = input_length /\ min_new_tokens config = Some m /\ 0 < m
              /\ eos_token_id config = Some e)
        /\ (forall t,
              TemperatureLogitsWarper t ∈ processor <->
              temperature config = Some t /\ gt_zero t = true
              /\ ne_one t = true)
        /\ (forall q,
              TemperatureLogitsWarper (Finite q) ∈ processor <->
              temperature config = Some (Finite q) /\ (0 < q)%Q
              /\ ~ (q == 1)%Q)
        /\ (forall p,
              TopPLogitsWarper p ∈ processor <->
              top_p config = Some p /\ gt_zero p = true /\ lt_one p = true)
        /\ (forall q,
              TopPLogitsWarper (Finite q) ∈ processor <->
              top_p config = Some (Finite q) /\ (0 < q)%Q /\ (q < 1)%Q)
        /\ (forall q p,
              top_p config = Some (Finite q) -> (q == 1)%Q ->
              TopPLogitsWarper p ∉ processor)
        /\ (forall batch_size input_ids outputs i,
              (i < batch_size)%nat ->
              next_token_probs (B:=B) processor batch_size input_ids outputs
                !! i
              = Some (softmax B
                        (foldl (fun scores p => warp B p input_ids scores)
                               (default [] (last (logits outputs i)))
                               processor))))
  /\ ((forall t, temperature config = Some t -> is_float t = true) ->
      (forall m eos, min_new_tokens config = Some m -> 0 < m ->
                     eos_token_id config = Some eos ->
                     0 <= input_length /\ Forall (fun i => 0 <= i) (ids_of eos)) ->
      exists processor, built = Ret processor).
Proof.
  intros built. subst built. rewrite logits_processor_builds.
  destruct (requested_stages config input_length)
    as (Hlen & Hsorted & Hmin & Htemp & Htop).
  assert (Hrefused :
            existsb (refused B) (requested config input_length) = true <->
            (exists m eos,
               min_new_tokens config = Some m /\ 0 < m
               /\ eos_token_id config = Some eos
               /\ (input_length < 0
                   \/ (rejects_negative_eos_ids B = true
                       /\ exists i, i ∈ ids_of eos /\ i < 0)))
            \/ (exists z, temperature config = Some (PyInt z)
                          /\ 0 < z /\ z <> 1)).
  { rewrite existsb_exists. split.
    - intros (x & Hx%list_elem_of_In & Href).
      destruct x as [l m e|t|p]; simpl in Href; [| |done].
      + apply Hmin in Hx as (-> & Hm & Hpos & He). left. exists m, e.
        split_and!; [done..|].
        apply orb_true_iff in Href as [Hl%Z.ltb_lt|Href]; [by left|].
        apply andb_true_iff in Href as [Hrej Hneg]. right. split; [done|].
        apply existsb_exists in Hneg as (i & Hi%list_elem_of_In & Hlt%Z.ltb_lt).
        eauto.
      + apply Htemp in Hx as (Ht & Hgt & Hne). right.
        destruct t as [z|q| | |]; try done. exists z. simpl in Hgt, Hne.
        apply Z.ltb_lt in Hgt. apply negb_true_iff, Z.eqb_neq in Hne. done.
    - intros [(m & eos & Hm & Hpos & He & Hbad)|(z & Ht & Hz & Hne)].
      + exists (MinNewTokensLengthLogitsProcessor input_length m eos).
        split; [apply list_elem_of_In, Hmin; done|]. simpl.
        apply orb_true_iff. destruct Hbad as [Hl|(Hrej & i & Hi & Hlt)].
        * left. by apply Z.ltb_lt.
        * right. rewrite Hrej. simpl. apply existsb_exists. exists i.
          split; [by apply list_elem_of_In|by apply Z.ltb_lt].
      + exists (TemperatureLogitsWarper (PyInt z)).
        split; [|done]. apply list_elem_of_In, Htemp. simpl.
        split_and!; [done|by apply Z.ltb_lt|].
        by apply negb_true_iff, Z.eqb_neq. }
  split_and!.
  - destruct (existsb _ _); [by right|left; eauto].
  - rewrite <- Hrefused. by destruct (existsb _ _).
  - intros processor Hbuilt.
    destruct (existsb _ _) eqn:Hex; [done|]. injection Hbuilt as <-.
    split_and!; try done.
    + intros q. rewrite Htemp, gt_zero_finite, ne_one_finite. done.
    + intros q. rewrite Htop, gt_zero_finite, lt_one_finite. done.
    + intros q p Hq Hone [Hp [_ Hlt]]%Htop.
      rewrite Hq in Hp. injection Hp as <-.
      apply lt_one_finite in Hlt. rewrite Hone in Hlt.
      by apply Qlt_irrefl in Hlt.
    + intros batch_size input_ids outputs i Hi.
      unfold next_token_probs.
      by rewrite !list_lookup_fmap, lookup_seq_lt.
  - intros Hfloat Hmin_ok.
    destruct (existsb _ _) eqn:Hex; [|eauto]. exfalso.
    destruct (proj1 Hrefused eq_refl)
      as [(m & eos & Hm & Hpos & He & Hbad)|(z & Hz & _)].
    + destruct (Hmin_ok m eos Hm Hpos He) as [Hil Hids].
      destruct Hbad as [?|(_ & i & Hi & Hlt)]; [lia|].
      rewrite Forall_forall in Hids. specialize (Hids i Hi). lia.
    + by specialize (Hfloat _ Hz).
Qed.

(** ** Resilient inference *)

(** C8. Every attempt of [infer] is exactly one forward pass, made in
    inference mode (no gradient tracking).  A failed attempt is followed by
    a sleep of 1 and a new attempt, up to 5 attempts in all: when the first
    [k < 5] attempts fail and the next one succeeds, its output is returned
    after [k + 1] forward passes; when all 5 fail, nothing more is tried and
    the failure of the fifth attempt is raised to the caller (wrapped, as
    tenacity does, in a [RetryError]).  In that case the step of [generate]
    that made the call yields nothing: the exception leaves the generator
    before any step result. *)
Theorem infer_retries_up_to_five_attempts (B : Backend) (Y : Type) :
  (forall (inputs : Inputs B) (errs : list exn) out rest,
     (length errs < 5)%nat ->
     run (Y:=Y) (scripted B) (infer (fun mode A k => Forward mode inputs k))
         ((inl <$> errs) ++ inr out :: rest)
     = {| events := attempt_events inputs (S (length errs));
          result := Returned out;
          final := rest |})
  /\ (forall (inputs : Inputs B) e1 e2 e3 e4 e5 rest,
        run (Y:=Y) (scripted B) (infer (fun mode A k => Forward mode inputs k))
            (inl e1 :: inl e2 :: inl e3 :: inl e4 :: inl e5 :: rest)
        = {| events := attempt_events inputs 5;
             result := Raised (RetryError e5);
             final := rest |})
  /\ (forall fuel config batch_size logprobs pad eos input_length processor
             (st : LoopState B) e1 e2 e3 e4 e5 rest,
        let r :=
          run (scripted B)
              (decode_loop (S fuel) config batch_size logprobs pad eos
                 input_length processor st)
              (inl e1 :: inl e2 :: inl e3 :: inl e4 :: inl e5 :: rest) in
        events r
        = attempt_events
            (prepare_inputs_for_generation B (ls_input_ids st) (ls_kwargs st)) 5
        /\ yielded (events r) = []
        /\ result r = Raised (RetryError e5)).
Proof.
  split_and!.
  - intros inputs errs out rest Hlen.
    do 5 (destruct errs as [|? errs]; [reflexivity|]).
    simpl in Hlen; lia.
  - reflexivity.
  - intros. subst r. split_and!; reflexivity.
Qed.

(** Two failures, then a success: three forward passes, two sleeps. *)
Lemma infer_retries_up_to_five_attempts_witness :
  let B := Toy.backend (Toy.config None None) false in
  let out : ModelOutput (float B) (Cache B) :=
    {| logits := fun _ => [[0; 1]]; past_key_values := None; mems := None;
       past_buckets_states := None |} in
  let inputs : Inputs B := new_ones 1 in
  (length [ModelError 0; ModelError 1] < 5)%nat
  /\ run (Y:=unit) (scripted B) (infer (fun mode A k => Forward mode inputs k))
         ((inl <$> [ModelError 0; ModelError 1]) ++ inr out :: [])
     = {| events := [EvForward InferenceMode inputs; EvSleep 1;
                     EvForward InferenceMode inputs; EvSleep 1;
                     EvForward InferenceMode inputs];
          result := Returned out;
          final := [] |}.
Proof.
  intros B out inputs.
  assert (Hlen : (length [ModelError 0; ModelError 1] < 5)%nat) by (simpl; lia).
  split; [exact Hlen|].
  exact (proj1 (infer_retries_up_to_five_attempts B unit)
           inputs [ModelError 0; ModelError 1] out [] Hlen).
Defined.

(** ** The sampler and its log-probabilities *)

Section Dict.
Context {V : Type}.
Implicit Types (pairs : list (string * V)) (d : gmap string V).

Lemma dict_from_dom pairs d :
  dom (foldl (fun d kv => <[kv.1 := kv.2]> d) d pairs)
  = dom d ∪ list_to_set (pairs.*1).
Proof.
  revert d; induction pairs as [|[k v] pairs IH]; intros d; simpl.
  - set_solver.
  - rewrite IH, dom_insert_L. set_solver.
Qed.


Lemma dict_dom pairs : dom (dict pairs) = list_to_set (pairs.*1).
Proof. unfold dict. rewrite dict_from_dom. set_solver. Qed.

End Dict.

Lemma size_list_to_set_le (l : list string) :
  (size (list_to_set l : gset string) <= length l)%nat.
Proof.
  induction l as [|x l IH].
  - by rewrite list_to_set_nil, size_empty.
  - rewrite list_to_set_cons. cbn [length].
    rewrite size_union_alt, size_singleton.
    assert ((list_to_set l ∖ {[x]} : gset string) ⊆ list_to_set l) as Hs
      by set_solver.
    apply subseteq_size in Hs.
    lia.
Qed.

Lemma size_list_to_set_NoDup (l : list string) :
  size (list_to_set l : gset string) = length l <-> NoDup l.
Proof.
  split; [|apply size_list_to_set].
  induction l as [|x l IH]; [constructor|].
  rewrite list_to_set_cons. cbn [length].
  intros Hsize.
  pose proof (size_list_to_set_le l) as Hle.
  destruct (decide (x ∈ l)) as [Hin|Hnin].
  - assert (({[x]} ∪ list_to_set l : gset string) = list_to_set l) as Heq
      by set_solver.
    rewrite Heq in Hsize. lia.
  - rewrite size_union in Hsize by set_solver.
    rewrite size_singleton in Hsize.
    constructor; [done|]. apply IH. lia.
Qed.


(** C10. The alternatives map of [sample] is keyed by decoded text.  Its keys
    are exactly the text of the chosen token and the texts of the top-k
    tokens, so ids with the same text share one entry; the entry of the
    chosen token's text holds the chosen token's log-probability, also when
    a top-k token has the same text; and the map has [k + 1] entries only
    when all these texts are pairwise distinct, fewer otherwise. *)
Theorem sample_map_keyed_by_text (B : Backend) (token : Z) (lp : float B)
    (tops : list Z) (top_lps : list (float B)) :
  length tops = length top_lps ->
  let m := s_top_logprobs (sample token lp tops top_lps) in
  let texts := decode B token :: (decode B <$> tops) in
  (forall key, is_Some (m !! key) <-> key ∈ texts)
  /\ m !! decode B token = Some (round8 B lp)
  /\ (size m <= S (length tops))%nat
  /\ (size m = S (length tops) <-> NoDup texts)
  /\ (~ NoDup texts -> (size m < S (length tops))%nat).
Proof.
  intros Hlen m texts.
  assert (Hdom : dom m = list_to_set texts).
  { subst m texts. unfold sample; simpl.
    rewrite dom_insert_L, dict_dom, fst_zip; [done|].
    rewrite !length_fmap. lia. }
  assert (Hsize : size m = size (list_to_set texts : gset string)).
  { by rewrite <- Hdom, size_dom. }
  assert (Htexts : length texts = S (length tops)).
  { subst texts. simpl. by rewrite length_fmap. }
  pose proof (size_list_to_set_le texts) as Hle.
  pose proof (size_list_to_set_NoDup texts) as Hnd.
  split_and!.
  - intros key. by rewrite <- elem_of_dom, Hdom, elem_of_list_to_set.
  - subst m. unfold sample; simpl. apply lookup_insert_eq.
  - lia.
  - rewrite Hsize, <- Htexts. done.
  - intros Hdup.
    destruct (decide (size m = S (length tops))) as [Heq|Hne]; [|lia].
    exfalso. apply Hdup, Hnd. lia.
Qed.

(** The ids 1 and 129 have the same text: with the chosen token 1 and the
    top-2 window [1; 129] the map has one entry, not three. *)
Lemma sample_map_keyed_by_text_witness :
  let B := Toy.backend (Toy.config None None) false in
  let m := s_top_logprobs (sample (B:=B) 1 7 [1; 129] [7; 4]) in
  length [1; 129] = length [7; 4]
  /\ m !! decode B 1 = Some 7
  /\ (size m < 3)%nat.
Proof.
  intros B m.
  assert (Hlen : length [1; 129] = length [7; 4]) by reflexivity.
  pose proof (sample_map_keyed_by_text B 1 7 [1; 129] [7; 4] Hlen)
    as (_ & Hchosen & _ & _ & Hfewer).
  split_and!; [exact Hlen|exact Hchosen|].
  apply Hfewer. intros Hnd. apply NoDup_cons in Hnd as [Hnin _].
  apply Hnin. by left.
Defined.

(** ** Contracts: rules and soundness *)

Section Contracts.
Context {B : Backend}.

Lemma yielded_emit_yield {Y A W} (y : Y) (r : Run B Y A W) :
  yielded (events (emit (EvYield y) r)) = y :: yielded (events r).
Proof. done. Qed.

Lemma chain_app {S Y} (P : S -> Y -> S -> Prop) s ys1 s1 ys2 s2 :
  chain P s ys1 s1 -> chain P s1 ys2 s2 -> chain P s (ys1 ++ ys2) s2.
Proof.
  revert s; induction ys1 as [|y ys1 IH]; intros s; simpl.
  - by intros ->.
  - intros (s' & Hy & Hc) H2. eauto.
Qed.

(** Soundness: a run of a traced tree yields a chain of the contract and
    ends as the contract says. *)
Lemma traced_run {S Y A W} (c : Contract S Y A) s (g : prog B Y A)
    (h : World B W) w :
  traced c s g ->
  exists s', chain (on_yield c) s (yielded (events (run h g w))) s'
             /\ at_end c s' (result (run h g w)).
Proof.
  intros Ht; revert w.
  induction Ht as [s a Ha|s e He|s y k s' Hy Hk IH|s m i k Hk IH|s m kw k Hk IH
                  |s ps k Hd Hk IH|s z k Hk IH|s He]; intros w; simpl.
  - by exists s.
  - by exists s.
  - destruct (IH w) as (s2 & Hc & He). exists s2. split; [|done].
    simpl. eauto.
  - destruct (model_forward h m i w) as [r w']. apply IH.
  - destruct (encoder_forward h m kw w) as [r w']. apply IH.
  - destruct (multinomial h ps w) as [r w']. apply IH.
  - apply IH.
  - by exists s.
Qed.

Lemma traced_mono {S Y A} (c c' : Contract S Y A) s (g : prog B Y A) :
  traced c s g ->
  (may_draw c -> may_draw c') ->
  (forall s y s', on_yield c s y s' -> on_yield c' s y s') ->
  (forall s a, on_return c s a -> on_return c' s a) ->
  (forall s e, on_raise c s e -> on_raise c' s e) ->
  (forall s, on_exhaust c s -> on_exhaust c' s) ->
  traced c' s g.
Proof.
  intros Ht Hd Hy Hr He Hx.
  induction Ht; econstructor; eauto.
Qed.

Lemma traced_bind {S Y A C} (c : Contract S Y C) (Q : S -> A -> Prop) s
    (m : prog B Y A) (f : A -> prog B Y C) :
  traced (returning c Q) s m ->
  (forall s' a, Q s' a -> traced c s' (f a)) ->
  traced c s (m ≫= f).
Proof.
  unfold mbind, prog_bind.
  intros Hm Hf.
  induction Hm; simpl; try (econstructor; eauto; fail).
  by apply Hf.
Qed.

Lemma getitem_Some {Y A} (xs : list A) i x :
  xs !! i = Some x -> getitem (B:=B) (Y:=Y) xs i = Ret x.
Proof. unfold getitem. by intros ->. Qed.

Lemma getitem_None {Y A} (xs : list A) i :
  xs !! i = None -> getitem (B:=B) (Y:=Y) xs i = Raise IndexError.
Proof. unfold getitem. by intros ->. Qed.

Lemma traced_getitem {S Y A} (c : Contract S Y A) s (xs : list A) i :
  (forall x, xs !! i = Some x -> on_return c s x) ->
  (xs !! i = None -> on_raise c s IndexError) ->
  traced c s (getitem (B:=B) xs i).
Proof.
  intros Hsome Hnone. unfold getitem.
  destruct (xs !! i); constructor; auto.
Qed.

(** Building the pipeline yields nothing: it returns, or raises the
    [ValueError] of a constructor. *)
Lemma traced_logits_processor {S Y} (c : Contract S Y (list LogitsProcessor))
    s config input_length :
  (forall processor, on_return c s processor) ->
  on_raise c s ValueError ->
  traced c s (logits_processor (B:=B) config input_length).
Proof.
  intros Hret Hraise. rewrite logits_processor_builds.
  destruct (existsb _ _); by constructor.
Qed.

(** [infer] of a forward pass: it returns an output of the model or raises
    a [RetryError], and yields nothing. *)
Lemma traced_infer_forward {S Y}
    (c : Contract S Y (ModelOutput (float B) (Cache B))) s (inputs : Inputs B) :
  (forall out, on_return c s out) ->
  (forall e, on_raise c s (RetryError e)) ->
  traced c s (infer (fun mode A k => Forward mode inputs k)).
Proof.
  intros Hret Hraise. unfold infer, retry; simpl.
  repeat (constructor; intros [?|?]; try (constructor; auto; fail);
          try (apply traced_sleep)).
Qed.

Lemma traced_infer_encode {S Y} (c : Contract S Y (EncoderOutputs B)) s kwargs :
  (forall out, on_return c s out) ->
  (forall e, on_raise c s (RetryError e)) ->
  traced c s (infer (fun mode A k => Encode mode kwargs k)).
Proof.
  intros Hret Hraise. unfold infer, retry; simpl.
  repeat (constructor; intros [?|?]; try (constructor; auto; fail);
          try (apply traced_sleep)).
Qed.

(** A loop over a list keeps an invariant of its state. *)
Lemma traced_for_each {S Y X St} (c : Contract S Y St)
    (I : list X -> S -> St -> Prop) (xs : list X)
    (body : X -> St -> prog B Y St) s st :
  I xs s st ->
  (forall x xs' s st, I (x :: xs') s st ->
      traced (returning c (I xs')) s (body x st)) ->
  (forall s st, I [] s st -> on_return c s st) ->
  traced c s (for_each xs body st).
Proof.
  intros HI Hbody Hend.
  revert s st HI; induction xs as [|x xs IH]; intros s st HI; simpl.
  - constructor. auto.
  - eapply traced_bind; [by apply Hbody|]. intros s' st' HI'. by apply IH.
Qed.

(** A [for] loop over a generator: the body runs at every item, in the
    abstract state of the generator after the item; [J] relates the state
    of the generator, the state of the loop and the state of the contract
    of the whole. *)
Lemma traced_for_in {Sg Sc X Y St} (cg : Contract Sg X unit)
    (c : Contract Sc Y St) (J : Sg -> Sc -> St -> Prop)
    (g : prog B X unit) (body : X -> St -> prog B Y St) sg sc st :
  traced cg sg g ->
  J sg sc st ->
  (may_draw cg -> may_draw c) ->
  (forall sg x sg' sc st, on_yield cg sg x sg' -> J sg sc st ->
      traced (returning c (J sg')) sc (body x st)) ->
  (forall sg sc st u, on_return cg sg u -> J sg sc st -> on_return c sc st) ->
  (forall sg sc st e, on_raise cg sg e -> J sg sc st -> on_raise c sc e) ->
  (forall sg sc st, on_exhaust cg sg -> J sg sc st -> on_exhaust c sc) ->
  traced c sc (for_in g body st).
Proof.
  intros Hg HJ Hd Hbody Hret Hraise Hex.
  revert sc st HJ.
  induction Hg as [sg a Ha|sg e He|sg y k sg' Hy Hk IH|sg m i k Hk IH
                  |sg m kw k Hk IH|sg ps k Hdg Hk IH|sg z k Hk IH|sg He];
    intros sc st HJ; simpl.
  - constructor. destruct a. eauto.
  - constructor. eauto.
  - eapply traced_bind; [by eapply Hbody|]. intros sc' st' HJ'. by apply IH.
  - constructor. intros r. by apply IH.
  - constructor. intros r. by apply IH.
  - constructor; [by apply Hd|]. intros r. by apply IH.
  - constructor. by apply IH.
  - constructor. eauto.
Qed.

(** Without a random draw, the source of randomness does not matter. *)
Lemma traced_deterministic {S Y A W} (c : Contract S Y A) s (g : prog B Y A)
    (h : World B W) draw1 draw2 w :
  traced c s g -> ~ may_draw c ->
  run (with_multinomial h draw1) g w = run (with_multinomial h draw2) g w.
Proof.
  intros Ht Hnd; revert w.
  induction Ht as [s a Ha|s e He|s y k s' Hy Hk IH|s m i k Hk IH|s m kw k Hk IH
                  |s ps k Hd Hk IH|s z k Hk IH|s He]; intros w; simpl;
    try done.
  - by rewrite IH.
  - destruct (model_forward h m i w) as [r w']. by rewrite IH.
  - destruct (encoder_forward h m kw w) as [r w']. by rewrite IH.
  - by rewrite IH.
Qed.
End Contracts.

(** ** The decoding loop keeps to its contract *)

Section GenerateContract.
Context {B : Backend}.

Lemma length_next_token_probs processor batch_size input_ids
    (outputs : ModelOutput (float B) (Cache B)) :
  length (next_token_probs processor batch_size input_ids outputs)
  = batch_size.
Proof. unfold next_token_probs. by rewrite !length_fmap, length_seq. Qed.

Lemma length_pad_finished pad (tokens unfinished : list Z) :
  length tokens = length unfinished ->
  length (pad_finished pad tokens unfinished) = length tokens.
Proof.
  intros Hlen. destruct pad as [pad|]; simpl; [|done].
  rewrite length_zip_with. lia.
Qed.

Lemma decode_loop_traced fuel config batch_size logprobs pad eos
    input_length processor (st : LoopState B) (s : Progress) :
  ls_unfinished st = p_unfinished s ->
  Z.of_nat (width (ls_input_ids st)) - input_length = p_new_tokens s ->
  length (p_unfinished s) = batch_size ->
  p_fuel s = fuel ->
  may_continue s ->
  traced (generate_contract config batch_size pad eos) s
    (decode_loop fuel config batch_size logprobs pad eos input_length
       processor st).
Proof.
  revert st s; induction fuel as [|fuel IH];
    intros st s Hunf Hnew Hlen Hfuel Hcont.
  { constructor. by split. }
  assert (Hraise : forall e,
            on_raise (generate_contract (B:=B) config batch_size pad eos) s e)
    by (intros; by left).
  cbn [decode_loop].
  eapply traced_bind with (Q := fun s' _ => s' = s).
  { by apply traced_infer_forward. }
  intros ? outputs ->.
  set (probs := next_token_probs processor batch_size (ls_input_ids st) outputs).
  assert (Hprobs : length probs = batch_size)
    by apply length_next_token_probs.
  eapply traced_bind
    with (Q := fun s' sampled => s' = s /\ length sampled = batch_size).
  { unfold select_tokens. destruct (greedy config) eqn:Hg.
    - constructor. simpl. by rewrite length_fmap.
    - constructor; [done|]. intros drawn. constructor. simpl.
      by rewrite length_fmap, length_seq. }
  intros ? sampled [-> Hsampled].
  eapply traced_bind
    with (Q := fun s' lps => s' = s /\ length lps = batch_size).
  { unfold collect_token_logprobs.
    destruct (mapM _ _) as [ps|] eqn:Hps; [|by (constructor; try apply Hraise)].
    constructor. simpl. split; [done|].
    apply length_mapM in Hps.
    rewrite length_fmap, <- Hps, length_zip_with. lia. }
  intros ? lps [-> Hlps].
  eapply traced_bind
    with (Q := fun s' top => s' = s /\ length top.1 = batch_size
                             /\ length top.2 = batch_size).
  { unfold collect_top_logprobs.
    destruct (_ || _); [by (constructor; try apply Hraise)|].
    constructor. simpl. by rewrite !length_fmap. }
  intros ? [top_lps top_toks] (-> & Htl & Htt). simpl in Htl, Htt.
  set (toks := pad_finished pad sampled (ls_unfinished st)).
  assert (Htoks : length toks = batch_size).
  { subst toks. rewrite length_pad_finished; [done|]. rewrite Hunf. lia. }
  eapply traced_bind
    with (Q := fun s' unf =>
                 s' = s /\ mark_finished (B:=B) eos toks (ls_unfinished st) = Ret unf
                 /\ length unf = batch_size).
  { unfold mark_finished. destruct eos as [[|e ids]|].
    - by (constructor; try apply Hraise).
    - constructor. simpl. split_and!; [done..|].
      rewrite length_zip_with, Hunf. lia.
    - constructor. simpl. split_and!; [done..|]. by rewrite Hunf. }
  intros ? unf (-> & Hmark & Hunf').
  unfold step_status. destruct (max_new_tokens config) as [m|] eqn:Hmax;
    [|by (constructor; try apply Hraise)].
  simpl.
  set (stat := if Z.of_nat (S (width (ls_input_ids st))) - input_length >=? m
               then (fun s0 => Int64.sub 0 s0) <$> unf else unf).
  assert (Hstat : length stat = batch_size).
  { subst stat. destruct (_ >=? _); by rewrite ?length_fmap. }
  set (s' := {| p_unfinished := unf;
                p_new_tokens := p_new_tokens s + 1;
                p_last_status := Some stat;
                p_fuel := fuel |}).
  apply traced_yield with (s' := s').
  { unfold decode_step. subst s'. split_and!; simpl; try done.
    - exists sampled. by rewrite <- Hunf.
    - by rewrite <- Hunf.
    - exists m. split; [done|]. subst stat.
      replace (p_new_tokens s + 1)
        with (Z.of_nat (S (width (ls_input_ids st))) - input_length) by lia.
      done. }
  destruct (tensor_max stat) as [mx|] eqn:Hmx.
  2:{ constructor. right. simpl. eauto. }
  destruct (Z.leb_spec mx 0).
  - constructor. simpl. eauto.
  - apply IH; simpl; try done.
    + lia.
    + unfold may_continue; simpl. eauto.
Qed.

Lemma generate_traced fuel (input_ids : Tensor2) logprobs kw :
  let config := config_update (generation_config B) kw in
  let batch_size := length (rows input_ids) in
  traced (generate_contract (B:=B) config batch_size (padding_id config)
            (eos_list (eos_token_id config)))
    (initial_progress fuel batch_size)
    (generate fuel input_ids logprobs kw).
Proof.
  intros config batch_size. unfold generate. fold config. fold batch_size.
  set (eos := eos_list (eos_token_id config)).
  set (s0 := initial_progress fuel batch_size).
  assert (Hraise : forall e,
            on_raise (generate_contract (B:=B) config batch_size
                        (padding_id config) eos) s0 e)
    by (intros; by left).
  eapply traced_bind
    with (Q := fun s' pad => s' = s0 /\ pad = padding_id config).
  { unfold default_pad, padding_id. fold eos.
    destruct (pad_token_id config) as [pad|];
      [by (constructor; try apply Hraise)|].
    destruct eos as [[|e ids]|]; by (constructor; try apply Hraise). }
  intros ? pad [-> ->].
  eapply traced_bind
    with (Q := fun s' il =>
                 s' = s0 /\ Z.of_nat (width il.1) - il.2 = 0).
  { unfold seed_empty_input.
    destruct (Nat.eqb_spec (width input_ids) 0) as [Hw|Hw];
      [|constructor; simpl; split; [done|lia]].
    destruct eos as [[|e ids]|]; by (constructor; try apply Hraise). }
  intros ? [ids il] [-> Hil]. simpl in Hil.
  eapply traced_bind
    with (Q := fun s' x => s' = s0 /\ Z.of_nat (width x.1.1) - x.1.2 = 0).
  { unfold prepare_encoder_decoder.
    destruct (is_encoder_decoder B); [|by (constructor; try apply Hraise)].
    eapply traced_bind with (Q := fun s' _ => s' = s0).
    { by apply traced_infer_encode. }
    intros ? enc ->.
    destruct (decoder_start_token_id config) as [d|];
      [by (constructor; try apply Hraise)|].
    destruct (bos_token_id config) as [d|]; by (constructor; try apply Hraise). }
  intros ? [[ids' il'] kwargs] [-> Hil']. simpl in Hil'.
  eapply traced_bind with (Q := fun s' _ => s' = s0).
  { apply traced_logits_processor; [done|apply Hraise]. }
  intros ? processor ->.
  apply decode_loop_traced; simpl; try done.
  by rewrite length_replicate.
Qed.
End GenerateContract.

(** ** Padding of finished replicas *)

Lemma wrap_in_range z : Int64.in_range (Int64.wrap z).
Proof.
  unfold Int64.in_range, Int64.wrap.
  pose proof (Z.mod_pos_bound (z + 2 ^ 63) (2 ^ 64) ltac:(lia)). lia.
Qed.

Lemma wrap_small z : Int64.in_range z -> Int64.wrap z = z.
Proof.
  unfold Int64.in_range, Int64.wrap. intros Hz.
  rewrite Z.mod_small by lia. lia.
Qed.

Lemma sub_zero_is_zero u :
  Int64.in_range u -> Int64.sub 0 u = 0 -> u = 0.
Proof.
  unfold Int64.in_range, Int64.sub, Int64.wrap. intros Hu Hz.
  assert (Hmod : (0 - u + 2 ^ 63) mod 2 ^ 64 = 2 ^ 63) by lia.
  destruct (decide (u = - 2 ^ 63)) as [->|Hne].
  - exfalso. change ((0 - - 2 ^ 63 + 2 ^ 63) mod 2 ^ 64) with 0 in Hmod. lia.
  - rewrite Z.mod_small in Hmod by lia. lia.
Qed.

Section Padding.
Context {B : Backend}.
Implicit Types (s : Progress) (res : StepResult B)
  (steps : list (StepResult B)).

(** A finished replica gets the padding and stays finished. *)
Lemma decode_step_finished config batch_size pad eos s res s' i :
  decode_step config batch_size (Some pad) eos s res s' ->
  p_unfinished s !! i = Some 0 ->
  tokens res !! i = Some (Int64.wrap pad)
  /\ status res !! i = Some 0
  /\ p_unfinished s' !! i = Some 0.
Proof.
  intros (Hlen & (sampled & Hsampled & Htok) & Hmark & _ & (m & _ & Hstat)
          & _) Hi.
  assert (is_Some (sampled !! i)) as [t Ht].
  { apply lookup_lt_is_Some. rewrite Hsampled, <- Hlen.
    by eapply lookup_lt_Some. }
  assert (Htoki : tokens res !! i = Some (Int64.wrap pad)).
  { rewrite Htok. simpl. rewrite lookup_zip_with, Ht; simpl. rewrite Hi; simpl.
    f_equal. unfold Int64.add, Int64.mul, Int64.sub.
    rewrite Z.mul_0_r. change (Int64.wrap (1 - 0)) with 1.
    change (Int64.wrap 0) with 0. rewrite Z.mul_1_r, Z.add_0_l.
    apply wrap_small, wrap_in_range. }
  assert (Hunf : p_unfinished s' !! i = Some 0).
  { unfold mark_finished in Hmark. destruct eos as [[|e ids]|].
    - done.
    - injection Hmark as <-.
      rewrite lookup_zip_with, Hi; simpl. rewrite Htoki; simpl.
      unfold Int64.mul. by rewrite Z.mul_0_l.
    - by injection Hmark as <-. }
  split_and!; [done| |done].
  rewrite Hstat. destruct (p_new_tokens s' >=? m); [|done].
  by rewrite list_lookup_fmap, Hunf.
Qed.

(** A status of 0 means that the replica is finished after the step. *)
Lemma decode_step_status_zero config batch_size pad e ids s res s' i :
  decode_step config batch_size pad (Some (e :: ids)) s res s' ->
  status res !! i = Some 0 ->
  p_unfinished s' !! i = Some 0.
Proof.
  intros (_ & _ & Hmark & _ & (m & _ & Hstat) & _) Hi.
  injection Hmark as Hmark.
  rewrite Hstat in Hi. destruct (p_new_tokens s' >=? m); [|done].
  rewrite list_lookup_fmap in Hi.
  destruct (p_unfinished s' !! i) as [u|] eqn:Hu; [|done].
  injection Hi as Hi. f_equal. apply sub_zero_is_zero; [|done].
  rewrite <- Hmark in Hu.
  apply lookup_zip_with_Some in Hu as (u0 & t & -> & _ & _).
  apply wrap_in_range.
Qed.

Lemma chain_finished config batch_size pad eos s steps s' i :
  chain (decode_step config batch_size (Some pad) eos) s steps s' ->
  p_unfinished s !! i = Some 0 ->
  forall k res, steps !! k = Some res ->
    tokens res !! i = Some (Int64.wrap pad) /\ status res !! i = Some 0.
Proof.
  revert s; induction steps as [|res0 steps IH]; intros s Hc Hi k res Hk.
  - done.
  - destruct Hc as (s1 & Hstep & Hc).
    destruct (decode_step_finished _ _ _ _ _ _ _ _ Hstep Hi) as (? & ? & ?).
    destruct k as [|k]; simpl in Hk.
    + by injection Hk as <-.
    + by eapply IH.
Qed.

Lemma chain_padded config batch_size pad e ids s steps s' i :
  chain (decode_step config batch_size (Some pad) (Some (e :: ids)))
        s steps s' ->
  forall j k resj resk,
    (j < k)%nat -> steps !! j = Some resj -> steps !! k = Some resk ->
    status resj !! i = Some 0 ->
    tokens resk !! i = Some (Int64.wrap pad) /\ status resk !! i = Some 0.
Proof.
  revert s; induction steps as [|res0 steps IH];
    intros s Hc j k resj resk Hjk Hj Hk Hzero; [done|].
  destruct Hc as (s1 & Hstep & Hc).
  destruct k as [|k]; [lia|]. simpl in Hk.
  destruct j as [|j]; simpl in Hj.
  - injection Hj as ->.
    eapply chain_finished; [done| |done].
    by eapply decode_step_status_zero.
  - eapply (IH s1 Hc j k); [lia|done..].
Qed.

Lemma chain_lengths config batch_size pad eos s steps s' :
  chain (decode_step (B:=B) config batch_size pad eos) s steps s' ->
  forall k res, steps !! k = Some res ->
    length (tokens res) = batch_size /\ length (status res) = batch_size.
Proof.
  revert s; induction steps as [|res0 steps IH]; intros s Hc k res Hk; [done|].
  destruct Hc as (s1 & Hstep & Hc).
  destruct k as [|k]; simpl in Hk; [|by eapply IH].
  injection Hk as ->.
  destruct Hstep as (Hlen & _ & Hmark & _ & (m & _ & Hstat) & Htok & _).
  split; [done|].
  assert (length (p_unfinished s1) = batch_size) as Hlen1.
  { unfold mark_finished in Hmark. destruct eos as [[|e ids]|]; [done| |].
    - injection Hmark as <-. rewrite length_zip_with. lia.
    - by injection Hmark as <-. }
  rewrite Hstat. destruct (_ >=? _); by rewrite ?length_fmap.
Qed.
End Padding.

(** C9. With no pad token id but an end-of-sequence id configured, the loop
    pads with the first end-of-sequence id: in every run of [generate], a
    replica whose status was 0 at some step is given that id as its token
    at every later step, and its status stays 0; every step gives one token
    and one status to each replica of the batch, so the batch stays
    rectangular. *)
Theorem finished_replicas_padded_with_first_eos (B : Backend) (W : Type)
    (h : World B W) (w : W) (fuel : nat) (input_ids : Tensor2) (logprobs : Z)
    (kw : GenerateKwargs) (e : Z) (ids : list Z) :
  pad_token_id (generation_config B) = None ->
  eos_list (eos_token_id (generation_config B)) = Some (e :: ids) ->
  Int64.in_range e ->
  let steps := yielded (events (run h (generate fuel input_ids logprobs kw) w)) in
  padding_id (config_update (generation_config B) kw) = Some e
  /\ (forall k res, steps !! k = Some res ->
        length (tokens res) = length (rows input_ids)
        /\ length (status res) = length (rows input_ids))
  /\ (forall j k i resj resk,
        (j < k)%nat -> steps !! j = Some resj -> steps !! k = Some resk ->
        status resj !! i = Some 0 ->
        tokens resk !! i = Some e /\ status resk !! i = Some 0).
Proof.
  intros Hpad Heos He steps.
  assert (Hp : padding_id (config_update (generation_config B) kw) = Some e).
  { unfold padding_id; simpl. by rewrite Hpad, Heos. }
  destruct (traced_run _ _ _ h w (generate_traced fuel input_ids logprobs kw))
    as (s' & Hchain & _).
  fold steps in Hchain. simpl in Hchain. rewrite Hp in Hchain.
  simpl in Hchain. rewrite Heos in Hchain.
  split_and!; [done| |].
  - intros k res Hk. by eapply chain_lengths.
  - intros j k i resj resk Hjk Hj Hk Hzero.
    rewrite <- (wrap_small e He).
    by eapply chain_padded.
Qed.

(** ** Status codes *)

Section Status.
Context {B : Backend}.
Implicit Types (s : Progress) (res : StepResult B)
  (steps : list (StepResult B)).

Lemma emitted_eos_snoc e steps res i :
  emitted_eos e (steps ++ [res]) i
  = emitted_eos e steps i || bool_decide (tokens res !! i = Some e).
Proof.
  unfold emitted_eos. rewrite existsb_app. simpl. by rewrite orb_false_r.
Qed.

Lemma decode_step_tracks config batch_size pad eos s res s' steps :
  at_most_one_eos eos ->
  decode_step config batch_size pad eos s res s' ->
  tracks eos s steps ->
  tracks eos s' (steps ++ [res])
  /\ exists m, max_new_tokens config = Some m
       /\ forall i c, status res !! i = Some c ->
            c = if stopped_by_eos eos (steps ++ [res]) i then 0
                else if m <=? Z.of_nat (S (length steps)) then -1 else 1.
Proof.
  intros Heos (Hlen & _ & Hmark & Hnew & (m & Hm & Hstat) & Htok & _)
    [Hcount Hunf].
  assert (Hunf' : forall i u, p_unfinished s' !! i = Some u ->
            u = if stopped_by_eos eos (steps ++ [res]) i then 0 else 1).
  { intros i u Hu. destruct Heos as [->|[e ->]].
    - injection Hmark as Hmark. rewrite <- Hmark in Hu.
      simpl. by apply (Hunf i u).
    - injection Hmark as Hmark. rewrite <- Hmark in Hu. simpl.
      apply lookup_zip_with_Some in Hu as (u0 & t & -> & Hu0 & Ht).
      rewrite emitted_eos_snoc, Ht.
      apply Hunf in Hu0. simpl in Hu0. subst u0.
      destruct (emitted_eos e steps i); simpl.
      + unfold Int64.mul. by rewrite Z.mul_0_l.
      + unfold not_eos; simpl. destruct (Z.eqb_spec t e) as [->|Hne].
        * by rewrite bool_decide_eq_true_2.
        * rewrite bool_decide_eq_false_2 by congruence. done. }
  split.
  - split; [|done]. rewrite length_app; simpl. lia.
  - exists m. split; [done|]. intros i c Hc.
    rewrite Hstat in Hc.
    replace (p_new_tokens s' >=? m) with (m <=? Z.of_nat (S (length steps)))
      in Hc by (rewrite Z.geb_leb; f_equal; lia).
    destruct (m <=? Z.of_nat (S (length steps))).
    + rewrite list_lookup_fmap in Hc.
      destruct (p_unfinished s' !! i) as [u|] eqn:Hu; [|done].
      injection Hc as <-. apply Hunf' in Hu as ->.
      by destruct (stopped_by_eos eos (steps ++ [res]) i).
    + by apply Hunf'.
Qed.

Lemma chain_status config batch_size pad eos m s steps s' done_steps :
  at_most_one_eos eos ->
  max_new_tokens config = Some m ->
  chain (decode_step config batch_size pad eos) s steps s' ->
  tracks eos s done_steps ->
  forall k res i c,
    steps !! k = Some res -> status res !! i = Some c ->
    c = status_code eos m (done_steps ++ steps) (length done_steps + k) i.
Proof.
  intros Heos Hm.
  revert s done_steps; induction steps as [|res0 steps IH];
    intros s done_steps Hc Htr k res i c Hk Hi; [done|].
  destruct Hc as (s1 & Hstep & Hc).
  destruct (decode_step_tracks _ _ _ _ _ _ _ _ Heos Hstep Htr)
    as (Htr1 & m' & Hm' & Hstat).
  assert (m' = m) as -> by congruence.
  destruct k as [|k]; simpl in Hk.
  - injection Hk as ->. rewrite (Hstat i c Hi).
    unfold status_code.
    replace (take (S (length done_steps + 0)) (done_steps ++ res :: steps))
      with (done_steps ++ [res]).
    { by rewrite Nat.add_0_r. }
    replace (S (length done_steps + 0)) with (length done_steps + 1)%nat
      by lia.
    by rewrite take_app_add'.
  - rewrite (IH s1 (done_steps ++ [res0]) Hc Htr1 k res i c Hk Hi).
    rewrite <- app_assoc; simpl. rewrite length_app; simpl.
    f_equal. lia.
Qed.
End Status.

(** C1, as the code has it.  With at most one end-of-sequence id configured,
    the status code of a replica at a decoding step of [generate] is 0 if
    the replica has been given the end-of-sequence id at this step or at an
    earlier one, else -1 if the number of new tokens has reached
    [max_new_tokens] at this step, else 1.  So a replica that is still
    unfinished when the step that reaches the cap begins is reported -1
    unless that very step gives it the end-of-sequence id: then it is
    reported 0. *)
Theorem status_code_of_each_step (B : Backend) (W : Type) (h : World B W)
    (w : W) (fuel : nat) (input_ids : Tensor2) (logprobs : Z)
    (kw : GenerateKwargs) :
  let eos := eos_list (eos_token_id (generation_config B)) in
  let steps := yielded (events (run h (generate fuel input_ids logprobs kw) w)) in
  at_most_one_eos eos ->
  forall k res i c,
    steps !! k = Some res -> status res !! i = Some c ->
    c = status_code eos (kw_max_new_tokens kw) steps k i
    /\ (c = 1 \/ c = 0 \/ c = -1)
    /\ (c = 0 <-> stopped_by_eos eos (take (S k) steps) i = true)
    /\ (c = -1 <-> stopped_by_eos eos (take (S k) steps) i = false
                   /\ kw_max_new_tokens kw <= Z.of_nat (S k))
    /\ (c = 1 <-> stopped_by_eos eos (take (S k) steps) i = false
                  /\ Z.of_nat (S k) < kw_max_new_tokens kw).
Proof.
  intros eos steps Heos k res i c Hk Hi.
  destruct (traced_run _ _ _ h w (generate_traced fuel input_ids logprobs kw))
    as (s' & Hchain & _).
  fold steps in Hchain. simpl in Hchain.
  assert (Hc : c = status_code eos (kw_max_new_tokens kw) steps k i).
  { eapply (chain_status _ _ _ _ _ _ _ _ [] Heos) in Hchain; [exact Hchain|..];
      try done.
    split; [done|]. intros j u Hu. simpl.
    apply list_elem_of_lookup_2, elem_of_replicate in Hu as [-> _].
    by destruct eos as [[|? [|]]|]. }
  split; [done|]. subst c. unfold status_code.
  destruct (stopped_by_eos eos (take (S k) steps) i);
    destruct (Z.leb_spec (kw_max_new_tokens kw) (Z.of_nat (S k)));
    split_and!; try (split; intros; try done; try lia; fail); auto.
  all: split; [done|intros [? ?]; lia].
Qed.

(** Status at the cap, on a run: the prompt is [7; 8], the only
    end-of-sequence id is 3, one new token is allowed and the model predicts
    3.  The single step reports 0 where the specification has -1. *)
Lemma status_at_cap_counterexample :
  let cfg := Toy.config (Some (EosList [3])) None in
  let B := Toy.backend cfg false in
  let h := Toy.world cfg false (fun _ _ => Toy.one_hot 3) (fun _ => false)
             (fun _ => 0) in
  let steps :=
    yielded (events (run h (generate 5 (repeat_rows [7; 8] 1) 0
                              (Toy.greedy_kwargs 1)) 0%nat)) in
  ~ (forall k res i c,
       steps !! k = Some res -> status res !! i = Some c ->
       c = specified_status_code
             (eos_list (eos_token_id (generation_config B))) 1 steps k i).
Proof.
  intros cfg B h steps Hspec.
  specialize (Hspec 0%nat _ 0%nat 0 eq_refl eq_refl).
  vm_compute in Hspec. discriminate Hspec.
Qed.

(** ** Greedy decoding *)

Lemma greedy_true_iff (config : GenerationConfig) :
  greedy config = true <->
  (exists p, top_p config = Some p /\ le_zero p = true)
  \/ (exists t, temperature config = Some t /\ le_zero t = true).
Proof.
  unfold greedy. rewrite orb_true_iff.
  destruct (top_p config) as [p|], (temperature config) as [t|];
    split; intros [H|H]; eauto;
    try (destruct H as (? & [= <-] & ?)); try (destruct H as (? & [=] & ?));
    auto; done.
Qed.

Lemma le_zero_finite q : le_zero (Finite q) = true <-> (q <= 0)%Q.
Proof. simpl. apply Qle_bool_iff. Qed.

Section Quiet.
Context {B : Backend} (D : Prop).

Lemma traced_quiet_bind {S A C} s (m : prog B (Choice B) A)
    (f : A -> prog B (Choice B) C) :
  traced (quiet D S (Choice B) A) s m ->
  (forall s' a, traced (quiet D S (Choice B) C) s' (f a)) ->
  traced (quiet D S (Choice B) C) s (m ≫= f).
Proof.
  intros Hm Hf. eapply traced_bind with (Q := fun _ _ => True); [exact Hm|].
  intros s' a _. apply Hf.
Qed.

Lemma traced_quiet_getitem {S A} s (xs : list A) i :
  traced (quiet D S (Choice B) A) s (getitem (B:=B) xs i).
Proof. by apply traced_getitem. Qed.

Lemma traced_quiet_for_each {S X St} s (xs : list X)
    (body : X -> St -> prog B (Choice B) St) st :
  (forall x s st, traced (quiet D S (Choice B) St) s (body x st)) ->
  traced (quiet D S (Choice B) St) s (for_each xs body st).
Proof.
  intros Hbody.
  apply traced_for_each with (I := fun _ _ _ => True); [done| |done].
  intros. apply Hbody.
Qed.

Lemma traced_quiet_decode_with {S} (s : S) i token decoders :
  traced (quiet D S (Choice B) _) s (decode_with (B:=B) i token decoders).
Proof.
  unfold decode_with. apply traced_quiet_bind; [apply traced_quiet_getitem|].
  intros s' d. destruct (decoder_decode B d token). by constructor.
Qed.

Lemma traced_quiet_echo_token {S} (s : S) n logprobs echo token decoders :
  traced (quiet D S (Choice B) _) s
         (echo_token (B:=B) n logprobs echo token decoders).
Proof.
  unfold echo_token. apply traced_quiet_for_each. intros i s' ds.
  apply traced_quiet_bind; [apply traced_quiet_decode_with|].
  intros s'' [[text offset] ds']. destruct echo.
  - apply traced_yield with (s' := s''); [done|]. by constructor.
  - by constructor.
Qed.

Lemma traced_quiet_emit_choice {S} (s : S) logprobs res i st :
  traced (quiet D S (Choice B) _) s (emit_choice (B:=B) logprobs res i st).
Proof.
  unfold emit_choice. apply traced_quiet_bind.
  { unfold update_finish_reason.
    apply traced_quiet_bind; [apply traced_quiet_getitem|].
    intros s' [r|]; [by constructor|].
    apply traced_quiet_bind; [apply traced_quiet_getitem|].
    intros. by constructor. }
  intros s' [frs|]; [|by constructor].
  apply traced_quiet_bind.
  { destruct (0 <? logprobs); [|by constructor].
    repeat (apply traced_quiet_bind; [apply traced_quiet_getitem|]; intros).
    by constructor. }
  intros s1 samples.
  apply traced_quiet_bind; [apply traced_quiet_getitem|]. intros s2 token.
  apply traced_quiet_bind; [apply traced_quiet_decode_with|].
  intros s3 [[text offset] ds].
  apply traced_quiet_bind; [apply traced_quiet_getitem|]. intros s4 r.
  apply traced_yield with (s' := s4); [done|]. by constructor.
Qed.

Lemma traced_quiet_emit_step {S} (s : S) n logprobs res st :
  traced (quiet D S (Choice B) _) s (emit_step (B:=B) n logprobs res st).
Proof.
  unfold emit_step. apply traced_quiet_for_each. intros.
  apply traced_quiet_emit_choice.
Qed.
End Quiet.

Lemma call_body_draws_only_when_sampling (B : Backend) fuel args :
  traced
    (quiet (greedy (config_update (generation_config B)
                      {| kw_min_new_tokens := Z.max (min_tokens args) 0;
                         kw_max_new_tokens := Z.max (max_tokens args) 1;
                         kw_temperature := arg_temperature args;
                         kw_top_p := arg_top_p args |}) = false)
           unit (Choice B) unit)
    tt (call_body (B:=B) fuel args).
Proof.
  set (D := greedy _ = false).
  assert (Hstream : forall input_ids,
            traced (quiet D unit (Choice B) unit) tt
                   (stream_tokens fuel args input_ids)).
  { intros input_ids. unfold stream_tokens.
    apply traced_quiet_bind.
    { apply traced_quiet_for_each. intros. apply traced_quiet_echo_token. }
    intros [] decoders.
    apply traced_quiet_bind; [|intros; by constructor].
    unfold complete.
    eapply traced_for_in with (J := fun _ _ _ => True);
      [apply generate_traced|done|done|..]; try done.
    intros sg res sg' [] st _ _.
    apply (traced_mono (quiet D unit (Choice B) (CallState B)));
      [apply traced_quiet_emit_step|done..]. }
  unfold call_body. destruct (prompt args) as [s|[|d [|d' shape]] data|];
    try apply Hstream; by constructor.
Qed.

(** C6. When [temperature <= 0] or [top_p <= 0], the tokens of every step
    are the arg-max of the softmax rows and no random draw is made: whatever
    the source of randomness, the same call in the same world produces the
    same run, the same step results from [generate] and the same choices
    from the stream. *)
Theorem greedy_decoding_is_deterministic (B : Backend) (W : Type)
    (h : World B W) draw1 draw2 (w : W) (fuel : nat) (args : CallArgs)
    (input_ids : Tensor2) :
  (exists t, arg_temperature args = Some t /\ le_zero t = true)
  \/ (exists p, arg_top_p args = Some p /\ le_zero p = true) ->
  let kw := {| kw_min_new_tokens := Z.max (min_tokens args) 0;
               kw_max_new_tokens := Z.max (max_tokens args) 1;
               kw_temperature := arg_temperature args;
               kw_top_p := arg_top_p args |} in
  let config := config_update (generation_config B) kw in
  (forall batch_size probs,
     select_tokens (B:=B) config batch_size probs = Ret (argmax B <$> probs))
  /\ run (with_multinomial h draw1) (generate fuel input_ids (logprobs args) kw) w
     = run (with_multinomial h draw2) (generate fuel input_ids (logprobs args) kw) w
  /\ run (with_multinomial h draw1) (call_body fuel args) w
     = run (with_multinomial h draw2) (call_body fuel args) w.
Proof.
  intros Hoff kw config.
  assert (Hg : greedy config = true).
  { apply greedy_true_iff. subst config; simpl. tauto. }
  split_and!.
  - intros. unfold select_tokens. by rewrite Hg.
  - eapply traced_deterministic; [apply generate_traced|].
    simpl. fold kw config. by rewrite Hg.
  - eapply traced_deterministic;
      [apply call_body_draws_only_when_sampling|].
    simpl. fold kw config. by rewrite Hg.
Qed.

(** ** Prompt validation *)

(** Calling [__call__] with a prompt that is neither a string nor a 1-d
    tensor does not fail: the call returns a generator. *)
Lemma invalid_prompt_call_returns_a_generator :
  ~ (forall (B : Backend) fuel args,
       str_or_1d_tensor (prompt args) = false ->
       StreamModel_call (B:=B) fuel args = inl TypeError).
Proof.
  intros Hsync.
  specialize (Hsync (Toy.backend (Toy.config None None) false) 1%nat
                bad_prompt_args eq_refl).
  discriminate Hsync.
Qed.

(** C3, as the code has it.  With a prompt that is neither a string nor a
    1-d tensor, the call itself returns the lazy stream; the [TypeError] is
    raised by the first pull from that stream, before any model invocation
    (no event at all precedes it) and before any element is produced. *)
Theorem invalid_prompt_fails_at_first_pull (B : Backend) (fuel : nat)
    (args : CallArgs) :
  str_or_1d_tensor (prompt args) = false ->
  exists g,
    StreamModel_call (B:=B) fuel args = inr g
    /\ forall (W : Type) (h : World B W) (w : W),
         next h g w = ([], Error TypeError, w)
         /\ run h g w = {| events := []; result := Raised TypeError; final := w |}.
Proof.
  intros Hbad. exists (call_body fuel args). split; [done|].
  intros W h w. unfold call_body.
  destruct (prompt args) as [s|[|d [|d' shape]] data|]; try done.
Qed.

Lemma invalid_prompt_fails_at_first_pull_witness :
  let B := Toy.backend (Toy.config None None) false in
  str_or_1d_tensor (prompt bad_prompt_args) = false
  /\ exists g,
       StreamModel_call (B:=B) 1 bad_prompt_args = inr g
       /\ forall (W : Type) (h : World B W) (w : W),
            next h g w = ([], Error TypeError, w)
            /\ run h g w
               = {| events := []; result := Raised TypeError; final := w |}.
Proof.
  intros B. split; [reflexivity|].
  exact (invalid_prompt_fails_at_first_pull B 1 bad_prompt_args eq_refl).
Defined.

(** ** Finish reasons *)

Section FinishReasons.
Context {B : Backend}.
Implicit Types (st : CallState B) (res : StepResult B).

Lemma traced_quiet_any {S Y A} (s : S) (g : prog B Y A) :
  traced (quiet True S Y A) s g.
Proof. induction g; econstructor; eauto; done. Qed.

Lemma emit_choice_visits (D : Prop) {S} (s : S) logprobs res i st :
  traced (returning (quiet D S (Choice B) (CallState B))
                    (fun _ st' => visit_of res i st st'))
         s (emit_choice logprobs res i st).
Proof.
  unfold emit_choice, update_finish_reason.
  destruct (finish_reasons st !! i) as [[r|]|] eqn:Hi.
  - rewrite (getitem_Some _ _ _ Hi). simpl. constructor. simpl.
    unfold visit_of, visited. by rewrite Hi.
  - rewrite (getitem_Some _ _ _ Hi). simpl.
    destruct (status res !! i) as [c|] eqn:Hc.
    2:{ rewrite (getitem_None _ _ Hc). by constructor. }
    rewrite (getitem_Some _ _ _ Hc). simpl.
    set (frs := if c =? 0 then <[i:=Some stop]> (finish_reasons st)
                else if c =? -1
                     then <[i:=Some length_reached]> (finish_reasons st)
                     else finish_reasons st).
    assert (Hvisit : forall ds,
              visit_of res i st {| finish_reasons := frs; decoders := ds |}).
    { intros ds. unfold visit_of, visited; simpl. rewrite Hi, Hc.
      assert (i < length (finish_reasons st))%nat
        by by eapply lookup_lt_Some.
      subst frs. unfold reason_of_status.
      destruct (c =? 0) eqn:E0; [|destruct (c =? -1) eqn:E1];
        rewrite ?length_insert;
        (split_and!;
         [done
         |intros j Hj; by rewrite ?list_lookup_insert_ne
         |intros c' [= <-]; rewrite ?E0, ?E1;
          by rewrite ?list_lookup_insert_eq]). }
    eapply traced_bind with (Q := fun _ _ => True).
    { destruct (0 <? logprobs); [|by constructor].
      repeat (eapply traced_bind with (Q := fun _ _ => True);
              [by apply traced_getitem|]; intros ? ? _).
      by constructor. }
    intros s1 samples _.
    eapply traced_bind with (Q := fun _ _ => True);
      [by apply traced_getitem|]. intros s2 token _.
    eapply traced_bind with (Q := fun _ _ => True).
    { apply (traced_mono (quiet D S (Choice B) _));
        [apply traced_quiet_decode_with|done..]. }
    intros s3 [[text offset] ds] _.
    eapply traced_bind with (Q := fun _ _ => True);
      [by apply traced_getitem|]. intros s4 r _.
    apply traced_yield with (s' := s4); [done|]. constructor. apply Hvisit.
  - rewrite (getitem_None _ _ Hi). by constructor.
Qed.

Lemma visited_ext status i before before' after after' :
  before' !! i = before !! i -> after' !! i = after !! i ->
  visited status i before after -> visited status i before' after'.
Proof. unfold visited. by intros -> ->. Qed.

Lemma emit_step_visits (D : Prop) {S} (s : S) n logprobs res st :
  traced (returning (quiet D S (Choice B) (CallState B))
                    (fun _ st' => step_of n res st st'))
         s (emit_step n logprobs res st).
Proof.
  unfold emit_step.
  apply traced_for_each with
    (I := fun xs _ cur =>
            NoDup xs
            /\ (forall j, j ∈ xs -> (j < n)%nat)
            /\ length (finish_reasons cur) = length (finish_reasons st)
            /\ (forall j, j ∈ xs \/ (n <= j)%nat ->
                  finish_reasons cur !! j = finish_reasons st !! j)
            /\ (forall j, (j < n)%nat -> j ∉ xs ->
                  visited (status res) j (finish_reasons st)
                          (finish_reasons cur))).
  - split_and!; [apply NoDup_seq| |done|done|].
    + intros j Hj%elem_of_seq. lia.
    + intros j Hj Hnin. exfalso. apply Hnin, elem_of_seq. lia.
  - intros x xs' s' cur (Hnd & Hlt & Hlen & Hsame & Hdone).
    apply NoDup_cons in Hnd as [Hx Hnd].
    eapply traced_mono; [apply (emit_choice_visits D)|done|done| |done|done].
    simpl. intros _ cur' (Hlen' & Hother & Hvisit).
    split_and!; [done| | | |].
    + intros j Hj. apply Hlt. by right.
    + congruence.
    + intros j Hj. rewrite Hother.
      * apply Hsame. destruct Hj; [left; by right|by right].
      * destruct Hj as [Hj|Hj]; [by intros ->|].
        assert (x < n)%nat by (apply Hlt; by left). lia.
    + intros j Hj Hnin. destruct (decide (j = x)) as [->|Hne].
      * eapply visited_ext; [| |exact Hvisit]; [|done].
        symmetry. apply Hsame. left. by left.
      * eapply visited_ext; [done| |apply Hdone]; [|done|].
        -- by apply Hother.
        -- intros [->|?]%elem_of_cons; done.
  - simpl. intros _ cur (_ & _ & Hlen & Hsame & Hdone).
    split_and!; [done| |].
    + intros j Hj. apply Hsame. by right.
    + intros j Hj. apply Hdone; [done|]. apply not_elem_of_nil.
Qed.

Lemma step_of_keeps n res st st' :
  step_of n res st st' ->
  keeps_reasons (finish_reasons st) (finish_reasons st').
Proof.
  intros (Hlen & Hout & Hin). split; [done|].
  intros i r Hi. destruct (decide (i < n)%nat) as [Hlt|Hge].
  - specialize (Hin i Hlt). unfold visited in Hin. by rewrite Hi in Hin.
  - rewrite Hout by lia. done.
Qed.

Lemma keeps_reasons_trans a b c :
  keeps_reasons a b -> keeps_reasons b c -> keeps_reasons a c.
Proof. intros [? ?] [? ?]. split; [congruence|eauto]. Qed.

Lemma for_in_emit_step_keeps n logprobs (g : prog B (StepResult B) unit) st :
  traced (returning (quiet True unit (Choice B) (CallState B))
            (fun _ st' =>
               keeps_reasons (finish_reasons st) (finish_reasons st')))
         tt (for_in g (emit_step n logprobs) st).
Proof.
  eapply traced_for_in with
    (cg := quiet True unit (StepResult B) unit) (sg := tt)
    (J := fun _ _ cur =>
            keeps_reasons (finish_reasons st) (finish_reasons cur));
    [apply traced_quiet_any| |done| |done..].
  - by split.
  - intros sg res sg' sc cur _ Hkeep.
    eapply traced_mono; [apply (emit_step_visits True)|done|done| |done|done].
    simpl. intros _ cur' Hstep%step_of_keeps.
    by eapply keeps_reasons_trans.
Qed.
Lemma traced_getitem_in_range {S Y A} (c : Contract S Y A) (s : S)
    (xs : list A) i :
  (i < length xs)%nat ->
  (forall x, xs !! i = Some x -> on_return c s x) ->
  traced c s (getitem (B:=B) xs i).
Proof.
  intros Hi Hret. apply traced_getitem; [done|].
  intros Hnone. apply lookup_ge_None in Hnone. lia.
Qed.

Lemma emit_choice_returns {S} (s : S) n logprobs res i st :
  (i < n)%nat ->
  (n <= length (finish_reasons st))%nat ->
  (n <= length (decoders st))%nat ->
  well_shaped n logprobs res ->
  traced (returns (S:=S) (same_shape st)) s (emit_choice logprobs res i st).
Proof.
  intros Hi Hfr Hdec (Hstat & Htok & Hlp).
  unfold emit_choice, update_finish_reason.
  eapply traced_bind
    with (Q := fun _ u => match u with
                          | Some frs => length frs = length (finish_reasons st)
                          | None => True
                          end).
  { eapply traced_bind with (Q := fun _ _ => True).
    { apply traced_getitem_in_range; [lia|done]. }
    intros s1 [r|] _; [by constructor|].
    eapply traced_bind with (Q := fun _ _ => True).
    { apply traced_getitem_in_range; [lia|done]. }
    intros s2 c _. constructor. simpl.
    repeat case_match; by rewrite ?length_insert. }
  intros s1 [frs|] Hfrs; [|by constructor].
  eapply traced_bind with (Q := fun _ _ => True).
  { destruct (Z.ltb_spec 0 logprobs) as [Hpos|]; [|by constructor].
    destruct (Hlp Hpos) as (? & ? & ?).
    repeat (eapply traced_bind with (Q := fun _ _ => True);
            [apply traced_getitem_in_range; [lia|done]|]; intros ? ? _).
    by constructor. }
  intros s2 samples _.
  eapply traced_bind with (Q := fun _ _ => True).
  { apply traced_getitem_in_range; [lia|done]. }
  intros s3 token _.
  eapply traced_bind
    with (Q := fun _ x => length x.2 = length (decoders st)).
  { unfold decode_with.
    eapply traced_bind with (Q := fun _ _ => True).
    { apply traced_getitem_in_range; [lia|done]. }
    intros s4 d _. destruct (decoder_decode B d token). constructor. simpl.
    by rewrite length_insert. }
  intros s4 [[text offset] ds] Hds. simpl in Hds.
  eapply traced_bind with (Q := fun _ _ => True).
  { apply traced_getitem_in_range; [lia|done]. }
  intros s5 r _.
  apply traced_yield with (s' := s5); [done|]. by constructor.
Qed.

Lemma emit_step_returns {S} (s : S) n logprobs res st :
  (n <= length (finish_reasons st))%nat ->
  (n <= length (decoders st))%nat ->
  well_shaped n logprobs res ->
  traced (returns (S:=S) (same_shape st)) s (emit_step n logprobs res st).
Proof.
  intros Hfr Hdec Hres. unfold emit_step.
  apply traced_for_each with
    (I := fun xs _ cur => (forall j, j ∈ xs -> (j < n)%nat) /\ same_shape st cur).
  - split; [|done]. intros j Hj%elem_of_seq. lia.
  - intros x xs' s' cur [Hlt [Hl1 Hl2]].
    eapply traced_mono;
      [apply (emit_choice_returns s' n logprobs res x cur)|..]; try done.
    + apply Hlt. by left.
    + lia.
    + lia.
    + simpl. intros _ cur' [Hl1' Hl2']. split.
      * intros j Hj. apply Hlt. by right.
      * split; congruence.
  - simpl. by intros _ cur [_ ?].
Qed.
End FinishReasons.

(** C2. The array of finish reasons that [__call__] creates has exactly [n]
    entries, [n] being the replica count after its clamp, all unset.  While
    a step of [generate] is handled the array keeps its length; an entry
    that is set is left as it is; an unset entry becomes "stop" when the
    status of its replica is 0, "length" when it is -1, and stays unset
    otherwise; the handling of a step that has an entry for every replica
    returns.  Over the whole loop, whatever the generator yields, a reason
    once set is never changed. *)
Theorem finish_reasons_set_once (B : Backend) (W : Type) (h : World B W)
    (w : W) :
  (forall args,
     let n' := Z.to_nat (Z.max (n args) 1) in
     let frs := finish_reasons (new_call_state (B:=B) n') in
     length frs = n'
     /\ Z.of_nat n' = Z.max (n args) 1
     /\ forall i, (i < n')%nat -> frs !! i = Some None)
  /\ (forall n logprobs (res : StepResult B) st st',
        result (run h (emit_step n logprobs res st) w) = Returned st' ->
        length (finish_reasons st') = length (finish_reasons st)
        /\ forall i, (i < n)%nat ->
             match finish_reasons st !! i with
             | Some (Some r) => finish_reasons st' !! i = Some (Some r)
             | Some None =>
                 forall c, status res !! i = Some c ->
                   finish_reasons st' !! i
                   = Some (if c =? 0 then Some stop
                           else if c =? -1 then Some length_reached
                           else None)
             | None => True
             end)
  /\ (forall n logprobs (res : StepResult B) st,
        (n <= length (finish_reasons st))%nat ->
        (n <= length (decoders st))%nat ->
        well_shaped n logprobs res ->
        exists st', result (run h (emit_step n logprobs res st) w) = Returned st')
  /\ (forall n logprobs (g : prog B (StepResult B) unit) st st',
        result (run h (for_in g (emit_step n logprobs) st) w) = Returned st' ->
        length (finish_reasons st') = length (finish_reasons st)
        /\ forall i r,
             finish_reasons st !! i = Some (Some r) ->
             finish_reasons st' !! i = Some (Some r)).
Proof.
  split_and!.
  - intros args n' frs. subst frs; simpl. rewrite length_replicate.
    split_and!; [done|lia|]. intros i Hi. by apply lookup_replicate_2.
  - intros n logprobs res st st' Hres.
    destruct (traced_run _ tt _ h w (emit_step_visits True tt n logprobs res st))
      as ([] & _ & Hend).
    rewrite Hres in Hend. simpl in Hend.
    destruct Hend as (Hlen & _ & Hin). split; [done|]. apply Hin.
  - intros n logprobs res st Hfr Hdec Hres.
    destruct (traced_run _ tt _ h w
                (emit_step_returns tt n logprobs res st Hfr Hdec Hres))
      as ([] & _ & Hend).
    destruct (result (run h (emit_step n logprobs res st) w)); [eauto|done..].
  - intros n logprobs g st st' Hres.
    destruct (traced_run _ tt _ h w (for_in_emit_step_keeps n logprobs g st))
      as ([] & _ & Hend).
    rewrite Hres in Hend. exact Hend.
Qed.

(** ** Empty prompt *)

Section EmptyPrompt.
Context {B : Backend}.

Lemma scale_new_ones batch_size e :
  Int64.in_range e ->
  scale (new_ones batch_size) e
  = {| width := 1; rows := replicate batch_size [e] |}.
Proof.
  intros He. unfold scale, new_ones; simpl. f_equal.
  rewrite fmap_replicate. simpl. unfold Int64.mul.
  by rewrite Z.mul_1_l, wrap_small.
Qed.

(** The only step of a generation capped at one new token, for one
    replica and one end-of-sequence id: its status is 0 or -1. *)
Lemma capped_step_status config pad e fuel (res : StepResult B) s' :
  max_new_tokens config = Some 1 ->
  decode_step config 1 pad (Some [e]) (initial_progress fuel 1) res s' ->
  (status res = [0] \/ status res = [-1])
  /\ p_last_status s' = Some (status res).
Proof.
  intros Hm (_ & _ & Hmark & Hnew & (m & Hm' & Hstat) & Htok & _ & _ & _ & _
             & Hlast & _).
  split; [|done].
  assert (m = 1) as -> by congruence.
  simpl in Hnew. rewrite Hnew in Hstat. simpl in Hstat.
  destruct (tokens res) as [|t [|? ?]]; try done.
  injection Hmark as Hmark. rewrite <- Hmark in Hstat. simpl in Hstat.
  rewrite Hstat. unfold not_eos; simpl.
  destruct (t =? e); [by left|by right].
Qed.

Lemma emit_step_single_choice {A} logprobs (res : StepResult B) st
    (Q : nat -> CallState B -> Prop) :
  finish_reasons st !! 0%nat = Some None ->
  status res = [0] \/ status res = [-1] ->
  (forall st', Q 1%nat st') ->
  traced (returning (single_choice (B:=B) A) Q) 0%nat
         (emit_step 1 logprobs res st).
Proof.
  intros Hfr Hstatus HQ. unfold emit_step; simpl.
  eapply traced_bind with (Q := Q); [|intros; by constructor].
  unfold emit_choice, update_finish_reason.
  rewrite (getitem_Some _ _ _ Hfr). simpl.
  assert (exists c r, status res !! 0%nat = Some c
                      /\ reason_of_status c = Some r)
    as (c & r & Hc & Hr).
  { destruct Hstatus as [-> | ->]; simpl; eauto. }
  rewrite (getitem_Some _ _ _ Hc). simpl.
  set (frs := if c =? 0 then _ else _).
  assert (Hfrs : frs !! 0%nat = Some (Some r)).
  { assert (0 < length (finish_reasons st))%nat by by eapply lookup_lt_Some.
    subst frs. unfold reason_of_status in Hr.
    destruct (c =? 0); [|destruct (c =? -1)]; try done;
      rewrite list_lookup_insert_eq by done; congruence. }
  eapply traced_bind with (Q := fun s _ => s = 0%nat).
  { destruct (0 <? logprobs); [|by constructor].
    repeat (eapply traced_bind with (Q := fun s _ => s = 0%nat);
            [by apply traced_getitem|]; intros ? ? ->).
    by constructor. }
  intros ? samples ->.
  eapply traced_bind with (Q := fun s _ => s = 0%nat);
    [by apply traced_getitem|]. intros ? token ->.
  eapply traced_bind with (Q := fun s _ => s = 0%nat).
  { unfold decode_with.
    eapply traced_bind with (Q := fun s _ => s = 0%nat);
      [by apply traced_getitem|]. intros ? d ->.
    destruct (decoder_decode B d token). by constructor. }
  intros ? [[text offset] ds] ->.
  rewrite (getitem_Some _ _ _ Hfrs). simpl.
  apply traced_yield with (s' := 1%nat); [by simpl|].
  constructor. apply HQ.
Qed.

Lemma empty_prompt_single_choice fuel logprobs echo temperature top_p e :
  eos_list (eos_token_id (generation_config B)) = Some [e] ->
  traced (single_choice (B:=B) unit) 0%nat
    (call_body (S fuel) (empty_prompt_args logprobs echo temperature top_p)).
Proof.
  intros Heos. unfold call_body, stream_tokens; simpl.
  set (kw := {| kw_min_new_tokens := _ |}).
  set (lp := Z.max logprobs 0).
  eapply traced_bind with (Q := fun s _ => s = 1%nat);
    [|intros ? ? ->; by constructor].
  unfold complete.
  set (config := config_update (generation_config B) kw).
  pose proof (generate_traced (B:=B) (S fuel) (repeat_rows [] 1) lp kw) as Hg.
  simpl in Hg. fold config in Hg. rewrite Heos in Hg.
  eapply traced_for_in with
    (J := fun sg sc st =>
            (sg = initial_progress (S fuel) 1 /\ sc = 0%nat
             /\ finish_reasons st !! 0%nat = Some None)
            \/ (sc = 1%nat
                /\ exists stt m, p_last_status sg = Some stt
                                 /\ tensor_max stt = Some m /\ m <= 0));
    [exact Hg|by left|done|..].
  - intros sg res sg' sc st Hstep [(-> & -> & Hfr)|(_ & stt & m & Hl & Hm & Hle)].
    + destruct (capped_step_status config (padding_id config) e (S fuel)
                  res sg' eq_refl Hstep) as [Hst Hlast].
      apply emit_step_single_choice; [done..|].
      intros st'. right. split; [done|]. exists (status res).
      destruct Hst as [Hst|Hst]; rewrite Hst; rewrite Hst in Hlast;
        [exists 0|exists (-1)]; (split_and!; [done|reflexivity|lia]).
    + exfalso. destruct Hstep as (_ & _ & _ & _ & _ & _ & _ & _ & _ & _ & _ & _
                                  & Hcont).
      unfold may_continue in Hcont. rewrite Hl in Hcont.
      destruct Hcont as (m' & Hm' & Hpos). rewrite Hm in Hm'.
      injection Hm' as <-. lia.
  - simpl. intros sg sc st [] (stt & m & Hl & _) [(-> & _)|(-> & _)]; done.
  - simpl. intros sg sc st _ Hr [(-> & -> & _)|(-> & stt & m & Hl & Hm & Hle)];
      [done|]. exfalso.
    destruct Hr as [Hcont|(stt' & Hl' & Hn)].
    + unfold may_continue in Hcont. rewrite Hl in Hcont.
      destruct Hcont as (m' & Hm' & Hpos). rewrite Hm in Hm'.
      injection Hm' as <-. lia.
    + congruence.
  - simpl. intros sg sc st [Hf Hcont]
      [(-> & _)|(_ & stt & m & Hl & Hm & Hle)]; [done|].
    unfold may_continue in Hcont. rewrite Hl in Hcont.
    destruct Hcont as (m' & Hm' & Hpos). rewrite Hm in Hm'.
    injection Hm' as <-. lia.
Qed.

Lemma chain_single_choice {A} (ys : list (Choice B)) s s' :
  chain (on_yield (single_choice (B:=B) A)) s ys s' ->
  (ys = [] /\ s' = s)
  \/ (exists c, ys = [c] /\ s = 0%nat /\ s' = 1%nat /\ c_index c = 0
                /\ is_Some (c_finish_reason c)).
Proof.
  destruct ys as [|c ys]; simpl; [by left|].
  intros (s1 & (-> & -> & Hi & Hr) & Hc). right.
  destruct ys as [|c' ys]; simpl in Hc.
  - subst s'. eauto 10.
  - by destruct Hc as (? & (? & _) & _).
Qed.
End EmptyPrompt.

Lemma generate_seeded_first_event (B : Backend) (W : Type) (h : World B W)
    (w : W) fuel input_ids logprobs kw e ids processor :
  is_encoder_decoder B = false ->
  width input_ids = 0%nat ->
  eos_list (eos_token_id (generation_config B)) = Some (e :: ids) ->
  Int64.in_range e ->
  logits_processor (B:=B) (Y:=StepResult B)
    (config_update (generation_config B) kw) 1 = Ret processor ->
  exists evs,
    events (run h (generate (S fuel) input_ids logprobs kw) w)
    = EvForward InferenceMode
        (prepare_inputs_for_generation B
           {| width := 1; rows := replicate (length (rows input_ids)) [e] |}
           (initial_kwargs (config_update (generation_config B) kw)))
      :: evs.
Proof.
  intros Henc Hw Heos He Hbuilt. unfold generate.
  cbn [eos_token_id config_update]. rewrite Heos.
  unfold seed_empty_input, prepare_encoder_decoder. rewrite Hw, Henc.
  unfold default_pad.
  destruct (pad_token_id _);
    unfold getitem, mbind, mret, prog_bind, prog_ret;
    cbn [Nat.eqb lookup list_lookup bind];
    rewrite scale_new_ones by done;
    rewrite Hbuilt;
    cbn [bind decode_loop ls_input_ids ls_kwargs];
    unfold infer, retry, mbind, prog_bind; cbn [retry_call pred bind run];
    destruct (model_forward h _ _ w); cbn [emit events]; eauto.
Qed.

Lemma for_in_first_forward {B : Backend} {X Y St W} (h : World B W) (w : W)
    (g : prog B X unit) (body : X -> St -> prog B Y St) st mode inputs evs :
  events (run h g w) = EvForward mode inputs :: evs ->
  exists evs', events (run h (for_in g body st) w) = EvForward mode inputs :: evs'.
Proof.
  destruct g; simpl; try done.
  - destruct (model_forward h _ _ w). simpl. intros [= -> -> _]. eauto.
  - by destruct (encoder_forward h _ _ w).
  - by destruct (multinomial h _ w).
Qed.

Lemma bind_first_event {B : Backend} {Y A C W} (h : World B W) (w : W)
    (m : prog B Y A) (f : A -> prog B Y C) ev evs :
  events (run h m w) = ev :: evs ->
  exists evs', events (run h (m ≫= f) w) = ev :: evs'.
Proof.
  intros Hev. rewrite run_bind. unfold then_run.
  destruct (result (run h m w)); simpl; rewrite Hev; eauto.
Qed.

(** C7. When the incoming token sequence is empty, [generate] replaces it by
    one token per replica, the first end-of-sequence id when one is
    configured and the placeholder 1 otherwise, and sets the input length
    to 1; for a decoder-only model this seeded history is what the first
    forward pass of the loop is given.  With the end-of-sequence ids [3], an
    empty prompt and [max_tokens = 1], the history is seeded with [3], and
    the stream yields exactly one generated choice before it returns (none
    if an exception ends it first); it never needs a second iteration. *)
Theorem empty_prompt_is_seeded (B : Backend) (W : Type) (h : World B W) (w : W) :
  (forall batch_size eos input_ids input_length,
     width input_ids = 0%nat ->
     (eos = None ->
      seed_empty_input (B:=B) batch_size eos input_ids input_length
      = Ret ({| width := 1; rows := replicate batch_size [1] |}, 1))
     /\ (forall e ids,
           eos = Some (e :: ids) -> Int64.in_range e ->
           seed_empty_input (B:=B) batch_size eos input_ids input_length
           = Ret ({| width := 1; rows := replicate batch_size [e] |}, 1)))
  /\ (forall fuel input_ids logprobs kw e ids processor,
        is_encoder_decoder B = false ->
        width input_ids = 0%nat ->
        eos_list (eos_token_id (generation_config B)) = Some (e :: ids) ->
        Int64.in_range e ->
        logits_processor (B:=B) (Y:=StepResult B)
          (config_update (generation_config B) kw) 1 = Ret processor ->
        exists evs,
          events (run h (generate (S fuel) input_ids logprobs kw) w)
          = EvForward InferenceMode
              (prepare_inputs_for_generation B
                 {| width := 1;
                    rows := replicate (length (rows input_ids)) [e] |}
                 (initial_kwargs (config_update (generation_config B) kw)))
            :: evs)
  /\ (forall fuel logprobs echo temperature top_p,
        eos_list (eos_token_id (generation_config B)) = Some [3] ->
        let args := empty_prompt_args logprobs echo temperature top_p in
        let r := run h (call_body (S fuel) args) w in
        (is_encoder_decoder B = false ->
         (forall t, temperature = Some t -> is_float t = true) ->
         exists kwargs evs,
           events r
           = EvForward InferenceMode
               (prepare_inputs_for_generation B
                  {| width := 1; rows := [[3]] |} kwargs)
             :: evs)
        /\ match result r with
           | Returned _ =>
               exists c, yielded (events r) = [c] /\ c_index c = 0
                         /\ is_Some (c_finish_reason c)
           | Raised _ => yielded (events r) = []
           | Exhausted => False
           end).
Proof.
  split_and!.
  - intros batch_size eos input_ids input_length Hw.
    unfold seed_empty_input. rewrite Hw. simpl. split.
    + by intros ->.
    + intros e ids -> He. simpl. by rewrite scale_new_ones.
  - intros. by eapply generate_seeded_first_event.
  - intros fuel logprobs echo temperature top_p Heos args r. split.
    + intros Henc Hfloat. subst r args.
      unfold call_body, stream_tokens, complete. simpl.
      set (kw := {| kw_min_new_tokens := _ |}).
      destruct (generate_seeded_first_event B W h w fuel (repeat_rows [] 1)
                  (Z.max logprobs 0) kw 3 []
                  (requested (config_update (generation_config B) kw) 1)
                  Henc eq_refl Heos)
        as [evs Hevs]; [done| |].
      { by apply (logits_processor_accepts_floats B _ _ 1 0). }
      eapply for_in_first_forward in Hevs as [evs' Hevs].
      eapply bind_first_event in Hevs as [evs'' Hevs].
      eexists _, _. exact Hevs.
    + destruct (traced_run _ _ _ h w
                  (empty_prompt_single_choice fuel logprobs echo temperature
                     top_p 3 Heos)) as (s' & Hchain & Hend).
      fold args in Hchain, Hend. fold r in Hchain, Hend.
      apply chain_single_choice in Hchain.
      destruct (result r); simpl in Hend.
      * destruct Hchain as [[_ ->]|(c & -> & _ & _ & ? & ?)]; [done|eauto].
      * destruct Hchain as [[-> _]|(c & _ & _ & -> & _)]; done.
      * done.
Qed.

(** ** Enough fuel *)

Section Fuel.
Context {B : Backend}.
Implicit Types (s : Progress) (res : StepResult B)
  (steps : list (StepResult B)).

Lemma decode_step_binary config batch_size pad eos s res s' :
  at_most_one_eos eos ->
  decode_step config batch_size pad eos s res s' ->
  binary (p_unfinished s) -> binary (p_unfinished s').
Proof.
  intros Heos (_ & _ & Hmark & _) Hbin.
  destruct Heos as [->|[e ->]]; injection Hmark as <-; [done|].
  apply Forall_lookup_2. intros i u' Hu'.
  apply lookup_zip_with_Some in Hu' as (u & t & -> & Hu & _).
  eapply Forall_lookup_1 in Hu; [|exact Hbin]. simpl in Hu.
  unfold not_eos; simpl.
  destruct Hu as [-> | ->], (t =? e); vm_compute; auto.
Qed.

Lemma chain_progress config batch_size pad eos m s steps s' :
  at_most_one_eos eos ->
  max_new_tokens config = Some m ->
  chain (decode_step config batch_size pad eos) s steps s' ->
  binary (p_unfinished s) ->
  p_fuel s = (p_fuel s' + length steps)%nat
  /\ p_new_tokens s' = p_new_tokens s + Z.of_nat (length steps)
  /\ binary (p_unfinished s')
  /\ (steps <> [] ->
      p_last_status s'
      = Some (if p_new_tokens s' >=? m
              then (fun u => Int64.sub 0 u) <$> p_unfinished s'
              else p_unfinished s')).
Proof.
  intros Heos Hm. revert s; induction steps as [|res steps IH];
    intros s Hc Hbin; simpl in Hc.
  { subst s'. simpl. split_and!; [lia|lia|done|done]. }
  destruct Hc as (s1 & Hstep & Hc).
  pose proof (decode_step_binary _ _ _ _ _ _ _ Heos Hstep Hbin) as Hbin1.
  destruct (IH s1 Hc Hbin1) as (Hf & Hn & Hb & Hl).
  destruct Hstep as (_ & _ & _ & Hnew & (m' & Hm' & Hstat) & _ & _ & _ & _ & _
                     & Hlast & Hfuel & _).
  assert (m' = m) as -> by congruence.
  simpl. split_and!; [lia|lia|done|].
  intros _. destruct steps as [|res' steps]; [|by apply Hl].
  simpl in Hc. subst s'. by rewrite Hlast, Hstat.
Qed.

Lemma foldl_max_nonpos (l : list Z) x :
  x <= 0 -> Forall (fun y => y <= 0) l -> foldl Z.max x l <= 0.
Proof.
  revert x; induction l as [|y l IH]; intros x Hx Hl; simpl; [done|].
  apply Forall_cons in Hl as [Hy Hl]. apply IH; [lia|done].
Qed.

Lemma capped_status_cannot_continue (unfinished : list Z) mx :
  binary unfinished ->
  tensor_max ((fun u => Int64.sub 0 u) <$> unfinished) = Some mx ->
  mx <= 0.
Proof.
  intros Hbin Hmax.
  assert (Hall : Forall (fun y => y <= 0)
                        ((fun u => Int64.sub 0 u) <$> unfinished)).
  { apply Forall_fmap. eapply Forall_impl; [exact Hbin|].
    intros u [-> | ->]; by vm_compute. }
  destruct ((fun u => Int64.sub 0 u) <$> unfinished) as [|x l]; [done|].
  injection Hmax as <-. apply Forall_cons in Hall as [Hx Hl].
  by apply foldl_max_nonpos.
Qed.

(** With at most one end-of-sequence id, [max(1, max_new_tokens)]
    iterations are enough: [generate] returns or raises, and the loop is
    left at the latest by the step that reaches the cap. *)
Lemma generate_enough_fuel {W} (h : World B W) (w : W) fuel input_ids
    logprobs kw :
  at_most_one_eos (eos_list (eos_token_id (generation_config B))) ->
  Z.max 1 (kw_max_new_tokens kw) <= Z.of_nat fuel ->
  let r := run h (generate fuel input_ids logprobs kw) w in
  result r <> Exhausted
  /\ (length (yielded (events r)) <= fuel)%nat.
Proof.
  intros Heos Hfuel r.
  destruct (traced_run _ _ _ h w (generate_traced fuel input_ids logprobs kw))
    as (s' & Hchain & Hend).
  fold r in Hchain, Hend. simpl in Hchain.
  eapply chain_progress in Hchain as (Hf & Hn & Hb & Hl);
    [|exact Heos|reflexivity|].
  2:{ simpl. apply Forall_forall. intros u Hu%elem_of_replicate. tauto. }
  simpl in Hf, Hn. split; [|lia].
  intros Hex. rewrite Hex in Hend. simpl in Hend.
  destruct Hend as [Hzero Hcont].
  assert (Hne : yielded (events r) <> []).
  { intros Hnil. rewrite Hnil in Hf. simpl in Hf. lia. }
  specialize (Hl Hne).
  unfold may_continue in Hcont. rewrite Hl in Hcont.
  destruct Hcont as (mx & Hmx & Hpos).
  destruct (Z.geb_spec (p_new_tokens s') (kw_max_new_tokens kw)); [|lia].
  apply capped_status_cannot_continue in Hmx; [lia|done].
Qed.

(** With two end-of-sequence ids the sum of line 293 is a count: a replica
    that is given one of them keeps [unfinished = 1] and goes on to the
    cap. *)
Lemma two_eos_ids_do_not_stop :
  let cfg := Toy.config (Some (EosList [3; 4])) None in
  let h := Toy.world cfg false (fun _ _ => Toy.one_hot 3) (fun _ => false)
             (fun _ => 0) in
  let r := run h (generate 5 (repeat_rows [7; 8] 1) 0 (Toy.greedy_kwargs 3))
               0%nat in
  (tokens <$> yielded (events r)) = [[3]; [3]; [3]]
  /\ (status <$> yielded (events r)) = [[1]; [1]; [-1]].
Proof. split; reflexivity. Qed.
End Fuel.

(** * The properties on concrete runs *)

(** With the float temperature 0.5 and [top_p = 1.0] the pipeline is
    minimum-new-tokens, then temperature, and no nucleus filter; with the
    int temperature 2 no pipeline is built. *)
Lemma logits_processor_stages_witness :
  let built := logits_processor (B:=Example.B) (Y:=unit) Example.top_p_one 2 in
  let pipeline := [MinNewTokensLengthLogitsProcessor 2 2 (EosInt 3);
                   TemperatureLogitsWarper (Finite (1 # 2))] in
  built = Ret pipeline
  /\ top_p Example.top_p_one = Some (Finite 1)
  /\ (1 == 1)%Q
  /\ (TopPLogitsWarper (Finite 1) ∉ pipeline)
  /\ temperature Example.int_temperature = Some (PyInt 2)
  /\ logits_processor (B:=Example.B) (Y:=unit) Example.int_temperature 2
     = Raise ValueError.
Proof.
  intros built pipeline.
  assert (H0 : built = Ret pipeline) by reflexivity.
  assert (H1 : top_p Example.top_p_one = Some (Finite 1)) by reflexivity.
  assert (H2 : (1 == 1)%Q) by reflexivity.
  assert (H3 : temperature Example.int_temperature = Some (PyInt 2))
    by reflexivity.
  split_and!; [exact H0|exact H1|exact H2| |exact H3|].
  - pose proof (logits_processor_stages Example.B unit Example.top_p_one 2)
      as (_ & _ & Hbuilt & _).
    destruct (Hbuilt pipeline H0) as (_ & _ & _ & _ & _ & _ & _ & Hoff & _).
    exact (Hoff 1%Q (Finite 1) H1 H2).
  - pose proof (logits_processor_stages Example.B unit
                  Example.int_temperature 2) as (_ & Hraise & _).
    apply Hraise. right. exists 2. split_and!; [exact H3|lia|lia].
Defined.

(** Replica 0 stops on the end-of-sequence id at the first step and replica
    1 runs into the cap at the third: the third step reports 0 and -1. *)
Lemma status_code_of_each_step_witness :
  at_most_one_eos (eos_list (eos_token_id (generation_config Example.B)))
  /\ (status <$> Example.steps) = [[0; 1]; [0; 1]; [0; -1]]
  /\ -1 = status_code (eos_list (eos_token_id (generation_config Example.B)))
                      3 Example.steps 2 1.
Proof.
  assert (H1 : at_most_one_eos
                 (eos_list (eos_token_id (generation_config Example.B)))).
  { right. by exists 3. }
  split_and!; [exact H1|reflexivity|].
  refine (proj1 (status_code_of_each_step Example.B nat
                   (Example.world (fun _ => 0)) 0%nat 5
                   (repeat_rows [7; 8] 2) 0 (Toy.greedy_kwargs 3) H1
                   2%nat _ 1%nat (-1) _ _)); reflexivity.
Defined.

(** Handling a step with status [0; 1] from a fresh state sets the reason of
    replica 0 to "stop" and leaves replica 1 unset. *)
Lemma finish_reasons_set_once_witness :
  let h := Example.world (fun _ => 0) in
  let st := new_call_state (B:=Example.B) 2 in
  let st' := Build_CallState Example.B [Some stop; None] [[3]; [5]] in
  result (run h (emit_step 2 0 Example.step st) 0%nat) = Returned st'
  /\ length (finish_reasons st') = length (finish_reasons st)
  /\ finish_reasons st' !! 0%nat = Some (Some stop).
Proof.
  intros h st st'.
  assert (H1 : result (run h (emit_step 2 0 Example.step st) 0%nat)
               = Returned st') by reflexivity.
  split; [exact H1|].
  pose proof (proj1 (proj2 (finish_reasons_set_once Example.B nat h 0%nat))
                2%nat 0 Example.step st st' H1) as [Hlen Hvisit].
  split; [exact Hlen|].
  exact (Hvisit 0%nat ltac:(lia) 0 eq_refl).
Defined.

(** With [temperature = 0] two sources of randomness give the same run. *)
Lemma greedy_decoding_is_deterministic_witness :
  let h := Example.world (fun _ => 0) in
  let draw1 : list (list (float Example.B)) -> nat -> (nat -> Z) * nat :=
    fun _ c => (fun _ => 0, c) in
  let draw2 : list (list (float Example.B)) -> nat -> (nat -> Z) * nat :=
    fun _ c => (fun i => Z.of_nat i + 1, c) in
  ((exists t, arg_temperature Example.greedy_args = Some t /\ le_zero t = true)
   \/ (exists p, arg_top_p Example.greedy_args = Some p /\ le_zero p = true))
  /\ run (with_multinomial h draw1) (call_body 5 Example.greedy_args) 0%nat
     = run (with_multinomial h draw2) (call_body 5 Example.greedy_args) 0%nat.
Proof.
  intros h draw1 draw2.
  assert (H1 : (exists t, arg_temperature Example.greedy_args = Some t
                          /\ le_zero t = true)
               \/ (exists p, arg_top_p Example.greedy_args = Some p
                             /\ le_zero p = true)).
  { left. exists (Finite 0). split; reflexivity. }
  split; [exact H1|].
  exact (proj2 (proj2 (greedy_decoding_is_deterministic Example.B nat h
                         draw1 draw2 0%nat 5 Example.greedy_args
                         (repeat_rows [7; 8] 2) H1))).
Defined.

(** The empty prompt with the end-of-sequence ids [3]: one choice. *)
Lemma empty_prompt_is_seeded_witness :
  let h := Example.world (fun _ => 0) in
  let r := run h (call_body 1 (empty_prompt_args 0 false None None)) 0%nat in
  eos_list (eos_token_id (generation_config Example.B)) = Some [3]
  /\ result r = Returned tt
  /\ match result r with
     | Returned _ =>
         exists c, yielded (events r) = [c] /\ c_index c = 0
                   /\ is_Some (c_finish_reason c)
     | Raised _ => yielded (events r) = []
     | Exhausted => False
     end.
Proof.
  intros h r.
  assert (H1 : eos_list (eos_token_id (generation_config Example.B)) = Some [3])
    by reflexivity.
  split_and!; [exact H1|reflexivity|].
  exact (proj2 (proj2 (proj2 (empty_prompt_is_seeded Example.B nat h 0%nat))
                  0%nat 0 false None None H1)).
Defined.

(** Replica 0 is finished at the first step; at the second step the model
    predicts 7 for it, and the token it is given is the end-of-sequence id. *)
Lemma finished_replicas_padded_with_first_eos_witness :
  pad_token_id (generation_config Example.B) = None
  /\ eos_list (eos_token_id (generation_config Example.B)) = Some [3]
  /\ Int64.in_range 3
  /\ (tokens <$> Example.steps) = [[3; 5]; [3; 5]; [3; 5]]
  /\ forall resj resk,
       Example.steps !! 0%nat = Some resj ->
       Example.steps !! 1%nat = Some resk ->
       status resj !! 0%nat = Some 0 ->
       tokens resk !! 0%nat = Some 3 /\ status resk !! 0%nat = Some 0.
Proof.
  assert (H1 : pad_token_id (generation_config Example.B) = None)
    by reflexivity.
  assert (H2 : eos_list (eos_token_id (generation_config Example.B))
               = Some [3]) by reflexivity.
  assert (H3 : Int64.in_range 3) by (unfold Int64.in_range; lia).
  split_and!; [exact H1|exact H2|exact H3|reflexivity|].
  intros resj resk.
  exact (proj2 (proj2 (finished_replicas_padded_with_first_eos Example.B nat
                         (Example.world (fun _ => 0)) 0%nat 5
                         (repeat_rows [7; 8] 2) 0 (Toy.greedy_kwargs 3)
                         3 [] H1 H2 H3))
           0%nat 1%nat 0%nat resj resk ltac:(lia)).
Defined.

(** * Further properties *)

(** ** The visit of a replica *)

Section Visit.
Context {B : Backend}.
Implicit Types (st : CallState B) (res : StepResult B).

(** Every way through [emit_choice]: the [continue] of a replica that has
    its reason, an [IndexError], or one choice. *)
Lemma emit_choice_shape {S} (c : Contract S (Choice B) (CallState B)) (s : S)
    logprobs res i st :
  (forall r, finish_reasons st !! i = Some (Some r) -> on_return c s st) ->
  (forall e, ~ readable logprobs res i st -> on_raise c s e) ->
  (forall choice st', emitted logprobs res i st choice st' ->
     exists s', on_yield c s choice s' /\ on_return c s' st') ->
  traced c s (emit_choice logprobs res i st).
Proof.
  intros Hskip Hraise' Hemit.
  assert (Hraise : forall {A} (xs : list A) e,
            xs !! i = None -> (readable logprobs res i st ->
                               (i < length xs)%nat) ->
            on_raise c s e).
  { intros A xs e Hnone Hlt. apply Hraise'. intros Hr.
    apply lookup_ge_None in Hnone. specialize (Hlt Hr). lia. }
  unfold emit_choice, update_finish_reason.
  destruct (finish_reasons st !! i) as [[r|]|] eqn:Hi.
  - rewrite (getitem_Some _ _ _ Hi). simpl. constructor. by eapply Hskip.
  - rewrite (getitem_Some _ _ _ Hi). simpl.
    destruct (status res !! i) as [code|] eqn:Hc.
    2:{ rewrite (getitem_None _ _ Hc). simpl. constructor.
        eapply Hraise; [exact Hc|]. by intros (_ & _ & ? & _). }
    rewrite (getitem_Some _ _ _ Hc). simpl.
    set (frs := if code =? 0 then _ else _).
    assert (Hlt : (i < length (finish_reasons st))%nat)
      by by eapply lookup_lt_Some.
    assert (Hfrs : frs = <[i := reason_of_status code]> (finish_reasons st)).
    { subst frs. unfold reason_of_status.
      destruct (code =? 0); [done|]. destruct (code =? -1); [done|].
      by rewrite list_insert_id. }
    destruct (tokens res !! i) as [token|] eqn:Ht.
    2:{ destruct (0 <? logprobs); simpl;
          rewrite (getitem_None _ _ Ht); simpl; constructor;
          (eapply Hraise; [exact Ht|]; by intros (_ & _ & _ & ? & _)). }
    eapply traced_bind
      with (Q := fun s' samples =>
                   s' = s
                   /\ (logprobs <= 0 -> samples = None)
                   /\ (0 < logprobs ->
                       exists lp tops top_lps,
                         token_logprobs res !! i = Some lp
                         /\ top_tokens res !! i = Some tops
                         /\ top_logprobs res !! i = Some top_lps
                         /\ samples = Some (sample token lp tops top_lps))).
    { destruct (Z.ltb_spec 0 logprobs) as [Hpos|Hnpos].
      - rewrite (getitem_Some _ _ _ Ht). simpl.
        destruct (token_logprobs res !! i) as [lp|] eqn:Hlp.
        2:{ rewrite (getitem_None _ _ Hlp). simpl. constructor.
        eapply Hraise; [exact Hlp|]. intros (_ & _ & _ & _ & Hr). by apply Hr. }
        rewrite (getitem_Some _ _ _ Hlp). simpl.
        destruct (top_tokens res !! i) as [tops|] eqn:Htt.
        2:{ rewrite (getitem_None _ _ Htt). simpl. constructor.
        eapply Hraise; [exact Htt|]. intros (_ & _ & _ & _ & Hr). by apply Hr. }
        rewrite (getitem_Some _ _ _ Htt). simpl.
        destruct (top_logprobs res !! i) as [top_lps|] eqn:Htl.
        2:{ rewrite (getitem_None _ _ Htl). simpl. constructor.
        eapply Hraise; [exact Htl|]. intros (_ & _ & _ & _ & Hr). by apply Hr. }
        rewrite (getitem_Some _ _ _ Htl). simpl.
        constructor. simpl. split_and!; [done|lia|]. intros _. eauto 10.
      - constructor. simpl. split_and!; [done|done|lia]. }
    intros ? samples (-> & Hnone & Hsome).
    rewrite (getitem_Some _ _ _ Ht). simpl.
    unfold decode_with.
    destruct (decoders st !! i) as [d|] eqn:Hd.
    2:{ rewrite (getitem_None _ _ Hd). simpl. constructor.
        eapply Hraise; [exact Hd|]. by intros (_ & ? & _). }
    rewrite (getitem_Some _ _ _ Hd). simpl.
    destruct (decoder_decode B d token) as [text d'] eqn:Hdec. simpl.
    assert (Hfi : frs !! i = Some (reason_of_status code)).
    { rewrite Hfrs. by apply list_lookup_insert_eq. }
    rewrite (getitem_Some _ _ _ Hfi). simpl.
    edestruct (Hemit (map_choice text (Z.of_nat i) (decoder_start B d')
                        (reason_of_status code) samples)
                 {| finish_reasons := frs; decoders := <[i:=d']> (decoders st) |})
      as (s' & Hy & Hr).
    { exists code, token, d. rewrite Hdec. simpl. split_and!; done. }
    apply traced_yield with (s' := s'); [done|]. by constructor.
  - rewrite (getitem_None _ _ Hi). simpl. constructor.
    eapply Hraise; [exact Hi|]. by intros (? & _).
Qed.
End Visit.

(** ** Diagnostics *)

Section Diagnostics.
Context {B : Backend}.
Implicit Types (st : CallState B) (res : StepResult B).








End Diagnostics.



(** ** Order of the choices of a step *)

Section Order.
Context {B : Backend}.
Implicit Types (st : CallState B) (res : StepResult B).

Lemma well_shaped_readable n logprobs res st cur i :
  (i < n)%nat ->
  (n <= length (finish_reasons st))%nat ->
  (n <= length (decoders st))%nat ->
  well_shaped n logprobs res ->
  same_shape st cur ->
  readable logprobs res i cur.
Proof.
  intros Hi Hfr Hdec (Hs & Ht & Hlp) [Hl1 Hl2].
  unfold readable. split_and!; lia.
Qed.

Lemma emit_step_in_order n logprobs res st :
  (n <= length (finish_reasons st))%nat ->
  (n <= length (decoders st))%nat ->
  well_shaped n logprobs res ->
  traced (in_order (fun s _ => s = unset_replicas n (finish_reasons st)))
         [] (emit_step n logprobs res st).
Proof.
  intros Hfr Hdec Hres. unfold emit_step.
  apply traced_for_each with
    (I := fun xs s cur =>
            exists visited_so_far,
              seq 0 n = visited_so_far ++ xs
              /\ s = filter (fun i => is_unset (finish_reasons st) i)
                            visited_so_far
              /\ same_shape st cur
              /\ forall j, j ∈ xs ->
                   finish_reasons cur !! j = finish_reasons st !! j).
  - exists []. split_and!; try done.
  - intros x xs' s cur (vs & Hseq & -> & Hshape & Hsame).
    assert (Hx : (x < n)%nat).
    { assert (x ∈ seq 0 n) as Hin%elem_of_seq by (rewrite Hseq; set_solver).
      lia. }
    assert (Hnd : x ∉ xs').
    { pose proof (NoDup_seq 0 n) as Hnd. rewrite Hseq in Hnd.
      apply NoDup_app in Hnd as (_ & _ & Hnd).
      by apply NoDup_cons in Hnd as [? _]. }
    assert (Hxst : finish_reasons cur !! x = finish_reasons st !! x).
    { apply Hsame. by left. }
    assert (Hseq' : seq 0 n = (vs ++ [x]) ++ xs') by by rewrite <- app_assoc.
    apply emit_choice_shape.
    + intros r Hr. simpl. exists (vs ++ [x]). split_and!; try done.
      * rewrite filter_app, filter_cons_False, filter_nil, app_nil_r; [done|].
        unfold is_unset. rewrite <- Hxst, Hr. simpl. tauto.
      * intros j Hj. apply Hsame. by right.
    + intros e Hnr. simpl. apply Hnr.
      by eapply well_shaped_readable.
    + intros choice cur' (code & token & d & Hi & _ & _ & _ & Hfrs & Hds
                          & Hidx & _).
      exists (filter (fun i => is_unset (finish_reasons st) i) vs ++ [x]).
      split; [simpl; eauto|]. simpl.
      exists (vs ++ [x]). split_and!; try done.
      * rewrite filter_app, filter_cons_True, filter_nil; [done|].
        unfold is_unset. rewrite <- Hxst, Hi. by simpl.
      * destruct Hshape as [Hl1 Hl2]. split.
        -- by rewrite Hfrs, length_insert.
        -- by rewrite Hds, length_insert.
      * intros j Hj. rewrite Hfrs, list_lookup_insert_ne.
        -- apply Hsame. by right.
        -- by intros ->.
  - simpl. intros s cur (vs & Hseq & -> & _). rewrite app_nil_r in Hseq.
    by subst vs.
Qed.

Lemma chain_in_order (Q : list nat -> CallState B -> Prop) s ys s' :
  chain (on_yield (in_order Q)) s ys s' ->
  Z.of_nat <$> s' = (Z.of_nat <$> s) ++ (c_index <$> ys).
Proof.
  revert s; induction ys as [|c ys IH]; intros s; simpl.
  - intros ->. by rewrite app_nil_r.
  - intros (s1 & (i & Hi & ->) & Hc). rewrite (IH _ Hc).
    rewrite fmap_app, <- app_assoc. simpl. by rewrite Hi.
Qed.
End Order.

(** X1. The handling of one step of [generate] that has an entry for every
    replica returns, and yields one choice for each replica that has no
    finish reason yet, in the order of the replica indices; a replica whose
    finish reason is set is skipped. *)
Theorem step_choices_in_replica_order (B : Backend) (W : Type) (h : World B W)
    (w : W) (n : nat) (logprobs : Z) (res : StepResult B) (st : CallState B) :
  (n <= length (finish_reasons st))%nat ->
  (n <= length (decoders st))%nat ->
  well_shaped n logprobs res ->
  let r := run h (emit_step n logprobs res st) w in
  (exists st', result r = Returned st')
  /\ c_index <$> yielded (events r)
     = Z.of_nat <$> unset_replicas n (finish_reasons st).
Proof.
  intros Hfr Hdec Hres r.
  destruct (traced_run _ _ _ h w (emit_step_in_order n logprobs res st
                                    Hfr Hdec Hres)) as (s' & Hchain & Hend).
  fold r in Hchain, Hend.
  apply chain_in_order in Hchain. simpl in Hchain.
  destruct (result r) as [st'| |]; simpl in Hend; [|done..].
  split; [eauto|]. by rewrite <- Hchain, Hend.
Qed.

(** Replica 0 has its reason already: the step yields for replicas 1 and 2. *)
Lemma step_choices_in_replica_order_witness :
  let st := Build_CallState Example.B [Some stop; None; None] [[3]; []; []] in
  let res := Build_StepResult Example.B [3; 5; 6] [1; 1; 1] [[]; []; []]
               [[]; []; []] [0; 1; 1] in
  let r := run (Example.world (fun _ => 0)) (emit_step 3 0 res st) 0%nat in
  (3 <= length (finish_reasons st))%nat
  /\ (3 <= length (decoders st))%nat
  /\ well_shaped 3 0 res
  /\ c_index <$> yielded (events r) = [1; 2].
Proof.
  intros st res r.
  assert (H1 : (3 <= length (finish_reasons st))%nat) by (simpl; lia).
  assert (H2 : (3 <= length (decoders st))%nat) by (simpl; lia).
  assert (H3 : well_shaped 3 0 res).
  { unfold well_shaped; simpl. split_and!; [lia|lia|lia]. }
  split_and!; [exact H1|exact H2|exact H3|].
  exact (proj2 (step_choices_in_replica_order Example.B nat
                  (Example.world (fun _ => 0)) 0%nat 3 0 res st H1 H2 H3)).
Defined.

(** ** Echo of the prompt *)

Section Echo.
Context {B : Backend} {W : Type} (h : World B W).
Implicit Types (ds : list (Decoder B)) (cs : list (Choice B)).

(** The loop over the replicas, for one prompt token. *)
Lemma echo_replicas_run (w : W) logprobs (echo : bool) token k a ds :
  (a + k <= length ds)%nat ->
  exists cs ds',
    run h (for_each (seq a k)
             (fun (i : nat) (decoders : list (Decoder B)) =>
                '(text, offset, decoders) ← decode_with i token decoders;
                if echo
                then Yield (map_choice text (Z.of_nat i) offset None
                              (if 0 <? logprobs
                               then Some (sample token (float_of_int B 0) [] [])
                               else None))
                           (Ret decoders)
                else Ret decoders)
             ds) w
    = {| events := EvYield <$> cs; result := Returned ds'; final := w |}
    /\ length cs = (if echo then k else 0)%nat
    /\ (forall j c, cs !! j = Some c ->
          c_index c = Z.of_nat (a + j) /\ c_finish_reason c = None
          /\ c_samples c = if 0 <? logprobs
                           then Some (sample token (float_of_int B 0) [] [])
                           else None)
    /\ length ds' = length ds
    /\ (forall i, (a <= i < a + k)%nat ->
          ds' !! i = (fun d => (decoder_decode B d token).2) <$> ds !! i)
    /\ (forall i, ~ (a <= i < a + k)%nat -> ds' !! i = ds !! i).
Proof.
  revert a ds; induction k as [|k IH]; intros a ds Hlen.
  { exists [], ds. simpl. split_and!; try done; [by destruct echo|intros; lia]. }
  cbn [seq for_each]. rewrite run_bind.
  destruct (lookup_lt_is_Some_2 ds a) as [d Hd]; [lia|].
  destruct (decoder_decode B d token) as [text d'] eqn:Hdec.
  set (c := map_choice text (Z.of_nat a) (decoder_start B d') None
              (if 0 <? logprobs
               then Some (sample token (float_of_int B 0) [] [])
               else None)).
  match goal with
  | |- context [then_run h (run h ?m w) _] =>
      assert (Hbody : run h m w
                      = {| events := if echo then [EvYield c] else [];
                           result := Returned (<[a:=d']> ds);
                           final := w |})
  end.
  { unfold decode_with. rewrite (getitem_Some _ _ _ Hd). simpl.
    rewrite Hdec. by destruct echo. }
  rewrite Hbody. unfold then_run. cbn [result final events].
  destruct (IH (S a) (<[a:=d']> ds)) as (cs & ds' & Hrun & Hcs & Hprops & Hl
                                          & Hin & Hout).
  { rewrite length_insert. lia. }
  rewrite length_insert in Hl. rewrite Hrun. cbn [result final events].
  assert (Hds' : forall i, (a <= i < a + S k)%nat ->
            ds' !! i = (fun d => (decoder_decode B d token).2) <$> ds !! i).
  { intros i Hi. destruct (decide (i = a)) as [->|Hne].
    - rewrite Hout by lia. rewrite list_lookup_insert_eq by lia.
      rewrite Hd. simpl. by rewrite Hdec.
    - rewrite Hin by lia. by rewrite list_lookup_insert_ne. }
  assert (Hds'' : forall i, ~ (a <= i < a + S k)%nat -> ds' !! i = ds !! i).
  { intros i Hi. rewrite Hout by lia. apply list_lookup_insert_ne. lia. }
  destruct echo.
  - exists (c :: cs), ds'. split; [done|].
    split_and!; try done.
    + simpl. by rewrite Hcs.
    + intros [|j] c0 Hc; simpl in Hc.
      * injection Hc as <-. simpl. by rewrite Nat.add_0_r.
      * destruct (Hprops j c0 Hc) as (Hi & ? & ?). split_and!; try done.
        rewrite Hi. f_equal. lia.
  - exists cs, ds'. split; [done|]. split_and!; try done.
    intros j c0 Hc. apply length_zero_iff_nil in Hcs. by subst cs.
Qed.

(** The echo of one prompt token: every decoder decodes it, and [n] choices
    are yielded if [echo] is set. *)
Lemma echo_token_run (w : W) n logprobs echo token ds :
  length ds = n ->
  exists cs,
    run h (echo_token n logprobs echo token ds) w
    = {| events := EvYield <$> cs; result := Returned (fed ds token);
         final := w |}
    /\ length cs = (if echo then n else 0)%nat
    /\ (forall j c, cs !! j = Some c ->
          c_index c = Z.of_nat j /\ c_finish_reason c = None
          /\ c_samples c = if 0 <? logprobs
                           then Some (sample token (float_of_int B 0) [] [])
                           else None).
Proof.
  intros Hn. unfold echo_token.
  destruct (echo_replicas_run w logprobs echo token n 0 ds)
    as (cs & ds' & Hrun & Hcs & Hprops & Hl & Hin & _); [lia|].
  exists cs. split_and!; [|done|done].
  etrans; [exact Hrun|]. f_equal. f_equal.
  apply list_eq. intros i. unfold fed. rewrite list_lookup_fmap.
  destruct (decide (i < n)%nat) as [Hi|Hi].
  - apply Hin. lia.
  - rewrite !lookup_ge_None_2; [done|lia|lia].
Qed.

(** The echo loop (lines 64-71). *)
Lemma echo_loop_run (w : W) n logprobs echo input_ids ds :
  length ds = n ->
  exists cs,
    run h (for_each input_ids (echo_token n logprobs echo) ds) w
    = {| events := EvYield <$> cs;
         result := Returned (foldl fed ds input_ids);
         final := w |}
    /\ length cs = (if echo then length input_ids * n else 0)%nat
    /\ (forall j c, cs !! j = Some c -> echoed n logprobs input_ids j c).
Proof.
  revert ds; induction input_ids as [|token input_ids IH]; intros ds Hn.
  { exists []. simpl. split_and!; [done|by destruct echo|done]. }
  cbn [for_each foldl]. rewrite run_bind.
  destruct (echo_token_run w n logprobs echo token ds Hn)
    as (cs1 & Hrun1 & Hcs1 & Hprops1).
  destruct (IH (fed ds token)) as (cs2 & Hrun2 & Hcs2 & Hprops2).
  { unfold fed. by rewrite length_fmap. }
  rewrite Hrun1. unfold then_run. cbn [result final events]. rewrite Hrun2.
  cbn [result final events].
  exists (cs1 ++ cs2). split_and!.
  - by rewrite fmap_app.
  - rewrite length_app, Hcs1, Hcs2. destruct echo; simpl; lia.
  - intros j c Hc.
    assert (Hecho : echo = true).
    { destruct echo; [done|]. simpl in Hcs1, Hcs2.
      apply length_zero_iff_nil in Hcs1, Hcs2. by subst cs1 cs2. }
    subst echo.
    destruct (decide (j < n)%nat) as [Hj|Hj].
    + rewrite lookup_app_l in Hc by lia.
      destruct (Hprops1 j c Hc) as (Hi & Hf & Hs).
      unfold echoed. rewrite Nat.mod_small, Nat.div_small by done.
      split_and!; [done..|]. by exists token.
    + rewrite lookup_app_r in Hc by lia. rewrite Hcs1 in Hc.
      destruct (Hprops2 _ c Hc) as (Hi & Hf & t & Ht & Hs).
      assert (n <> 0)%nat.
      { intros ->. simpl in Hcs2. rewrite Nat.mul_0_r in Hcs2.
        apply length_zero_iff_nil in Hcs2. by subst cs2. }
      assert (Hmod : (j mod n = (j - n) mod n)%nat).
      { replace j with ((j - n) + 1 * n)%nat at 1 by lia.
        apply Nat.Div0.mod_add. }
      assert (Hdiv : (j / n = S ((j - n) / n))%nat).
      { replace j with ((j - n) + 1 * n)%nat at 1 by lia.
        rewrite Nat.div_add by done. lia. }
      unfold echoed. rewrite Hmod, Hdiv.
      split_and!; [done..|]. by exists t.
Qed.
End Echo.

Section Stream.
Context {B : Backend} {W : Type} (h : World B W).

(** [__call__] is the echo loop followed by the generation loop. *)
Lemma stream_tokens_run (w : W) fuel args input_ids :
  let n := replicas args in
  let logprobs := Z.max (logprobs args) 0 in
  let r := run h (stream_tokens fuel args input_ids) w in
  let r2 := run h (complete fuel n input_ids logprobs (generate_kwargs args)
                     (completion_state n input_ids)) w in
  exists cs,
    events r = (EvYield <$> cs) ++ events r2
    /\ result r = ended (result r2)
    /\ final r = final r2
    /\ length cs = (if echo args then length input_ids * n else 0)%nat
    /\ (forall j c, cs !! j = Some c -> echoed n logprobs input_ids j c).
Proof.
  cbv zeta. unfold stream_tokens, replicas, generate_kwargs, completion_state.
  cbv zeta. simpl decoders. simpl finish_reasons.
  generalize (Z.to_nat (Z.max (n args) 1)) as n.
  generalize (Z.max (logprobs args) 0) as logprobs. intros logprobs n.
  destruct (echo_loop_run h w n logprobs (echo args) input_ids
              (replicate n (new_decoder B))) as (cs & Hrun & Hcs & Hprops).
  { by rewrite length_replicate. }
  exists cs. rewrite run_bind, Hrun. unfold then_run.
  cbn [result final events]. rewrite run_bind. unfold then_run.
  match goal with |- context [run h (complete ?f ?a ?b ?c ?d ?e) w] =>
    destruct (result (run h (complete f a b c d e) w)) end;
    simpl; split_and!; try done.
  by rewrite app_nil_r.
Qed.

Lemma call_body_stream_tokens fuel args input_ids :
  prompt_tokens (B:=B) (prompt args) = Some input_ids ->
  call_body (B:=B) fuel args = stream_tokens fuel args input_ids.
Proof.
  unfold call_body, prompt_tokens.
  destruct (prompt args) as [s|[|d [|d' shape]] data|]; by intros [= <-].
Qed.
End Stream.

(** X2. With [echo] set, [__call__] first yields one choice per prompt token
    and replica, token by token and replica by replica, each without finish
    reason and, when log-probabilities are asked for, with the token itself
    at log-probability [float(0)] as diagnostics; no model call precedes
    them.  What follows is exactly the run of the same call without [echo]:
    the decoders decode the prompt either way. *)
Theorem echo_prepends_prompt_choices (B : Backend) (W : Type) (h : World B W)
    (w : W) (fuel : nat) (args : CallArgs) (input_ids : list Z) :
  prompt_tokens (B:=B) (prompt args) = Some input_ids ->
  let r1 := run h (call_body fuel (with_echo args true)) w in
  let r0 := run h (call_body fuel (with_echo args false)) w in
  exists cs,
    events r1 = (EvYield <$> cs) ++ events r0
    /\ result r1 = result r0
    /\ final r1 = final r0
    /\ length cs = (length input_ids * replicas args)%nat
    /\ forall j c, cs !! j = Some c ->
         echoed (replicas args) (Z.max (logprobs args) 0) input_ids j c.
Proof.
  intros Hp r1 r0. subst r1 r0.
  rewrite (call_body_stream_tokens fuel (with_echo args true) input_ids Hp).
  rewrite (call_body_stream_tokens fuel (with_echo args false) input_ids Hp).
  destruct (stream_tokens_run h w fuel (with_echo args true) input_ids)
    as (cs1 & He1 & Hr1 & Hf1 & Hl1 & Hp1).
  destruct (stream_tokens_run h w fuel (with_echo args false) input_ids)
    as (cs0 & He0 & Hr0 & Hf0 & Hl0 & _).
  simpl in Hl0. apply length_zero_iff_nil in Hl0. subst cs0.
  simpl in He0. exists cs1. rewrite He1, He0, Hr1, Hr0, Hf1, Hf0.
  split_and!; done.
Qed.

(** The prompt [7; 8] echoed for two replicas: four choices. *)
Lemma echo_prepends_prompt_choices_witness :
  let h := Example.world (fun _ => 0) in
  let r1 := run h (call_body 5 (with_echo Example.greedy_args true)) 0%nat in
  let r0 := run h (call_body 5 (with_echo Example.greedy_args false)) 0%nat in
  prompt_tokens (B:=Example.B) (prompt Example.greedy_args) = Some [7; 8]
  /\ exists cs,
       events r1 = (EvYield <$> cs) ++ events r0
       /\ length cs = 4%nat
       /\ (c_index <$> cs) = [0; 1; 0; 1].
Proof.
  intros h r1 r0.
  assert (H1 : prompt_tokens (B:=Example.B) (prompt Example.greedy_args)
               = Some [7; 8]) by reflexivity.
  split; [exact H1|].
  destruct (echo_prepends_prompt_choices Example.B nat h 0%nat 5
              Example.greedy_args [7; 8] H1) as (cs & He & _ & _ & Hl & Hc).
  exists cs. split_and!; [exact He|exact Hl|].
  destruct cs as [|c0 [|c1 [|c2 [|c3 [|? ?]]]]]; try discriminate Hl.
  simpl. f_equal; [|f_equal; [|f_equal; [|f_equal]]].
  - exact (proj1 (Hc 0%nat c0 eq_refl)).
  - exact (proj1 (Hc 1%nat c1 eq_refl)).
  - exact (proj1 (Hc 2%nat c2 eq_refl)).
  - exact (proj1 (Hc 3%nat c3 eq_refl)).
Defined.

(** ** One finish reason per replica *)

Section Finishing.
Context {B : Backend}.
Implicit Types (st : CallState B) (res : StepResult B)
  (s : list (option FinishReason)).

Lemma emit_step_finishing n logprobs res st :
  traced (returning (finishing (B:=B) (CallState B))
            (fun s st' => s = finish_reasons st'))
         (finish_reasons st) (emit_step n logprobs res st).
Proof.
  unfold emit_step.
  apply traced_for_each with (I := fun _ s cur => s = finish_reasons cur);
    [done| |done].
  intros i _ s cur ->. apply emit_choice_shape; simpl; [done..|].
  intros c cur' (code & token & d & Hi & _ & _ & _ & Hfrs & _ & Hidx & Hfr & _).
  exists (finish_reasons cur'). split; [|done].
  exists i. by rewrite Hfr, Hfrs.
Qed.

Lemma echo_token_finishing n logprobs echo token ds :
  traced (returning (finishing (B:=B) (list (Decoder B)))
            (fun s _ => s = replicate n None))
         (replicate n None) (echo_token n logprobs echo token ds).
Proof.
  unfold echo_token.
  apply traced_for_each
    with (I := fun xs s _ => s = replicate n None /\ Forall (fun i => (i < n)%nat) xs).
  - split; [done|]. apply Forall_forall. intros i Hi%elem_of_seq. lia.
  - intros i xs s cur [-> [Hi Hxs]%Forall_cons]. unfold decode_with.
    destruct (cur !! i) as [d|] eqn:Hd.
    2:{ rewrite (getitem_None _ _ Hd). by constructor. }
    rewrite (getitem_Some _ _ _ Hd). simpl.
    destruct (decoder_decode B d token) as [text d']. simpl.
    destruct echo; [|by constructor].
    apply traced_yield with (s' := replicate n None); [|by constructor].
    exists i. simpl. split_and!; [done| |].
    + by apply lookup_replicate_2.
    + rewrite list_insert_id; [done|]. by apply lookup_replicate_2.
  - by intros s cur [-> _].
Qed.

Lemma call_body_finishing fuel args :
  traced (finishing (B:=B) unit) (replicate (replicas args) None)
         (call_body (B:=B) fuel args).
Proof.
  unfold call_body.
  assert (Hs : forall ids,
            traced (finishing (B:=B) unit) (replicate (replicas args) None)
                   (stream_tokens (B:=B) fuel args ids)).
  { intros ids. unfold stream_tokens, replicas. cbv zeta.
    generalize (Z.to_nat (Z.max (n args) 1)) as n. intros n. simpl decoders.
    simpl finish_reasons.
    eapply traced_bind with (Q := fun s _ => s = replicate n None).
    { apply traced_for_each with (I := fun _ s _ => s = replicate n None);
        [done| |done].
      intros token _ s ds ->. apply echo_token_finishing. }
    intros ? ds ->.
    eapply traced_bind with (Q := fun _ _ => True); [|by constructor].
    unfold complete.
    eapply traced_for_in
      with (cg := quiet True unit (StepResult B) unit) (sg := tt)
           (J := fun _ s st => s = finish_reasons st);
      [apply traced_quiet_any|done..| |done|done|done].
    intros _ res _ s st _ ->. apply emit_step_finishing. }
  destruct (prompt args) as [text|[|d [|d' shape]] data|];
    try apply Hs; by constructor.
Qed.

Lemma chain_finishing {A} (cs : list (Choice B)) s s' :
  chain (on_yield (finishing (B:=B) A)) s cs s' ->
  length s' = length s
  /\ (forall i r, s !! i = Some (Some r) ->
        s' !! i = Some (Some r)
        /\ forall c, c ∈ cs -> c_index c <> Z.of_nat i)
  /\ (forall c, c ∈ cs -> 0 <= c_index c < Z.of_nat (length s))
  /\ (forall j k cj ck, (j < k)%nat ->
        cs !! j = Some cj -> cs !! k = Some ck ->
        c_index cj = c_index ck -> c_finish_reason cj = None).
Proof.
  revert s; induction cs as [|c cs IH]; intros s; simpl.
  { intros ->. split_and!; try done.
    - intros i r Hi. split; [done|]. by intros c Hc%elem_of_nil.
    - by intros c Hc%elem_of_nil. }
  intros (s1 & (i & Hidx & Hi & ->) & Hc).
  destruct (IH _ Hc) as (Hlen & Hset & Hrange & Hlast).
  rewrite length_insert in Hlen, Hrange.
  assert (Hlt : (i < length s)%nat) by by eapply lookup_lt_Some.
  split_and!; [done| | |].
  - intros i' r Hi'. assert (i' <> i) by (intros ->; congruence).
    destruct (Hset i' r) as [Hs' Hnot];
      [by rewrite list_lookup_insert_ne|].
    split; [done|]. intros c' [->|Hc']%elem_of_cons; [lia|by apply Hnot].
  - intros c' [->|Hc']%elem_of_cons; [lia|by apply Hrange].
  - intros j k cj ck Hjk Hj Hk Hsame.
    destruct k as [|k]; [lia|]. simpl in Hk.
    destruct j as [|j]; [|by eapply (Hlast j k); [lia|..]].
    injection Hj as <-.
    destruct (c_finish_reason c) as [r|] eqn:Hr; [|done].
    destruct (Hset i r) as [_ Hnot]; [by apply list_lookup_insert_eq|].
    destruct (Hnot ck); [by eapply list_elem_of_lookup_2|congruence].
Qed.
End Finishing.

(** X3. Every choice [__call__] yields, echoed or generated, is for a
    replica index in [0, n), with [n = max(n, 1)]; and once a choice of a
    replica carries a finish reason, no later choice is for that replica:
    a finish reason comes with the last choice of its replica only.  This
    holds for every model and every run, also one that ends in an
    exception. *)
Theorem finish_reason_ends_replica (B : Backend) (W : Type) (h : World B W)
    (w : W) (fuel : nat) (args : CallArgs) :
  let cs := yielded (events (run h (call_body fuel args) w)) in
  (forall c, c ∈ cs -> 0 <= c_index c < Z.of_nat (replicas args))
  /\ (forall j k cj ck, (j < k)%nat ->
        cs !! j = Some cj -> cs !! k = Some ck ->
        c_index cj = c_index ck -> c_finish_reason cj = None).
Proof.
  intros cs.
  destruct (traced_run _ _ _ h w (call_body_finishing fuel args))
    as (s' & Hchain & _).
  apply chain_finishing in Hchain as (_ & _ & Hrange & Hlast).
  rewrite length_replicate in Hrange. by split.
Qed.

(** Two replicas of the prompt [7; 8], echoed: the choices at positions 5
    and 6 are both for replica 1, so the one at position 5 has no finish
    reason. *)
Lemma finish_reason_ends_replica_witness :
  let cs := yielded (events (run (Example.world (fun _ => 0))
                               (call_body 5 Example.greedy_args) 0%nat)) in
  exists cj ck,
    cs !! 5%nat = Some cj /\ cs !! 6%nat = Some ck
    /\ c_index cj = c_index ck
    /\ c_finish_reason cj = None
    /\ 0 <= c_index cj < 2.
Proof.
  intros cs.
  destruct (finish_reason_ends_replica Example.B nat
              (Example.world (fun _ => 0)) 0%nat 5 Example.greedy_args)
    as [Hrange Hlast].
  fold cs in Hrange, Hlast.
  destruct (cs !! 5%nat) as [cj|] eqn:Hj; [|by vm_compute in Hj].
  destruct (cs !! 6%nat) as [ck|] eqn:Hk; [|by vm_compute in Hk].
  assert (Hsame : c_index cj = c_index ck).
  { vm_compute in Hj, Hk. injection Hj as <-. by injection Hk as <-. }
  exists cj, ck. split_and!; [done|done|exact Hsame| | |].
  - apply (Hlast 5%nat 6%nat cj ck); [lia|exact Hj|exact Hk|exact Hsame].
  - apply Hrange. by eapply list_elem_of_lookup_2.
  - apply Hrange. by eapply list_elem_of_lookup_2.
Defined.

(** ** The decoding loop under its cap *)

Section Cap.
Context {B : Backend}.
Implicit Types (s : Progress) (res : StepResult B) (st : CallState B).

Lemma tensor_max_ge (t : list Z) m :
  tensor_max t = Some m -> Forall (fun x => x <= m) t.
Proof.
  destruct t as [|x t]; [done|]. simpl. intros [= <-].
  assert (H : forall l a, a <= foldl Z.max a l
                          /\ Forall (fun y => y <= foldl Z.max a l) l).
  { induction l as [|y l IH]; intros a; simpl; [split; [lia|done]|].
    destruct (IH (Z.max a y)) as [Ha Hl]. split; [lia|].
    apply Forall_cons. split; [lia|done]. }
  destruct (H t x). by apply Forall_cons.
Qed.

Lemma on_track_initial fuel batch_size m :
  on_track batch_size m (initial_progress fuel batch_size).
Proof.
  unfold on_track; simpl. split_and!; [|lia|lia|done].
  apply Forall_forall. intros u Hu%elem_of_replicate. tauto.
Qed.

Lemma decode_step_on_track config batch_size pad eos m s res s' :
  at_most_one_eos eos ->
  max_new_tokens config = Some m ->
  decode_step config batch_size pad eos s res s' ->
  on_track batch_size m s ->
  on_track batch_size m s' /\ p_new_tokens s' = p_new_tokens s + 1.
Proof.
  intros Heos Hm Hstep (Hbin & Hnew & Hlast).
  pose proof (decode_step_binary _ _ _ _ _ _ _ Heos Hstep Hbin) as Hbin'.
  destruct Hstep as (_ & _ & _ & Hnew' & (m' & Hm' & Hstat) & _ & _ & _ & _
                     & Hlen & Hlast' & _ & Hcont).
  assert (m' = m) as -> by congruence.
  split; [|done]. unfold on_track. rewrite Hlast'.
  split_and!; [done|lia| |done|done].
  unfold may_continue in Hcont.
  destruct (p_last_status s) as [stt|]; [|lia].
  destruct Hlast as [_ ->]. destruct Hcont as (mx & Hmx & Hpos).
  destruct (Z.geb_spec (p_new_tokens s) m); [|lia].
  apply capped_status_cannot_continue in Hmx; [lia|done].
Qed.

(** A status that lets [generate] return signals a finish reason for every
    replica. *)
Lemma on_track_stopped batch_size m s stt mx i code :
  on_track batch_size m s ->
  p_last_status s = Some stt ->
  tensor_max stt = Some mx -> mx <= 0 ->
  stt !! i = Some code ->
  is_Some (reason_of_status code).
Proof.
  intros (Hbin & _ & Hlast) Hstt Hmx Hle Hi. rewrite Hstt in Hlast.
  destruct Hlast as [_ Heq].
  apply tensor_max_ge in Hmx.
  eapply Forall_lookup_1 in Hmx; [|exact Hi]. simpl in Hmx.
  assert (Hcode : code = 0 \/ code = -1).
  { subst stt. destruct (p_new_tokens s >=? m).
    - apply list_lookup_fmap_Some in Hi as (u & -> & Hu).
      eapply Forall_lookup_1 in Hu; [|exact Hbin].
      destruct Hu as [-> | ->]; [by left|by right].
    - eapply Forall_lookup_1 in Hi; [|exact Hbin].
      destruct Hi as [-> | ->]; [by left|lia]. }
  destruct Hcode as [-> | ->]; by eexists.
Qed.

Lemma complete_all_finished fuel n input_ids logprobs kw st :
  at_most_one_eos (eos_list (eos_token_id (generation_config B))) ->
  (n <= length (finish_reasons st))%nat ->
  traced (returning (quiet True unit (Choice B) (CallState B))
            (fun _ st' => all_finished n st'))
         tt (complete fuel n input_ids logprobs kw st).
Proof.
  intros Heos Hlen. unfold complete.
  pose proof (generate_traced (B:=B) fuel (repeat_rows input_ids n) logprobs kw)
    as Hg.
  simpl in Hg. rewrite length_replicate in Hg.
  set (m := kw_max_new_tokens kw).
  eapply traced_for_in with
    (J := fun sg _ cur =>
            on_track n m sg
            /\ (n <= length (finish_reasons cur))%nat
            /\ forall stt, p_last_status sg = Some stt ->
                 forall i code, (i < n)%nat -> stt !! i = Some code ->
                   is_Some (reason_of_status code) ->
                   exists r, finish_reasons cur !! i = Some (Some r));
    [exact Hg| |done| | |done|done].
  - split_and!; [apply on_track_initial|done|done].
  - intros sg res sg' [] cur Hstep (Htrack & Hn & Hdone).
    destruct (decode_step_on_track
                (config_update (generation_config B) kw) _ _ _ m _ _ _
                Heos eq_refl Hstep Htrack) as [Htrack' _].
    assert (Hlast : p_last_status sg' = Some (status res))
      by apply Hstep.
    eapply traced_mono; [apply (emit_step_visits True)|done|done| |done|done].
    simpl. intros _ cur' (Hlen' & _ & Hvisit).
    split_and!; [done|lia|].
    intros stt Hstt i code Hi Hcode [r Hr].
    assert (stt = status res) as -> by congruence.
    specialize (Hvisit i Hi). unfold visited in Hvisit.
    destruct (finish_reasons cur !! i) as [[r'|]|] eqn:Hcur.
    + eauto.
    + exists r. rewrite (Hvisit code Hcode). by rewrite Hr.
    + apply lookup_ge_None in Hcur. lia.
  - simpl. intros sg [] cur [] (stt & mx & Hstt & Hmx & Hle)
      (Htrack & Hn & Hdone) i Hi.
    assert (Hl : length stt = n).
    { destruct Htrack as (_ & _ & Hlast). rewrite Hstt in Hlast.
      by destruct Hlast. }
    destruct (lookup_lt_is_Some_2 stt i) as [code Hcode]; [lia|].
    eapply Hdone; [done|done|exact Hcode|].
    by eapply on_track_stopped.
Qed.
End Cap.

(** ** Every replica ends with a finish reason *)

Section Completion.
Context {B : Backend}.
Implicit Types (st : CallState B) (cs : list (Choice B))
  (s : list (option FinishReason)).

Lemma yielded_app {Y} (evs1 evs2 : list (event B Y)) :
  yielded (evs1 ++ evs2) = yielded evs1 ++ yielded evs2.
Proof. unfold yielded. apply omap_app. Qed.

Lemma yielded_yields {Y} (ys : list Y) :
  yielded (B:=B) (EvYield <$> ys) = ys.
Proof. induction ys as [|y ys IH]; simpl; [done|]. by f_equal. Qed.

Lemma complete_finishing fuel n input_ids logprobs kw st :
  traced (returning (finishing (B:=B) (CallState B))
            (fun s st' => s = finish_reasons st'))
         (finish_reasons st) (complete fuel n input_ids logprobs kw st).
Proof.
  unfold complete.
  eapply traced_for_in
    with (cg := quiet True unit (StepResult B) unit) (sg := tt)
         (J := fun _ s cur => s = finish_reasons cur);
    [apply traced_quiet_any|done..| |by intros|done|done].
  intros _ res _ s cur _ ->. apply emit_step_finishing.
Qed.

(** A reason that appears in the state was carried by a choice. *)
Lemma chain_finishing_set {A} cs s s' i r :
  chain (on_yield (finishing (B:=B) A)) s cs s' ->
  s !! i = Some None -> s' !! i = Some (Some r) ->
  exists c, c ∈ cs /\ c_index c = Z.of_nat i /\ c_finish_reason c = Some r.
Proof.
  revert s; induction cs as [|c cs IH]; intros s; simpl.
  { intros -> Hi Hi'. congruence. }
  intros (s1 & (i0 & Hidx & Hi0 & ->) & Hc) Hi Hi'.
  assert (Hlt : (i0 < length s)%nat) by by eapply lookup_lt_Some.
  destruct (decide (i0 = i)) as [->|Hne].
  - destruct (c_finish_reason c) as [r0|] eqn:Hr.
    + destruct (chain_finishing (A:=A) _ _ _ Hc) as (_ & Hset & _).
      destruct (Hset i r0) as [Hs' _]; [by apply list_lookup_insert_eq|].
      exists c. split_and!; [by left|done|congruence].
    + destruct (IH _ Hc) as (c' & Hin & Hc'); [|done|].
      * by rewrite list_lookup_insert_eq.
      * exists c'. split; [by right|done].
  - destruct (IH _ Hc) as (c' & Hin & Hc'); [|done|].
    + by rewrite list_lookup_insert_ne.
    + exists c'. split; [by right|done].
Qed.

Lemma call_body_invalid_prompt fuel args :
  prompt_tokens (B:=B) (prompt args) = None ->
  call_body (B:=B) fuel args = Raise TypeError.
Proof.
  unfold call_body, prompt_tokens.
  by destruct (prompt args) as [text|[|d [|d' shape]] data|].
Qed.
End Completion.

(** X4. With at most one end-of-sequence id configured, a call that
    returns (its stream ends without an exception) has given every replica
    a finish reason: for every replica index below [max(n, 1)] some choice
    of that replica carries a finish reason, and it is the last choice of
    the replica. *)
Theorem returned_call_finished_every_replica (B : Backend) (W : Type)
    (h : World B W) (w : W) (fuel : nat) (args : CallArgs) :
  at_most_one_eos (eos_list (eos_token_id (generation_config B))) ->
  let r := run h (call_body fuel args) w in
  result r = Returned tt ->
  forall i, (i < replicas args)%nat ->
    exists j c reason,
      yielded (events r) !! j = Some c
      /\ c_index c = Z.of_nat i
      /\ c_finish_reason c = Some reason
      /\ forall k ck, yielded (events r) !! k = Some ck ->
           c_index ck = Z.of_nat i -> (k <= j)%nat.
Proof.
  intros Heos r Hret i Hi.
  assert (Hin : exists c reason, c ∈ yielded (events r)
                  /\ c_index c = Z.of_nat i
                  /\ c_finish_reason c = Some reason).
  { subst r. destruct (prompt_tokens (B:=B) (prompt args)) as [ids|] eqn:Hp.
    2:{ by rewrite (call_body_invalid_prompt fuel args Hp) in Hret. }
    rewrite (call_body_stream_tokens fuel args ids Hp) in Hret |- *.
    destruct (stream_tokens_run h w fuel args ids)
      as (cs & -> & Hres & _). rewrite Hres in Hret.
    set (n := replicas args) in *. set (lp := Z.max (logprobs args) 0) in *.
    set (g := complete fuel n ids lp (generate_kwargs args)
                (completion_state n ids)) in *.
    destruct (traced_run _ _ _ h w
                (complete_finishing fuel n ids lp (generate_kwargs args)
                   (completion_state n ids))) as (s' & Hchain & Hend).
    destruct (traced_run _ tt _ h w
                (complete_all_finished fuel n ids lp (generate_kwargs args)
                   (completion_state n ids) Heos
                   ltac:(simpl; rewrite length_replicate; lia)))
      as ([] & _ & Hall).
    fold g in Hchain, Hend, Hall.
    destruct (result (run h g w)) as [st'| |]; try done.
    simpl in Hend, Hall. subst s'.
    destruct (Hall i Hi) as [reason Hreason].
    destruct (chain_finishing_set _ _ _ i reason Hchain)
      as (c & Hc & Hidx & Hr); [|done|].
    { simpl. by apply lookup_replicate_2. }
    exists c, reason. split; [|done].
    rewrite yielded_app, yielded_yields. apply elem_of_app. by right. }
  destruct Hin as (c & reason & [j Hj]%list_elem_of_lookup_1 & Hidx & Hr).
  exists j, c, reason. split_and!; [done..|].
  intros k ck Hk Hidx'.
  destruct (traced_run _ _ _ h w (call_body_finishing fuel args))
    as (s' & Hchain & _).
  apply chain_finishing in Hchain as (_ & _ & _ & Hlast).
  destruct (decide (k <= j)%nat) as [|Hgt]; [done|].
  assert (Hnone : c_finish_reason c = None).
  { apply (Hlast j k c ck); [lia|done|done|congruence]. }
  congruence.
Qed.

(** Two replicas of [7; 8], at most three new tokens: the call returns, and
    the last choice of replica 1, the one at position 7, has a finish
    reason. *)
Lemma returned_call_finished_every_replica_witness :
  let r := run (Example.world (fun _ => 0))
               (call_body 5 Example.greedy_args) 0%nat in
  at_most_one_eos (eos_list (eos_token_id (generation_config Example.B)))
  /\ result r = Returned tt
  /\ exists j c reason,
       yielded (events r) !! j = Some c
       /\ c_index c = 1
       /\ c_finish_reason c = Some reason.
Proof.
  intros r.
  assert (H1 : at_most_one_eos
                 (eos_list (eos_token_id (generation_config Example.B))))
    by (right; by exists 3).
  assert (H2 : result r = Returned tt) by (vm_compute; reflexivity).
  assert (H3 : (1 < replicas Example.greedy_args)%nat) by (vm_compute; lia).
  split_and!; [exact H1|exact H2|].
  destruct (returned_call_finished_every_replica Example.B nat
              (Example.world (fun _ => 0)) 0%nat 5 Example.greedy_args
              H1 H2 1%nat H3) as (j & c & reason & Hj & Hidx & Hr & _).
  by exists j, c, reason.
Defined.

(** ** No more choices than the cap *)

Section Counting.
Context {B : Backend}.
Implicit Types (st : CallState B) (res : StepResult B)
  (cs : list (Choice B)) (s : nat -> nat).

Lemma emit_step_counting M n logprobs res st s :
  (forall j, (s j + 1 <= M)%nat) ->
  traced (returning (counting (B:=B) M (CallState B))
            (fun s' _ => forall j, (s' j <= s j + 1)%nat))
         s (emit_step n logprobs res st).
Proof.
  intros HM. unfold emit_step.
  apply traced_for_each with
    (I := fun xs s' _ =>
            NoDup xs
            /\ forall j, (s' j <= s j + 1)%nat /\ (j ∈ xs -> s' j = s j)).
  - split; [apply NoDup_seq|]. intros j. split; [lia|done].
  - intros x xs' s' cur [[Hx Hnd]%NoDup_cons Hs].
    apply emit_choice_shape; simpl; [|done|].
    + intros _ _. split; [done|]. intros j. split; [apply Hs|].
      intros Hj. apply Hs. by right.
    + intros c cur' (code & token & d & _ & _ & _ & _ & _ & _ & Hidx & _).
      exists (fun j => if decide (j = x) then S (s' j) else s' j).
      assert (Hsx : s' x = s x) by (apply Hs; by left).
      split.
      * exists x. split_and!; [done|done|].
        intros j. destruct (decide (j = x)) as [->|Hne].
        -- rewrite Hsx. specialize (HM x). lia.
        -- destruct (Hs j) as [Hle _]. specialize (HM j). lia.
      * split; [done|]. intros j. destruct (decide (j = x)) as [->|Hne].
        -- split; [rewrite Hsx; lia|]. intros Hj. done.
        -- split; [apply Hs|]. intros Hj. apply Hs. by right.
  - simpl. intros s' cur [_ Hs] j. apply Hs.
Qed.

Lemma complete_counting fuel n input_ids logprobs kw st :
  at_most_one_eos (eos_list (eos_token_id (generation_config B))) ->
  traced (counting (B:=B) (Z.to_nat (Z.max 1 (kw_max_new_tokens kw)))
            (CallState B))
         (fun _ => 0%nat) (complete fuel n input_ids logprobs kw st).
Proof.
  intros Heos. unfold complete.
  pose proof (generate_traced (B:=B) fuel (repeat_rows input_ids n) logprobs kw)
    as Hg.
  simpl in Hg. rewrite length_replicate in Hg.
  set (m := kw_max_new_tokens kw).
  eapply traced_for_in with
    (J := fun sg s _ =>
            on_track n m sg /\ forall j, Z.of_nat (s j) <= p_new_tokens sg);
    [exact Hg| |done| |done..].
  - split; [apply on_track_initial|]. intros j. simpl. lia.
  - intros sg res sg' s cur Hstep [Htrack Hs].
    destruct (decode_step_on_track
                (config_update (generation_config B) kw) _ _ _ m _ _ _
                Heos eq_refl Hstep Htrack) as [Htrack' Hnew].
    assert (Hle : p_new_tokens sg' <= Z.max 1 m) by apply Htrack'.
    assert (HM : forall j, (s j + 1 <= Z.to_nat (Z.max 1 m))%nat).
    { intros j. specialize (Hs j). lia. }
    eapply traced_mono;
      [exact (emit_step_counting _ n logprobs res cur s HM)
      |done|done| |done|done].
    simpl. intros s' _ Hs'. split; [done|].
    intros j. specialize (Hs j). specialize (Hs' j). lia.
Qed.

Lemma chain_counting {A} M cs s s' :
  chain (on_yield (counting (B:=B) M A)) s cs s' ->
  (forall j, (s j <= M)%nat) ->
  forall i, s' i = (s i + length (choices_of i cs))%nat /\ (s' i <= M)%nat.
Proof.
  revert s; induction cs as [|c cs IH]; intros s; simpl.
  { intros -> Hs i. split; [lia|done]. }
  intros (s1 & (i0 & Hidx & Hs1 & HM) & Hc) Hs i.
  destruct (IH _ Hc HM i) as [Heq Hle]. split; [|done].
  rewrite Heq, Hs1. unfold choices_of.
  destruct (decide (i = i0)) as [->|Hne].
  - rewrite filter_cons_True by done. simpl. lia.
  - rewrite filter_cons_False; [done|]. rewrite Hidx. lia.
Qed.
End Counting.

(** X5. With at most one end-of-sequence id configured, no replica is
    yielded more than [max(max_tokens, 1)] generated choices, whatever the
    model answers and however the call ends; the generated choices are the
    ones that follow the echo of the prompt, if any. *)
Theorem generated_choices_within_max_tokens (B : Backend) (W : Type)
    (h : World B W) (w : W) (fuel : nat) (args : CallArgs)
    (input_ids : list Z) :
  at_most_one_eos (eos_list (eos_token_id (generation_config B))) ->
  prompt_tokens (B:=B) (prompt args) = Some input_ids ->
  let cs := yielded (events (run h (call_body fuel args) w)) in
  let echoes :=
    (if echo args then length input_ids * replicas args else 0)%nat in
  forall i,
    Z.of_nat (length (choices_of i (drop echoes cs)))
    <= Z.max (max_tokens args) 1.
Proof.
  intros Heos Hp cs echoes i. subst cs.
  rewrite (call_body_stream_tokens fuel args input_ids Hp).
  destruct (stream_tokens_run h w fuel args input_ids)
    as (cs & -> & _ & _ & Hlen & _).
  rewrite yielded_app, yielded_yields.
  fold echoes in Hlen. rewrite <- Hlen, drop_app_length.
  destruct (traced_run _ _ _ h w
              (complete_counting fuel (replicas args) input_ids
                 (Z.max (logprobs args) 0) (generate_kwargs args)
                 (completion_state (replicas args) input_ids) Heos))
    as (s' & Hchain & _).
  destruct (chain_counting _ _ _ _ Hchain ltac:(intros; simpl; lia) i)
    as [Heq Hle].
  simpl in Heq. rewrite Heq in Hle.
  change (kw_max_new_tokens (generate_kwargs args))
    with (Z.max (max_tokens args) 1) in Hle.
  lia.
Qed.

(** Two replicas of [7; 8], echoed, at most three new tokens: replica 1
    gets three generated choices. *)
Lemma generated_choices_within_max_tokens_witness :
  let cs := yielded (events (run (Example.world (fun _ => 0))
                               (call_body 5 Example.greedy_args) 0%nat)) in
  at_most_one_eos (eos_list (eos_token_id (generation_config Example.B)))
  /\ prompt_tokens (B:=Example.B) (prompt Example.greedy_args) = Some [7; 8]
  /\ Z.of_nat (length (choices_of 1 (drop 4 cs))) <= 3.
Proof.
  intros cs.
  assert (H1 : at_most_one_eos
                 (eos_list (eos_token_id (generation_config Example.B))))
    by (right; by exists 3).
  assert (H2 : prompt_tokens (B:=Example.B) (prompt Example.greedy_args)
               = Some [7; 8]) by reflexivity.
  split_and!; [exact H1|exact H2|].
  exact (generated_choices_within_max_tokens Example.B nat
           (Example.world (fun _ => 0)) 0%nat 5 Example.greedy_args [7; 8]
           H1 H2 1%nat).
Defined.

(** ** When the decoding loop goes on, and when it stops *)

Section Loop.
Context {B : Backend}.
Implicit Types (s : Progress) (res : StepResult B)
  (steps : list (StepResult B)).

(** In a chain of steps the loop was re-entered after every step but the
    last, and the progress remembers the status of the last one. *)
Lemma chain_continues config batch_size pad eos s steps s' :
  chain (decode_step (B:=B) config batch_size pad eos) s steps s' ->
  (forall k res, steps !! k = Some res -> (S k < length steps)%nat ->
     exists m, tensor_max (status res) = Some m /\ 0 < m)
  /\ (forall res, last steps = Some res -> p_last_status s' = Some (status res)).
Proof.
  revert s; induction steps as [|res steps IH]; intros s; simpl.
  { intros ->. split; [by intros k res Hk|by intros res Hl]. }
  intros (s1 & Hstep & Hc).
  destruct (IH _ Hc) as [Hpos Hlast].
  assert (Hs1 : p_last_status s1 = Some (status res)) by apply Hstep.
  split.
  - intros [|k] res' Hk Hlt; simpl in Hk.
    + injection Hk as <-. destruct steps as [|res2 steps]; [simpl in Hlt; lia|].
      simpl in Hc. destruct Hc as (s2 & Hstep2 & _).
      assert (Hcont : may_continue s1) by apply Hstep2.
      unfold may_continue in Hcont. by rewrite Hs1 in Hcont.
    + apply (Hpos k); [done|simpl in Hlt; lia].
  - intros res' Hl. destruct steps as [|res2 steps].
    + simpl in Hl, Hc. injection Hl as <-. by subst s'.
    + apply Hlast. by rewrite last_cons_cons in Hl.
Qed.

(** Under a cap of [m] new tokens, a chain from the start has at most
    [max 1 m] steps. *)
Lemma chain_on_track config batch_size pad eos m s steps s' :
  at_most_one_eos eos ->
  max_new_tokens config = Some m ->
  chain (decode_step (B:=B) config batch_size pad eos) s steps s' ->
  on_track batch_size m s ->
  on_track batch_size m s'
  /\ p_new_tokens s' = p_new_tokens s + Z.of_nat (length steps).
Proof.
  intros Heos Hm. revert s; induction steps as [|res steps IH];
    intros s Hc Htrack; simpl in Hc.
  { subst s'. split; [done|simpl; lia]. }
  destruct Hc as (s1 & Hstep & Hc).
  destruct (decode_step_on_track _ _ _ _ _ _ _ _ Heos Hm Hstep Htrack)
    as [Htrack1 Hnew].
  destruct (IH _ Hc Htrack1) as [Htrack' Hnew'].
  split; [done|]. simpl. lia.
Qed.
End Loop.

(** X6. [generate] goes on exactly while some replica is unfinished: in
    every run, the status of every step but the last one has a positive
    maximum; and when [generate] returns it has yielded at least one step,
    and no entry of the status of the last step is positive. *)
Theorem generate_goes_on_while_unfinished (B : Backend) (W : Type)
    (h : World B W) (w : W) (fuel : nat) (input_ids : Tensor2) (logprobs : Z)
    (kw : GenerateKwargs) :
  let r := run h (generate fuel input_ids logprobs kw) w in
  let steps := yielded (events r) in
  (forall k res, steps !! k = Some res -> (S k < length steps)%nat ->
     exists m, tensor_max (status res) = Some m /\ 0 < m)
  /\ (result r = Returned tt ->
      exists res, last steps = Some res
                  /\ Forall (fun code => code <= 0) (status res)).
Proof.
  intros r steps.
  destruct (traced_run _ _ _ h w (generate_traced fuel input_ids logprobs kw))
    as (s' & Hchain & Hend).
  fold r in Hchain, Hend. fold steps in Hchain.
  destruct (chain_continues _ _ _ _ _ _ _ Hchain) as [Hpos Hlast].
  split; [done|].
  intros Hret. rewrite Hret in Hend. simpl in Hend.
  destruct Hend as (stt & m & Hstt & Hm & Hle).
  destruct (last steps) as [res|] eqn:Hl.
  - exists res. split; [done|].
    specialize (Hlast res eq_refl). rewrite Hstt in Hlast.
    injection Hlast as <-. apply tensor_max_ge in Hm.
    eapply Forall_impl; [exact Hm|]. simpl. lia.
  - apply last_None in Hl. rewrite Hl in Hchain. simpl in Hchain.
    by subst s'.
Qed.

(** Two replicas, three new tokens at most: the first of the three steps
    has a positive status, and the run returns after the last. *)
Lemma generate_goes_on_while_unfinished_witness :
  let r := run (Example.world (fun _ => 0))
               (generate 5 (repeat_rows [7; 8] 2) 0 (Toy.greedy_kwargs 3))
               0%nat in
  let steps := yielded (events r) in
  result r = Returned tt
  /\ (exists res, steps !! 0%nat = Some res
                  /\ exists m, tensor_max (status res) = Some m /\ 0 < m)
  /\ (exists res, last steps = Some res
                  /\ Forall (fun code => code <= 0) (status res)).
Proof.
  intros r steps.
  destruct (generate_goes_on_while_unfinished Example.B nat
              (Example.world (fun _ => 0)) 0%nat 5 (repeat_rows [7; 8] 2) 0
              (Toy.greedy_kwargs 3)) as [Hpos Hlast].
  fold r in Hpos, Hlast. fold steps in Hpos, Hlast.
  assert (Hret : result r = Returned tt) by (vm_compute; reflexivity).
  split_and!; [exact Hret| |exact (Hlast Hret)].
  destruct (steps !! 0%nat) as [res|] eqn:H0; [|by vm_compute in H0].
  exists res. split; [done|].
  apply (Hpos 0%nat res H0). vm_compute. lia.
Defined.

(** X7. With at most one end-of-sequence id configured, [generate] yields
    at most [max(1, max_new_tokens)] steps, whatever the model answers; so
    that many iterations of its [while True] loop always suffice: it returns
    or raises. *)
Theorem generate_stops_at_the_cap (B : Backend) (W : Type) (h : World B W)
    (w : W) (fuel : nat) (input_ids : Tensor2) (logprobs : Z)
    (kw : GenerateKwargs) :
  at_most_one_eos (eos_list (eos_token_id (generation_config B))) ->
  let r := run h (generate fuel input_ids logprobs kw) w in
  Z.of_nat (length (yielded (events r))) <= Z.max 1 (kw_max_new_tokens kw)
  /\ (Z.max 1 (kw_max_new_tokens kw) <= Z.of_nat fuel ->
      result r <> Exhausted).
Proof.
  intros Heos r. split.
  - destruct (traced_run _ _ _ h w
                (generate_traced fuel input_ids logprobs kw))
      as (s' & Hchain & _).
    fold r in Hchain.
    eapply chain_on_track in Hchain as [(_ & Hle & _) Hnew];
      [|exact Heos|reflexivity|apply on_track_initial].
    simpl in Hnew. lia.
  - intros Hfuel.
    apply (generate_enough_fuel h w fuel input_ids logprobs kw Heos Hfuel).
Qed.

(** Three new tokens at most: three steps, and five iterations suffice. *)
Lemma generate_stops_at_the_cap_witness :
  let r := run (Example.world (fun _ => 0))
               (generate 5 (repeat_rows [7; 8] 2) 0 (Toy.greedy_kwargs 3))
               0%nat in
  at_most_one_eos (eos_list (eos_token_id (generation_config Example.B)))
  /\ Z.of_nat (length (yielded (events r))) <= 3
  /\ result r <> Exhausted.
Proof.
  intros r.
  assert (H1 : at_most_one_eos
                 (eos_list (eos_token_id (generation_config Example.B))))
    by (right; by exists 3).
  destruct (generate_stops_at_the_cap Example.B nat
              (Example.world (fun _ => 0)) 0%nat 5 (repeat_rows [7; 8] 2) 0
              (Toy.greedy_kwargs 3) H1) as [Hle Hfuel].
  split_and!; [exact H1|exact Hle|].
  apply Hfuel. vm_compute. discriminate.
Defined.

(** ** Encoder-decoder models *)

(** X8. For an encoder-decoder model and a non-empty prompt, the first thing
    [generate] does is to call the encoder, in inference mode, on the
    prompt.  Once the encoder has answered, the decoder does not start from
    the prompt: provided the logits pipeline can be built, its first forward
    pass is on one token per replica, the decoder start token or else the
    beginning-of-sequence token, with the encoder outputs among the keyword
    arguments; when neither token is configured, [generate] raises a
    [TypeError] and yields nothing. *)
Theorem encoder_decoder_starts_from_start_token (B : Backend) (W : Type)
    (h : World B W) (w : W) (fuel : nat) (input_ids : Tensor2) (logprobs : Z)
    (kw : GenerateKwargs) (processor : list LogitsProcessor) :
  is_encoder_decoder B = true ->
  (0 < width input_ids)%nat ->
  eos_list (eos_token_id (generation_config B)) <> Some [] ->
  let config := config_update (generation_config B) kw in
  logits_processor (B:=B) (Y:=StepResult B) config 1 = Ret processor ->
  let r := run h (generate (S fuel) input_ids logprobs kw) w in
  (exists evs,
     events r = EvEncode InferenceMode (encoder_call input_ids) :: evs)
  /\ forall enc w1,
       encoder_forward h InferenceMode (encoder_call input_ids) w
       = (inr enc, w1) ->
       match start_token config with
       | None =>
           events r = [EvEncode InferenceMode (encoder_call input_ids)]
           /\ result r = Raised TypeError
       | Some d =>
           exists evs,
             events r
             = EvEncode InferenceMode (encoder_call input_ids)
               :: EvForward InferenceMode
                    (prepare_inputs_for_generation B
                       (scale (new_ones (length (rows input_ids))) d)
                       (decoder_kwargs config enc))
               :: evs
       end.
Proof.
  intros Henc Hw Heos config Hbuilt r. subst r. unfold generate. fold config.
  assert (Hpad : exists pad,
            default_pad (B:=B) (pad_token_id config)
              (eos_list (eos_token_id config)) = Ret pad).
  { unfold default_pad. destruct (pad_token_id config); [by eexists|].
    change (eos_token_id config) with (eos_token_id (generation_config B)).
    destruct (eos_list (eos_token_id (generation_config B))) as [[|e ids]|];
      [done|by eexists..]. }
  destruct Hpad as [pad ->].
  unfold seed_empty_input, prepare_encoder_decoder.
  destruct (Nat.eqb_spec (width input_ids) 0) as [|_]; [lia|].
  rewrite Henc.
  unfold infer, retry, mbind, mret, prog_bind, prog_ret.
  cbn [retry_call pred bind run kw_output_attentions kw_output_hidden_states].
  change (Build_EncoderKwargs false false input_ids true)
    with (encoder_call input_ids).
  destruct (encoder_forward h InferenceMode (encoder_call input_ids) w)
    as [ans w'] eqn:Hans.
  cbn [emit events result]. split; [eauto|].
  intros enc w1 [= -> ->]. cbn [bind].
  unfold start_token.
  change (decoder_start_token_id config)
    with (decoder_start_token_id (generation_config B)).
  change (bos_token_id config) with (bos_token_id (generation_config B)).
  destruct (decoder_start_token_id (generation_config B)) as [d|];
    [|destruct (bos_token_id (generation_config B)) as [d|]];
    cbn [bind run events result]; try done;
    rewrite Hbuilt; cbn [bind run decode_loop ls_input_ids ls_kwargs];
    unfold infer, retry, mbind, prog_bind; cbn [retry_call pred bind run];
    destruct (model_forward h _ _ w1); cbn [emit events]; eauto.
Qed.

(** A model whose decoder starts from token 0: the encoder gets the prompt
    [7; 8], the decoder starts from [0]. *)
Lemma encoder_decoder_starts_from_start_token_witness :
  let r := run Seq2Seq.world
               (generate 3 (repeat_rows [7; 8] 1) 0 (Toy.greedy_kwargs 2))
               0%nat in
  is_encoder_decoder Seq2Seq.B = true
  /\ (0 < width (repeat_rows [7%Z; 8%Z] 1))%nat
  /\ eos_list (eos_token_id (generation_config Seq2Seq.B)) <> Some []
  /\ exists evs,
       events r
       = EvEncode InferenceMode (encoder_call (repeat_rows [7; 8] 1))
         :: EvForward (B:=Seq2Seq.B) InferenceMode
              {| width := 1; rows := [[0]] |}
         :: evs.
Proof.
  intros r.
  assert (H1 : is_encoder_decoder Seq2Seq.B = true) by reflexivity.
  assert (H2 : (0 < width (repeat_rows [7%Z; 8%Z] 1))%nat) by (simpl; lia).
  assert (H3 : eos_list (eos_token_id (generation_config Seq2Seq.B))
               <> Some []) by discriminate.
  split_and!; [exact H1|exact H2|exact H3|].
  destruct (encoder_decoder_starts_from_start_token Seq2Seq.B nat
              Seq2Seq.world 0%nat 2 (repeat_rows [7; 8] 1) 0
              (Toy.greedy_kwargs 2) [] H1 H2 H3 eq_refl) as [_ Hstart].
  exact (Hstart tt 1%nat eq_refl).
Defined.

(** ** An empty list of end-of-sequence ids *)

Section NoEos.
Context {B : Backend}.

(** The first iteration fails at line 294 at the latest, before its
    [yield]. *)
Lemma decode_loop_fruitless fuel config batch_size logprobs pad
    input_length processor (st : LoopState B) :
  traced (fruitless unit (StepResult B) unit) tt
    (decode_loop fuel config batch_size logprobs pad (Some []) input_length
       processor st).
Proof.
  destruct fuel as [|fuel]; [by constructor|]. cbn [decode_loop].
  eapply traced_bind with (Q := fun _ _ => True).
  { by apply traced_infer_forward. }
  intros [] outputs _.
  eapply traced_bind with (Q := fun _ _ => True).
  { unfold select_tokens. destruct (greedy config); [by constructor|].
    constructor; [done|]. intros drawn. by constructor. }
  intros [] sampled _.
  eapply traced_bind with (Q := fun _ _ => True).
  { unfold collect_token_logprobs. destruct (mapM _ _); by constructor. }
  intros [] lps _.
  eapply traced_bind with (Q := fun _ _ => True).
  { unfold collect_top_logprobs. destruct (_ || _); by constructor. }
  intros [] [top_lps top_toks] _.
  unfold mark_finished. simpl. by constructor.
Qed.

Lemma generate_fruitless fuel input_ids logprobs kw :
  eos_list (eos_token_id (generation_config B)) = Some [] ->
  traced (fruitless unit (StepResult B) unit) tt
    (generate (B:=B) fuel input_ids logprobs kw).
Proof.
  intros Heos. unfold generate. cbn [eos_token_id config_update].
  rewrite Heos.
  eapply traced_bind with (Q := fun _ _ => True).
  { unfold default_pad. destruct (pad_token_id _); by constructor. }
  intros [] pad _.
  eapply traced_bind with (Q := fun _ _ => True).
  { unfold seed_empty_input. destruct (_ =? _)%nat; by constructor. }
  intros [] [ids il] _.
  eapply traced_bind with (Q := fun _ _ => True).
  { unfold prepare_encoder_decoder.
    destruct (is_encoder_decoder B); [|by constructor].
    eapply traced_bind with (Q := fun _ _ => True).
    { by apply traced_infer_encode. }
    intros [] enc _.
    destruct (decoder_start_token_id _) as [d|]; [by constructor|].
    destruct (bos_token_id _) as [d|]; by constructor. }
  intros [] [[ids' il'] kwargs] _.
  eapply traced_bind with (Q := fun _ _ => True).
  { by apply traced_logits_processor. }
  intros [] processor _.
  apply decode_loop_fruitless.
Qed.
End NoEos.

(** X9. When the configured [eos_token_id] is the empty list, [generate]
    never yields a step and never returns normally: without a pad token id
    it raises [IndexError] before any model call; with one, an exception is
    raised at the latest when the first step computes [sum(...)] over no id
    at all. *)
Theorem empty_eos_list_yields_nothing (B : Backend) (W : Type) (h : World B W)
    (w : W) (fuel : nat) (input_ids : Tensor2) (logprobs : Z)
    (kw : GenerateKwargs) :
  eos_list (eos_token_id (generation_config B)) = Some [] ->
  let r := run h (generate fuel input_ids logprobs kw) w in
  yielded (events r) = []
  /\ (forall u, result r <> Returned u)
  /\ (0 < fuel -> exists e, result r = Raised e)%nat
  /\ (pad_token_id (generation_config B) = None ->
      events r = [] /\ result r = Raised IndexError).
Proof.
  intros Heos r.
  destruct (traced_run _ _ _ h w
              (generate_fruitless fuel input_ids logprobs kw Heos))
    as ([] & Hchain & Hend).
  fold r in Hchain, Hend.
  assert (Hnil : yielded (events r) = []).
  { destruct (yielded (events r)) as [|y ys]; [done|].
    simpl in Hchain. by destruct Hchain as (? & [] & _). }
  split_and!; [done| | |].
  - intros u Hu. by rewrite Hu in Hend.
  - intros Hfuel.
    destruct (result r) as [u|e|] eqn:Hres; [done|by exists e|].
    exfalso.
    pose proof (generate_traced (B:=B) fuel input_ids logprobs kw) as Hg.
    destruct (traced_run _ _ _ h w Hg) as (s' & Hc & He).
    fold r in Hc, He. rewrite Hnil in Hc. simpl in Hc. subst s'.
    rewrite Hres in He. simpl in He. destruct He as [He _]. lia.
  - intros Hpad. subst r. unfold generate.
    cbn [eos_token_id pad_token_id config_update].
    rewrite Heos, Hpad. by simpl.
Qed.

(** An empty list and no pad token id: [IndexError], and nothing else. *)
Lemma empty_eos_list_yields_nothing_witness :
  let cfg := Toy.config (Some (EosList [])) None in
  let h := Toy.world cfg false (fun _ _ => Toy.one_hot 3) (fun _ => false)
             (fun _ => 0) in
  let r := run h (generate 5 (repeat_rows [7; 8] 1) 0 (Toy.greedy_kwargs 3))
               0%nat in
  eos_list (eos_token_id (generation_config (Toy.backend cfg false)))
  = Some []
  /\ pad_token_id (generation_config (Toy.backend cfg false)) = None
  /\ yielded (events r) = []
  /\ result r = Raised IndexError.
Proof.
  intros cfg h r.
  assert (H1 : eos_list (eos_token_id
                           (generation_config (Toy.backend cfg false)))
               = Some []) by reflexivity.
  assert (H2 : pad_token_id (generation_config (Toy.backend cfg false))
               = None) by reflexivity.
  destruct (empty_eos_list_yields_nothing (Toy.backend cfg false) nat h
              0%nat 5 (repeat_rows [7; 8] 1) 0 (Toy.greedy_kwargs 3) H1)
    as (Hnil & _ & _ & Hidx).
  split_and!; [exact H1|exact H2|exact Hnil|exact (proj2 (Hidx H2))].
Defined.

(** ** Loading a model *)

Section Load.
Context (H : Hub).
Implicit Types (name : string) (dir : option string) (sm : StreamModel H).

(** The ways through the loaders, by their answers. *)
Lemma load_model_cases name dir q lfo :
  let plain := plain_kwargs dir lfo in
  let kwargs := with_device_options H plain q in
  let tok := AutoTokenizer name plain in
  let causal := AutoModelForCausalLM name kwargs in
  let seq2seq := AutoModelForSeq2SeqLM name kwargs in
  let finish m t :=
    if can_generate H m then inr (StreamModel_init H m t)
    else inl (NotTextGeneration name) in
  load_model H name dir q lfo
  = match tokenizer_from_pretrained H name plain with
    | inl e => ([tok], inl (FromHub e))
    | inr t =>
        match causal_lm_from_pretrained H name kwargs with
        | inr m => ([tok; causal], finish m t)
        | inl ValueError =>
            match seq2seq_lm_from_pretrained H name kwargs with
            | inr m => ([tok; causal; seq2seq], finish m t)
            | inl e => ([tok; causal; seq2seq], inl (FromHub e))
            end
        | inl e => ([tok; causal], inl (FromHub e))
        end
    end.
Proof.
  intros plain kwargs tok causal seq2seq finish.
  subst plain kwargs tok causal seq2seq finish.
  unfold load_model, plain_kwargs, called, except_ValueError, mbind,
    loading_bind, mret, loading_ret.
  destruct (tokenizer_from_pretrained H name _) as [e|t]; simpl; [done|].
  destruct (causal_lm_from_pretrained H name _) as [e|m]; simpl.
  - destruct e; simpl; try done.
    destruct (seq2seq_lm_from_pretrained H name _) as [e|m]; simpl;
      [done|]. by destruct (can_generate H m).
  - by destruct (can_generate H m).
Qed.
End Load.

(** X10. When [load_model] returns, the model it wraps can generate; it was
    loaded by [AutoModelForCausalLM], or by [AutoModelForSeq2SeqLM] after
    the former raised a [ValueError]; the tokenizer was loaded first, with
    [cache_dir] and [local_files_only] only; and the device is "cuda"
    exactly when CUDA is available. *)
Theorem load_model_returns_a_generating_model (H : Hub) (name : string)
    (dir : option string) (q lfo : bool) (log : list hub_call)
    (sm : StreamModel H) :
  load_model H name dir q lfo = (log, inr sm) ->
  let plain := plain_kwargs dir lfo in
  let kwargs := with_device_options H plain q in
  can_generate H (model sm) = true
  /\ tokenizer_from_pretrained H name plain = inr (tokenizer sm)
  /\ device sm = (if cuda_is_available H then "cuda" else "cpu")
  /\ ((causal_lm_from_pretrained H name kwargs = inr (model sm)
       /\ log = [AutoTokenizer name plain; AutoModelForCausalLM name kwargs])
      \/ (causal_lm_from_pretrained H name kwargs = inl ValueError
          /\ seq2seq_lm_from_pretrained H name kwargs = inr (model sm)
          /\ log = [AutoTokenizer name plain;
                    AutoModelForCausalLM name kwargs;
                    AutoModelForSeq2SeqLM name kwargs])).
Proof.
  rewrite load_model_cases. intros Hload plain kwargs.
  fold plain kwargs in Hload.
  destruct (tokenizer_from_pretrained H name plain) as [e|t]; [done|].
  destruct (causal_lm_from_pretrained H name kwargs) as [e|m].
  - destruct e; try done.
    destruct (seq2seq_lm_from_pretrained H name kwargs) as [e|m]; [done|].
    destruct (can_generate H m) eqn:Hgen; [|done].
    injection Hload as <- <-. simpl. split_and!; try done. by right.
  - destruct (can_generate H m) eqn:Hgen; [|done].
    injection Hload as <- <-. simpl. split_and!; try done. by left.
Qed.

(** "t5" is loaded by the fallback. *)
Lemma load_model_returns_a_generating_model_witness :
  let H := ToyHub.hub true in
  exists log sm,
    load_model H "t5" None true false = (log, inr sm)
    /\ can_generate H (model sm) = true
    /\ device sm = "cuda"
    /\ length log = 3%nat.
Proof.
  intros H.
  destruct (load_model H "t5" None true false) as [log [e|sm]] eqn:Hload;
    [by vm_compute in Hload|].
  destruct (load_model_returns_a_generating_model H "t5" None true false
              log sm Hload) as (Hgen & _ & Hdev & Hlog).
  exists log, sm. split_and!; [done|exact Hgen|exact Hdev|].
  destruct Hlog as [[Hc _]|(_ & _ & ->)]; [by vm_compute in Hc|done].
Defined.

(** X11. Without CUDA, [load_in_8bit] has no effect: the same loaders are
    called with the same arguments, none of which carries [device_map] or
    [load_in_8bit], and the outcome is the same. *)
Theorem load_in_8bit_needs_cuda (H : Hub) (name : string)
    (dir : option string) (q q' lfo : bool) :
  cuda_is_available H = false ->
  load_model H name dir q lfo = load_model H name dir q' lfo
  /\ Forall (fun c => device_map (call_kwargs c) = None
                      /\ load_in_8bit (call_kwargs c) = None)
            (load_model H name dir q lfo).1.
Proof.
  intros Hcuda. rewrite !load_model_cases.
  unfold with_device_options. rewrite Hcuda. split; [done|].
  destruct (tokenizer_from_pretrained H name _) as [e|t]; simpl;
    [by repeat constructor|].
  destruct (causal_lm_from_pretrained H name _) as [e|m]; simpl;
    [|by repeat constructor].
  destruct e; simpl; try by repeat constructor.
  destruct (seq2seq_lm_from_pretrained H name _) as [e|m]; simpl;
    by repeat constructor.
Qed.

Lemma load_in_8bit_needs_cuda_witness :
  let H := ToyHub.hub false in
  cuda_is_available H = false
  /\ load_model H "gpt" None true false = load_model H "gpt" None false false.
Proof.
  intros H. assert (H1 : cuda_is_available H = false) by reflexivity.
  split; [exact H1|].
  exact (proj1 (load_in_8bit_needs_cuda H "gpt" None true false false H1)).
Defined.

(** X12. Every way [load_model] raises: the tokenizer could not be loaded,
    and no model loader was called; or [AutoModelForCausalLM] raised
    something that is not a [ValueError], which is not caught, and the
    fallback was not tried; or the fallback [AutoModelForSeq2SeqLM] raised,
    whatever it raised; or the model that was loaded cannot generate, which
    is the [TypeError]. *)
Theorem load_model_failures (H : Hub) (name : string) (dir : option string)
    (q lfo : bool) (log : list hub_call) (err : load_exn) :
  load_model H name dir q lfo = (log, inl err) ->
  let plain := plain_kwargs dir lfo in
  let kwargs := with_device_options H plain q in
  let tok := AutoTokenizer name plain in
  let causal := AutoModelForCausalLM name kwargs in
  let seq2seq := AutoModelForSeq2SeqLM name kwargs in
  (exists e, tokenizer_from_pretrained H name plain = inl e
             /\ err = FromHub e /\ log = [tok])
  \/ (exists e, causal_lm_from_pretrained H name kwargs = inl e
                /\ e <> ValueError
                /\ err = FromHub e /\ log = [tok; causal])
  \/ (exists e,
        causal_lm_from_pretrained H name kwargs = inl ValueError
        /\ seq2seq_lm_from_pretrained H name kwargs = inl e
        /\ err = FromHub e /\ log = [tok; causal; seq2seq])
  \/ (exists m, can_generate H m = false
                /\ err = NotTextGeneration name
                /\ ((causal_lm_from_pretrained H name kwargs = inr m
                     /\ log = [tok; causal])
                    \/ (causal_lm_from_pretrained H name kwargs
                        = inl ValueError
                        /\ seq2seq_lm_from_pretrained H name kwargs = inr m
                        /\ log = [tok; causal; seq2seq]))).
Proof.
  rewrite load_model_cases. intros Hload plain kwargs tok causal seq2seq.
  fold plain kwargs tok causal seq2seq in Hload.
  destruct (tokenizer_from_pretrained H name plain) as [e|t].
  { injection Hload as <- <-. left. by exists e. }
  destruct (causal_lm_from_pretrained H name kwargs) as [e|m].
  - destruct e;
      try (injection Hload as <- <-; right; left; eexists;
           split_and!; [reflexivity|discriminate|reflexivity|reflexivity]).
    destruct (seq2seq_lm_from_pretrained H name kwargs) as [e|m].
    + injection Hload as <- <-. right. right. left. by exists e.
    + destruct (can_generate H m) eqn:Hgen; [done|].
      injection Hload as <- <-. right. right. right.
      exists m. split_and!; [done|done|]. by right.
  - destruct (can_generate H m) eqn:Hgen; [done|].
    injection Hload as <- <-. right. right. right.
    exists m. split_and!; [done|done|]. by left.
Qed.

(** "bert" is loaded, and refused. *)
Lemma load_model_failures_witness :
  let H := ToyHub.hub false in
  exists log,
    load_model H "bert" None false false
    = (log, inl (NotTextGeneration "bert"))
    /\ exists m, can_generate H m = false
                 /\ causal_lm_from_pretrained H "bert"
                      (with_device_options H (plain_kwargs None false) false)
                    = inr m.
Proof.
  intros H.
  destruct (load_model H "bert" None false false) as [log [err|sm]] eqn:Hload;
    [|by vm_compute in Hload].
  assert (Herr : err = NotTextGeneration "bert").
  { vm_compute in Hload. by injection Hload as _ <-. }
  subst err. exists log. split; [done|].
  destruct (load_model_failures H "bert" None false false log _ Hload)
    as [(e & _ & He & _)|[(e & _ & _ & He & _)|[(e & _ & _ & He & _)
       |(m & Hgen & _ & [[Hm _]|(Hc & _)])]]];
    [done|done|done|by exists m|by vm_compute in Hc].
Defined.
